(** * French-Words: the vocabulary parser, the answer matcher and the quiz
    session of the French-Dutch drill, embedded in Rocq.

    Layout of the development:
    - [PyStr]   Python [str] values as sequences of Unicode code points, with
                the built-in methods the program calls ([strip], [lower],
                [split], [startswith], [in]);
    - [Re]      the two [re.sub] calls of [normalize_answer];
    - [Parser]  [VocabularyParser] (parser.py);
    - [Quiz]    [QuizGame] and [main] (quiz.py);
    - the theorems about them. *)

From Stdlib Require Import List NArith Arith Bool Lia String Ascii.
Import ListNotations.

(** ** Python strings *)

Module PyStr.
Local Open Scope N_scope.

(** A Python [str] is a sequence of code points. *)
Definition char := N.
Definition str := list char.

(** String literals are written in UTF-8 in this file; [u] decodes them
    into code points (one to four bytes per code point). *)
Fixpoint utf8_decode (bs : list N) : str :=
  match bs with
  | [] => []
  | b0 :: r0 =>
    if b0 <? 0x80 then b0 :: utf8_decode r0
    else match r0 with
    | [] => [b0]
    | b1 :: r1 =>
      if b0 <? 0xE0 then
        ((b0 mod 0x20) * 0x40 + b1 mod 0x40) :: utf8_decode r1
      else match r1 with
      | [] => [b0; b1]
      | b2 :: r2 =>
        if b0 <? 0xF0 then
          ((b0 mod 0x10) * 0x1000 + (b1 mod 0x40) * 0x40 + b2 mod 0x40)
            :: utf8_decode r2
        else match r2 with
        | [] => [b0; b1; b2]
        | b3 :: r3 =>
          ((b0 mod 0x8) * 0x40000 + (b1 mod 0x40) * 0x1000
           + (b2 mod 0x40) * 0x40 + b3 mod 0x40) :: utf8_decode r3
        end
      end
    end
  end.

Definition u (s : string) : str :=
  utf8_decode (map N_of_ascii (list_ascii_of_string s)).

(** [ord] of an ASCII character. *)
Definition ord (a : ascii) : char := N_of_ascii a.
Arguments ord a%_char.

(** [==] on strings. *)
Fixpoint eqb (s t : str) : bool :=
  match s, t with
  | [], [] => true
  | c :: s', d :: t' => (c =? d) && eqb s' t'
  | _, _ => false
  end.

(** [x in xs] for a list of strings. *)
Definition mem (x : str) (xs : list str) : bool := existsb (eqb x) xs.

(** [c in s] for a one-character [c]. *)
Definition contains (c : char) (s : str) : bool := existsb (N.eqb c) s.

(** [s.startswith(c)] for a one-character [c]. *)
Definition startswith (c : char) (s : str) : bool :=
  match s with
  | [] => false
  | d :: _ => d =? c
  end.

(** Truth value of a string: [not s] holds for the empty string only. *)
Definition is_empty (s : str) : bool :=
  match s with
  | [] => true
  | _ :: _ => false
  end.

(** *** Whitespace

    [str.strip()], [str.isspace()] and the regex class [\s] all use
    CPython's [Py_UNICODE_ISSPACE]: the 29 code points below. *)
Definition isspace (c : char) : bool :=
  ((0x09 <=? c) && (c <=? 0x0D)) || ((0x1C <=? c) && (c <=? 0x20))
  || (c =? 0x85) || (c =? 0xA0) || (c =? 0x1680)
  || ((0x2000 <=? c) && (c <=? 0x200A))
  || (c =? 0x2028) || (c =? 0x2029) || (c =? 0x202F) || (c =? 0x205F)
  || (c =? 0x3000).

Fixpoint lstrip (s : str) : str :=
  match s with
  | [] => []
  | c :: r => if isspace c then lstrip r else s
  end.

Definition rstrip (s : str) : str := rev (lstrip (rev s)).

(** [s.strip()] *)
Definition strip (s : str) : str := rstrip (lstrip s).

(** *** Splitting *)

(** [s.split(sep)] for a one-character separator: always at least one
    piece. *)
Fixpoint split (sep : char) (s : str) : list str :=
  match s with
  | [] => [[]]
  | c :: r =>
    if c =? sep then [] :: split sep r
    else match split sep r with
         | p :: ps => (c :: p) :: ps
         | [] => [[c]]
         end
  end.

(** [s.split(sep, 1)]: at most one split, at the first separator. *)
Fixpoint split1 (sep : char) (s : str) : list str :=
  match s with
  | [] => [[]]
  | c :: r =>
    if c =? sep then [[]; r]
    else match split1 sep r with
         | p :: ps => (c :: p) :: ps
         | [] => [[c]]
         end
  end.

(** *** Lower-casing

    [str.lower()] maps every code point through the Unicode 14.0 lower-case
    table of CPython 3.11 ([_PyUnicode_ToLowerFull]), except capital sigma,
    whose result depends on the neighbouring characters. The tables are
    those of the interpreter: [lower_ranges] lists runs
    [(first, count, step, image of first)] of code points with a one-code-point
    lower case, [cased_ranges] and [case_ignorable_ranges] the properties
    Cased and Case_Ignorable. *)
Definition lower_ranges : list (N * nat * N * N) :=
 [
  (0x41, 26%nat, 1, 0x61); (0xC0, 23%nat, 1, 0xE0); (0xD8, 7%nat, 1, 0xF8);
  (0x100, 24%nat, 2, 0x101); (0x132, 3%nat, 2, 0x133); (0x139, 8%nat, 2, 0x13A);
  (0x14A, 23%nat, 2, 0x14B); (0x178, 1%nat, 1, 0xFF); (0x179, 3%nat, 2, 0x17A);
  (0x181, 1%nat, 1, 0x253); (0x182, 2%nat, 2, 0x183); (0x186, 1%nat, 1, 0x254);
  (0x187, 1%nat, 1, 0x188); (0x189, 2%nat, 1, 0x256); (0x18B, 1%nat, 1, 0x18C);
  (0x18E, 1%nat, 1, 0x1DD); (0x18F, 1%nat, 1, 0x259); (0x190, 1%nat, 1, 0x25B);
  (0x191, 1%nat, 1, 0x192); (0x193, 1%nat, 1, 0x260); (0x194, 1%nat, 1, 0x263);
  (0x196, 1%nat, 1, 0x269); (0x197, 1%nat, 1, 0x268); (0x198, 1%nat, 1, 0x199);
  (0x19C, 1%nat, 1, 0x26F); (0x19D, 1%nat, 1, 0x272); (0x19F, 1%nat, 1, 0x275);
  (0x1A0, 3%nat, 2, 0x1A1); (0x1A6, 1%nat, 1, 0x280); (0x1A7, 1%nat, 1, 0x1A8);
  (0x1A9, 1%nat, 1, 0x283); (0x1AC, 1%nat, 1, 0x1AD); (0x1AE, 1%nat, 1, 0x288);
  (0x1AF, 1%nat, 1, 0x1B0); (0x1B1, 2%nat, 1, 0x28A); (0x1B3, 2%nat, 2, 0x1B4);
  (0x1B7, 1%nat, 1, 0x292); (0x1B8, 1%nat, 1, 0x1B9); (0x1BC, 1%nat, 1, 0x1BD);
  (0x1C4, 1%nat, 1, 0x1C6); (0x1C5, 1%nat, 1, 0x1C6); (0x1C7, 1%nat, 1, 0x1C9);
  (0x1C8, 1%nat, 1, 0x1C9); (0x1CA, 1%nat, 1, 0x1CC); (0x1CB, 9%nat, 2, 0x1CC);
  (0x1DE, 9%nat, 2, 0x1DF); (0x1F1, 1%nat, 1, 0x1F3); (0x1F2, 2%nat, 2, 0x1F3);
  (0x1F6, 1%nat, 1, 0x195); (0x1F7, 1%nat, 1, 0x1BF); (0x1F8, 20%nat, 2, 0x1F9);
  (0x220, 1%nat, 1, 0x19E); (0x222, 9%nat, 2, 0x223); (0x23A, 1%nat, 1, 0x2C65);
  (0x23B, 1%nat, 1, 0x23C); (0x23D, 1%nat, 1, 0x19A); (0x23E, 1%nat, 1, 0x2C66);
  (0x241, 1%nat, 1, 0x242); (0x243, 1%nat, 1, 0x180); (0x244, 1%nat, 1, 0x289);
  (0x245, 1%nat, 1, 0x28C); (0x246, 5%nat, 2, 0x247); (0x370, 2%nat, 2, 0x371);
  (0x376, 1%nat, 1, 0x377); (0x37F, 1%nat, 1, 0x3F3); (0x386, 1%nat, 1, 0x3AC);
  (0x388, 3%nat, 1, 0x3AD); (0x38C, 1%nat, 1, 0x3CC); (0x38E, 2%nat, 1, 0x3CD);
  (0x391, 17%nat, 1, 0x3B1); (0x3A3, 9%nat, 1, 0x3C3); (0x3CF, 1%nat, 1, 0x3D7);
  (0x3D8, 12%nat, 2, 0x3D9); (0x3F4, 1%nat, 1, 0x3B8); (0x3F7, 1%nat, 1, 0x3F8);
  (0x3F9, 1%nat, 1, 0x3F2); (0x3FA, 1%nat, 1, 0x3FB); (0x3FD, 3%nat, 1, 0x37B);
  (0x400, 16%nat, 1, 0x450); (0x410, 32%nat, 1, 0x430); (0x460, 17%nat, 2, 0x461);
  (0x48A, 27%nat, 2, 0x48B); (0x4C0, 1%nat, 1, 0x4CF); (0x4C1, 7%nat, 2, 0x4C2);
  (0x4D0, 48%nat, 2, 0x4D1); (0x531, 38%nat, 1, 0x561); (0x10A0, 38%nat, 1, 0x2D00);
  (0x10C7, 1%nat, 1, 0x2D27); (0x10CD, 1%nat, 1, 0x2D2D); (0x13A0, 80%nat, 1, 0xAB70);
  (0x13F0, 6%nat, 1, 0x13F8); (0x1C90, 43%nat, 1, 0x10D0); (0x1CBD, 3%nat, 1, 0x10FD);
  (0x1E00, 75%nat, 2, 0x1E01); (0x1E9E, 1%nat, 1, 0xDF); (0x1EA0, 48%nat, 2, 0x1EA1);
  (0x1F08, 8%nat, 1, 0x1F00); (0x1F18, 6%nat, 1, 0x1F10); (0x1F28, 8%nat, 1, 0x1F20);
  (0x1F38, 8%nat, 1, 0x1F30); (0x1F48, 6%nat, 1, 0x1F40); (0x1F59, 4%nat, 2, 0x1F51);
  (0x1F68, 8%nat, 1, 0x1F60); (0x1F88, 8%nat, 1, 0x1F80); (0x1F98, 8%nat, 1, 0x1F90);
  (0x1FA8, 8%nat, 1, 0x1FA0); (0x1FB8, 2%nat, 1, 0x1FB0); (0x1FBA, 2%nat, 1, 0x1F70);
  (0x1FBC, 1%nat, 1, 0x1FB3); (0x1FC8, 4%nat, 1, 0x1F72); (0x1FCC, 1%nat, 1, 0x1FC3);
  (0x1FD8, 2%nat, 1, 0x1FD0); (0x1FDA, 2%nat, 1, 0x1F76); (0x1FE8, 2%nat, 1, 0x1FE0);
  (0x1FEA, 2%nat, 1, 0x1F7A); (0x1FEC, 1%nat, 1, 0x1FE5); (0x1FF8, 2%nat, 1, 0x1F78);
  (0x1FFA, 2%nat, 1, 0x1F7C); (0x1FFC, 1%nat, 1, 0x1FF3); (0x2126, 1%nat, 1, 0x3C9);
  (0x212A, 1%nat, 1, 0x6B); (0x212B, 1%nat, 1, 0xE5); (0x2132, 1%nat, 1, 0x214E);
  (0x2160, 16%nat, 1, 0x2170); (0x2183, 1%nat, 1, 0x2184); (0x24B6, 26%nat, 1, 0x24D0);
  (0x2C00, 48%nat, 1, 0x2C30); (0x2C60, 1%nat, 1, 0x2C61); (0x2C62, 1%nat, 1, 0x26B);
  (0x2C63, 1%nat, 1, 0x1D7D); (0x2C64, 1%nat, 1, 0x27D); (0x2C67, 3%nat, 2, 0x2C68);
  (0x2C6D, 1%nat, 1, 0x251); (0x2C6E, 1%nat, 1, 0x271); (0x2C6F, 1%nat, 1, 0x250);
  (0x2C70, 1%nat, 1, 0x252); (0x2C72, 1%nat, 1, 0x2C73); (0x2C75, 1%nat, 1, 0x2C76);
  (0x2C7E, 2%nat, 1, 0x23F); (0x2C80, 50%nat, 2, 0x2C81); (0x2CEB, 2%nat, 2, 0x2CEC);
  (0x2CF2, 1%nat, 1, 0x2CF3); (0xA640, 23%nat, 2, 0xA641); (0xA680, 14%nat, 2, 0xA681);
  (0xA722, 7%nat, 2, 0xA723); (0xA732, 31%nat, 2, 0xA733); (0xA779, 2%nat, 2, 0xA77A);
  (0xA77D, 1%nat, 1, 0x1D79); (0xA77E, 5%nat, 2, 0xA77F); (0xA78B, 1%nat, 1, 0xA78C);
  (0xA78D, 1%nat, 1, 0x265); (0xA790, 2%nat, 2, 0xA791); (0xA796, 10%nat, 2, 0xA797);
  (0xA7AA, 1%nat, 1, 0x266); (0xA7AB, 1%nat, 1, 0x25C); (0xA7AC, 1%nat, 1, 0x261);
  (0xA7AD, 1%nat, 1, 0x26C); (0xA7AE, 1%nat, 1, 0x26A); (0xA7B0, 1%nat, 1, 0x29E);
  (0xA7B1, 1%nat, 1, 0x287); (0xA7B2, 1%nat, 1, 0x29D); (0xA7B3, 1%nat, 1, 0xAB53);
  (0xA7B4, 8%nat, 2, 0xA7B5); (0xA7C4, 1%nat, 1, 0xA794); (0xA7C5, 1%nat, 1, 0x282);
  (0xA7C6, 1%nat, 1, 0x1D8E); (0xA7C7, 2%nat, 2, 0xA7C8); (0xA7D0, 1%nat, 1, 0xA7D1);
  (0xA7D6, 2%nat, 2, 0xA7D7); (0xA7F5, 1%nat, 1, 0xA7F6); (0xFF21, 26%nat, 1, 0xFF41);
  (0x10400, 40%nat, 1, 0x10428); (0x104B0, 36%nat, 1, 0x104D8); (0x10570, 11%nat, 1, 0x10597);
  (0x1057C, 15%nat, 1, 0x105A3); (0x1058C, 7%nat, 1, 0x105B3); (0x10594, 2%nat, 1, 0x105BB);
  (0x10C80, 51%nat, 1, 0x10CC0); (0x118A0, 32%nat, 1, 0x118C0); (0x16E40, 32%nat, 1, 0x16E60);
  (0x1E900, 34%nat, 1, 0x1E922)
 ].

Definition cased_ranges : list (N * N) :=
 [
  (0x41, 0x5A); (0x61, 0x7A); (0xAA, 0xAA); (0xB5, 0xB5); (0xBA, 0xBA);
  (0xC0, 0xD6); (0xD8, 0xF6); (0xF8, 0x1BA); (0x1BC, 0x1BF); (0x1C4, 0x293);
  (0x295, 0x2B8); (0x2C0, 0x2C1); (0x2E0, 0x2E4); (0x345, 0x345); (0x370, 0x373);
  (0x376, 0x377); (0x37A, 0x37D); (0x37F, 0x37F); (0x386, 0x386); (0x388, 0x38A);
  (0x38C, 0x38C); (0x38E, 0x3A1); (0x3A3, 0x3F5); (0x3F7, 0x481); (0x48A, 0x52F);
  (0x531, 0x556); (0x560, 0x588); (0x10A0, 0x10C5); (0x10C7, 0x10C7); (0x10CD, 0x10CD);
  (0x10D0, 0x10FA); (0x10FD, 0x10FF); (0x13A0, 0x13F5); (0x13F8, 0x13FD); (0x1C80, 0x1C88);
  (0x1C90, 0x1CBA); (0x1CBD, 0x1CBF); (0x1D00, 0x1DBF); (0x1E00, 0x1F15); (0x1F18, 0x1F1D);
  (0x1F20, 0x1F45); (0x1F48, 0x1F4D); (0x1F50, 0x1F57); (0x1F59, 0x1F59); (0x1F5B, 0x1F5B);
  (0x1F5D, 0x1F5D); (0x1F5F, 0x1F7D); (0x1F80, 0x1FB4); (0x1FB6, 0x1FBC); (0x1FBE, 0x1FBE);
  (0x1FC2, 0x1FC4); (0x1FC6, 0x1FCC); (0x1FD0, 0x1FD3); (0x1FD6, 0x1FDB); (0x1FE0, 0x1FEC);
  (0x1FF2, 0x1FF4); (0x1FF6, 0x1FFC); (0x2071, 0x2071); (0x207F, 0x207F); (0x2090, 0x209C);
  (0x2102, 0x2102); (0x2107, 0x2107); (0x210A, 0x2113); (0x2115, 0x2115); (0x2119, 0x211D);
  (0x2124, 0x2124); (0x2126, 0x2126); (0x2128, 0x2128); (0x212A, 0x212D); (0x212F, 0x2134);
  (0x2139, 0x2139); (0x213C, 0x213F); (0x2145, 0x2149); (0x214E, 0x214E); (0x2160, 0x217F);
  (0x2183, 0x2184); (0x24B6, 0x24E9); (0x2C00, 0x2CE4); (0x2CEB, 0x2CEE); (0x2CF2, 0x2CF3);
  (0x2D00, 0x2D25); (0x2D27, 0x2D27); (0x2D2D, 0x2D2D); (0xA640, 0xA66D); (0xA680, 0xA69D);
  (0xA722, 0xA787); (0xA78B, 0xA78E); (0xA790, 0xA7CA); (0xA7D0, 0xA7D1); (0xA7D3, 0xA7D3);
  (0xA7D5, 0xA7D9); (0xA7F5, 0xA7F6); (0xA7F8, 0xA7FA); (0xAB30, 0xAB5A); (0xAB5C, 0xAB68);
  (0xAB70, 0xABBF); (0xFB00, 0xFB06); (0xFB13, 0xFB17); (0xFF21, 0xFF3A); (0xFF41, 0xFF5A);
  (0x10400, 0x1044F); (0x104B0, 0x104D3); (0x104D8, 0x104FB); (0x10570, 0x1057A); (0x1057C, 0x1058A);
  (0x1058C, 0x10592); (0x10594, 0x10595); (0x10597, 0x105A1); (0x105A3, 0x105B1); (0x105B3, 0x105B9);
  (0x105BB, 0x105BC); (0x10780, 0x10780); (0x10783, 0x10785); (0x10787, 0x107B0); (0x107B2, 0x107BA);
  (0x10C80, 0x10CB2); (0x10CC0, 0x10CF2); (0x118A0, 0x118DF); (0x16E40, 0x16E7F); (0x1D400, 0x1D454);
  (0x1D456, 0x1D49C); (0x1D49E, 0x1D49F); (0x1D4A2, 0x1D4A2); (0x1D4A5, 0x1D4A6); (0x1D4A9, 0x1D4AC);
  (0x1D4AE, 0x1D4B9); (0x1D4BB, 0x1D4BB); (0x1D4BD, 0x1D4C3); (0x1D4C5, 0x1D505); (0x1D507, 0x1D50A);
  (0x1D50D, 0x1D514); (0x1D516, 0x1D51C); (0x1D51E, 0x1D539); (0x1D53B, 0x1D53E); (0x1D540, 0x1D544);
  (0x1D546, 0x1D546); (0x1D54A, 0x1D550); (0x1D552, 0x1D6A5); (0x1D6A8, 0x1D6C0); (0x1D6C2, 0x1D6DA);
  (0x1D6DC, 0x1D6FA); (0x1D6FC, 0x1D714); (0x1D716, 0x1D734); (0x1D736, 0x1D74E); (0x1D750, 0x1D76E);
  (0x1D770, 0x1D788); (0x1D78A, 0x1D7A8); (0x1D7AA, 0x1D7C2); (0x1D7C4, 0x1D7CB); (0x1DF00, 0x1DF09);
  (0x1DF0B, 0x1DF1E); (0x1E900, 0x1E943); (0x1F130, 0x1F149); (0x1F150, 0x1F169); (0x1F170, 0x1F189)
 ].

Definition case_ignorable_ranges : list (N * N) :=
 [
  (0x27, 0x27); (0x2E, 0x2E); (0x3A, 0x3A); (0x5E, 0x5E); (0x60, 0x60);
  (0xA8, 0xA8); (0xAD, 0xAD); (0xAF, 0xAF); (0xB4, 0xB4); (0xB7, 0xB8);
  (0x2B0, 0x36F); (0x374, 0x375); (0x37A, 0x37A); (0x384, 0x385); (0x387, 0x387);
  (0x483, 0x489); (0x559, 0x559); (0x55F, 0x55F); (0x591, 0x5BD); (0x5BF, 0x5BF);
  (0x5C1, 0x5C2); (0x5C4, 0x5C5); (0x5C7, 0x5C7); (0x5F4, 0x5F4); (0x600, 0x605);
  (0x610, 0x61A); (0x61C, 0x61C); (0x640, 0x640); (0x64B, 0x65F); (0x670, 0x670);
  (0x6D6, 0x6DD); (0x6DF, 0x6E8); (0x6EA, 0x6ED); (0x70F, 0x70F); (0x711, 0x711);
  (0x730, 0x74A); (0x7A6, 0x7B0); (0x7EB, 0x7F5); (0x7FA, 0x7FA); (0x7FD, 0x7FD);
  (0x816, 0x82D); (0x859, 0x85B); (0x888, 0x888); (0x890, 0x891); (0x898, 0x89F);
  (0x8C9, 0x902); (0x93A, 0x93A); (0x93C, 0x93C); (0x941, 0x948); (0x94D, 0x94D);
  (0x951, 0x957); (0x962, 0x963); (0x971, 0x971); (0x981, 0x981); (0x9BC, 0x9BC);
  (0x9C1, 0x9C4); (0x9CD, 0x9CD); (0x9E2, 0x9E3); (0x9FE, 0x9FE); (0xA01, 0xA02);
  (0xA3C, 0xA3C); (0xA41, 0xA42); (0xA47, 0xA48); (0xA4B, 0xA4D); (0xA51, 0xA51);
  (0xA70, 0xA71); (0xA75, 0xA75); (0xA81, 0xA82); (0xABC, 0xABC); (0xAC1, 0xAC5);
  (0xAC7, 0xAC8); (0xACD, 0xACD); (0xAE2, 0xAE3); (0xAFA, 0xAFF); (0xB01, 0xB01);
  (0xB3C, 0xB3C); (0xB3F, 0xB3F); (0xB41, 0xB44); (0xB4D, 0xB4D); (0xB55, 0xB56);
  (0xB62, 0xB63); (0xB82, 0xB82); (0xBC0, 0xBC0); (0xBCD, 0xBCD); (0xC00, 0xC00);
  (0xC04, 0xC04); (0xC3C, 0xC3C); (0xC3E, 0xC40); (0xC46, 0xC48); (0xC4A, 0xC4D);
  (0xC55, 0xC56); (0xC62, 0xC63); (0xC81, 0xC81); (0xCBC, 0xCBC); (0xCBF, 0xCBF);
  (0xCC6, 0xCC6); (0xCCC, 0xCCD); (0xCE2, 0xCE3); (0xD00, 0xD01); (0xD3B, 0xD3C);
  (0xD41, 0xD44); (0xD4D, 0xD4D); (0xD62, 0xD63); (0xD81, 0xD81); (0xDCA, 0xDCA);
  (0xDD2, 0xDD4); (0xDD6, 0xDD6); (0xE31, 0xE31); (0xE34, 0xE3A); (0xE46, 0xE4E);
  (0xEB1, 0xEB1); (0xEB4, 0xEBC); (0xEC6, 0xEC6); (0xEC8, 0xECD); (0xF18, 0xF19);
  (0xF35, 0xF35); (0xF37, 0xF37); (0xF39, 0xF39); (0xF71, 0xF7E); (0xF80, 0xF84);
  (0xF86, 0xF87); (0xF8D, 0xF97); (0xF99, 0xFBC); (0xFC6, 0xFC6); (0x102D, 0x1030);
  (0x1032, 0x1037); (0x1039, 0x103A); (0x103D, 0x103E); (0x1058, 0x1059); (0x105E, 0x1060);
  (0x1071, 0x1074); (0x1082, 0x1082); (0x1085, 0x1086); (0x108D, 0x108D); (0x109D, 0x109D);
  (0x10FC, 0x10FC); (0x135D, 0x135F); (0x1712, 0x1714); (0x1732, 0x1733); (0x1752, 0x1753);
  (0x1772, 0x1773); (0x17B4, 0x17B5); (0x17B7, 0x17BD); (0x17C6, 0x17C6); (0x17C9, 0x17D3);
  (0x17D7, 0x17D7); (0x17DD, 0x17DD); (0x180B, 0x180F); (0x1843, 0x1843); (0x1885, 0x1886);
  (0x18A9, 0x18A9); (0x1920, 0x1922); (0x1927, 0x1928); (0x1932, 0x1932); (0x1939, 0x193B);
  (0x1A17, 0x1A18); (0x1A1B, 0x1A1B); (0x1A56, 0x1A56); (0x1A58, 0x1A5E); (0x1A60, 0x1A60);
  (0x1A62, 0x1A62); (0x1A65, 0x1A6C); (0x1A73, 0x1A7C); (0x1A7F, 0x1A7F); (0x1AA7, 0x1AA7);
  (0x1AB0, 0x1ACE); (0x1B00, 0x1B03); (0x1B34, 0x1B34); (0x1B36, 0x1B3A); (0x1B3C, 0x1B3C);
  (0x1B42, 0x1B42); (0x1B6B, 0x1B73); (0x1B80, 0x1B81); (0x1BA2, 0x1BA5); (0x1BA8, 0x1BA9);
  (0x1BAB, 0x1BAD); (0x1BE6, 0x1BE6); (0x1BE8, 0x1BE9); (0x1BED, 0x1BED); (0x1BEF, 0x1BF1);
  (0x1C2C, 0x1C33); (0x1C36, 0x1C37); (0x1C78, 0x1C7D); (0x1CD0, 0x1CD2); (0x1CD4, 0x1CE0);
  (0x1CE2, 0x1CE8); (0x1CED, 0x1CED); (0x1CF4, 0x1CF4); (0x1CF8, 0x1CF9); (0x1D2C, 0x1D6A);
  (0x1D78, 0x1D78); (0x1D9B, 0x1DFF); (0x1FBD, 0x1FBD); (0x1FBF, 0x1FC1); (0x1FCD, 0x1FCF);
  (0x1FDD, 0x1FDF); (0x1FED, 0x1FEF); (0x1FFD, 0x1FFE); (0x200B, 0x200F); (0x2018, 0x2019);
  (0x2024, 0x2024); (0x2027, 0x2027); (0x202A, 0x202E); (0x2060, 0x2064); (0x2066, 0x206F);
  (0x2071, 0x2071); (0x207F, 0x207F); (0x2090, 0x209C); (0x20D0, 0x20F0); (0x2C7C, 0x2C7D);
  (0x2CEF, 0x2CF1); (0x2D6F, 0x2D6F); (0x2D7F, 0x2D7F); (0x2DE0, 0x2DFF); (0x2E2F, 0x2E2F);
  (0x3005, 0x3005); (0x302A, 0x302D); (0x3031, 0x3035); (0x303B, 0x303B); (0x3099, 0x309E);
  (0x30FC, 0x30FE); (0xA015, 0xA015); (0xA4F8, 0xA4FD); (0xA60C, 0xA60C); (0xA66F, 0xA672);
  (0xA674, 0xA67D); (0xA67F, 0xA67F); (0xA69C, 0xA69F); (0xA6F0, 0xA6F1); (0xA700, 0xA721);
  (0xA770, 0xA770); (0xA788, 0xA78A); (0xA7F2, 0xA7F4); (0xA7F8, 0xA7F9); (0xA802, 0xA802);
  (0xA806, 0xA806); (0xA80B, 0xA80B); (0xA825, 0xA826); (0xA82C, 0xA82C); (0xA8C4, 0xA8C5);
  (0xA8E0, 0xA8F1); (0xA8FF, 0xA8FF); (0xA926, 0xA92D); (0xA947, 0xA951); (0xA980, 0xA982);
  (0xA9B3, 0xA9B3); (0xA9B6, 0xA9B9); (0xA9BC, 0xA9BD); (0xA9CF, 0xA9CF); (0xA9E5, 0xA9E6);
  (0xAA29, 0xAA2E); (0xAA31, 0xAA32); (0xAA35, 0xAA36); (0xAA43, 0xAA43); (0xAA4C, 0xAA4C);
  (0xAA70, 0xAA70); (0xAA7C, 0xAA7C); (0xAAB0, 0xAAB0); (0xAAB2, 0xAAB4); (0xAAB7, 0xAAB8);
  (0xAABE, 0xAABF); (0xAAC1, 0xAAC1); (0xAADD, 0xAADD); (0xAAEC, 0xAAED); (0xAAF3, 0xAAF4);
  (0xAAF6, 0xAAF6); (0xAB5B, 0xAB5F); (0xAB69, 0xAB6B); (0xABE5, 0xABE5); (0xABE8, 0xABE8);
  (0xABED, 0xABED); (0xFB1E, 0xFB1E); (0xFBB2, 0xFBC2); (0xFE00, 0xFE0F); (0xFE13, 0xFE13);
  (0xFE20, 0xFE2F); (0xFE52, 0xFE52); (0xFE55, 0xFE55); (0xFEFF, 0xFEFF); (0xFF07, 0xFF07);
  (0xFF0E, 0xFF0E); (0xFF1A, 0xFF1A); (0xFF3E, 0xFF3E); (0xFF40, 0xFF40); (0xFF70, 0xFF70);
  (0xFF9E, 0xFF9F); (0xFFE3, 0xFFE3); (0xFFF9, 0xFFFB); (0x101FD, 0x101FD); (0x102E0, 0x102E0);
  (0x10376, 0x1037A); (0x10780, 0x10785); (0x10787, 0x107B0); (0x107B2, 0x107BA); (0x10A01, 0x10A03);
  (0x10A05, 0x10A06); (0x10A0C, 0x10A0F); (0x10A38, 0x10A3A); (0x10A3F, 0x10A3F); (0x10AE5, 0x10AE6);
  (0x10D24, 0x10D27); (0x10EAB, 0x10EAC); (0x10F46, 0x10F50); (0x10F82, 0x10F85); (0x11001, 0x11001);
  (0x11038, 0x11046); (0x11070, 0x11070); (0x11073, 0x11074); (0x1107F, 0x11081); (0x110B3, 0x110B6);
  (0x110B9, 0x110BA); (0x110BD, 0x110BD); (0x110C2, 0x110C2); (0x110CD, 0x110CD); (0x11100, 0x11102);
  (0x11127, 0x1112B); (0x1112D, 0x11134); (0x11173, 0x11173); (0x11180, 0x11181); (0x111B6, 0x111BE);
  (0x111C9, 0x111CC); (0x111CF, 0x111CF); (0x1122F, 0x11231); (0x11234, 0x11234); (0x11236, 0x11237);
  (0x1123E, 0x1123E); (0x112DF, 0x112DF); (0x112E3, 0x112EA); (0x11300, 0x11301); (0x1133B, 0x1133C);
  (0x11340, 0x11340); (0x11366, 0x1136C); (0x11370, 0x11374); (0x11438, 0x1143F); (0x11442, 0x11444);
  (0x11446, 0x11446); (0x1145E, 0x1145E); (0x114B3, 0x114B8); (0x114BA, 0x114BA); (0x114BF, 0x114C0);
  (0x114C2, 0x114C3); (0x115B2, 0x115B5); (0x115BC, 0x115BD); (0x115BF, 0x115C0); (0x115DC, 0x115DD);
  (0x11633, 0x1163A); (0x1163D, 0x1163D); (0x1163F, 0x11640); (0x116AB, 0x116AB); (0x116AD, 0x116AD);
  (0x116B0, 0x116B5); (0x116B7, 0x116B7); (0x1171D, 0x1171F); (0x11722, 0x11725); (0x11727, 0x1172B);
  (0x1182F, 0x11837); (0x11839, 0x1183A); (0x1193B, 0x1193C); (0x1193E, 0x1193E); (0x11943, 0x11943);
  (0x119D4, 0x119D7); (0x119DA, 0x119DB); (0x119E0, 0x119E0); (0x11A01, 0x11A0A); (0x11A33, 0x11A38);
  (0x11A3B, 0x11A3E); (0x11A47, 0x11A47); (0x11A51, 0x11A56); (0x11A59, 0x11A5B); (0x11A8A, 0x11A96);
  (0x11A98, 0x11A99); (0x11C30, 0x11C36); (0x11C38, 0x11C3D); (0x11C3F, 0x11C3F); (0x11C92, 0x11CA7);
  (0x11CAA, 0x11CB0); (0x11CB2, 0x11CB3); (0x11CB5, 0x11CB6); (0x11D31, 0x11D36); (0x11D3A, 0x11D3A);
  (0x11D3C, 0x11D3D); (0x11D3F, 0x11D45); (0x11D47, 0x11D47); (0x11D90, 0x11D91); (0x11D95, 0x11D95);
  (0x11D97, 0x11D97); (0x11EF3, 0x11EF4); (0x13430, 0x13438); (0x16AF0, 0x16AF4); (0x16B30, 0x16B36);
  (0x16B40, 0x16B43); (0x16F4F, 0x16F4F); (0x16F8F, 0x16F9F); (0x16FE0, 0x16FE1); (0x16FE3, 0x16FE4);
  (0x1AFF0, 0x1AFF3); (0x1AFF5, 0x1AFFB); (0x1AFFD, 0x1AFFE); (0x1BC9D, 0x1BC9E); (0x1BCA0, 0x1BCA3);
  (0x1CF00, 0x1CF2D); (0x1CF30, 0x1CF46); (0x1D167, 0x1D169); (0x1D173, 0x1D182); (0x1D185, 0x1D18B);
  (0x1D1AA, 0x1D1AD); (0x1D242, 0x1D244); (0x1DA00, 0x1DA36); (0x1DA3B, 0x1DA6C); (0x1DA75, 0x1DA75);
  (0x1DA84, 0x1DA84); (0x1DA9B, 0x1DA9F); (0x1DAA1, 0x1DAAF); (0x1E000, 0x1E006); (0x1E008, 0x1E018);
  (0x1E01B, 0x1E021); (0x1E023, 0x1E024); (0x1E026, 0x1E02A); (0x1E130, 0x1E13D); (0x1E2AE, 0x1E2AE);
  (0x1E2EC, 0x1E2EF); (0x1E8D0, 0x1E8D6); (0x1E944, 0x1E94B); (0x1F3FB, 0x1F3FF); (0xE0001, 0xE0001);
  (0xE0020, 0xE007F); (0xE0100, 0xE01EF)
 ].

Definition expand_range (e : N * nat * N * N) : list (char * char) :=
  let '(lo, count, step, img) := e in
  map (fun k => (lo + N.of_nat k * step, img + N.of_nat k * step)) (seq 0 count).

Definition lower_pairs : list (char * char) := flat_map expand_range lower_ranges.

Definition in_ranges (t : list (N * N)) (c : char) : bool :=
  existsb (fun r => (fst r <=? c) && (c <=? snd r)) t.

Definition is_cased (c : char) : bool := in_ranges cased_ranges c.
Definition is_case_ignorable (c : char) : bool := in_ranges case_ignorable_ranges c.

Definition lookup_lower (c : char) : option (char * char) :=
  find (fun p => fst p =? c) lower_pairs.

(** [_PyUnicode_ToLowerFull]: U+0130 is the only code point whose lower case
    has two code points. *)
Definition to_lower_full (c : char) : list char :=
  if c =? 0x130 then [0x69; 0x307]
  else match lookup_lower c with
       | Some p => [snd p]
       | None => [c]
       end.

(** First character that is not case-ignorable, scanning from the head. *)
Fixpoint first_not_ignorable (s : str) : option char :=
  match s with
  | [] => None
  | c :: r => if is_case_ignorable c then first_not_ignorable r else Some c
  end.

(** [handle_capital_sigma]: [before] is the text before the sigma, nearest
    character first; [after] the text after it. *)
Definition final_sigma (before after : str) : bool :=
  match first_not_ignorable before with
  | None => false
  | Some c =>
    is_cased c &&
    match first_not_ignorable after with
    | None => true
    | Some d => negb (is_cased d)
    end
  end.

Definition lower_char (before : str) (c : char) (after : str) : list char :=
  if c =? 0x3A3 then [if final_sigma before after then 0x3C2 else 0x3C3]
  else to_lower_full c.

Fixpoint lower_from (before : str) (s : str) : str :=
  match s with
  | [] => []
  | c :: r => lower_char before c r ++ lower_from (c :: before) r
  end.

(** [s.lower()] *)
Definition lower (s : str) : str := lower_from [] s.

Arguments to_lower_full : simpl never.
Arguments is_cased : simpl never.
Arguments is_case_ignorable : simpl never.

End PyStr.

Abbreviation str := PyStr.str.
Abbreviation u := PyStr.u.
Abbreviation ord := PyStr.ord.

(** ** The regular expressions of [normalize_answer] *)

Module Re.
Import PyStr.
Local Open Scope N_scope.

(** The character class of the first pattern: the eleven characters
    . , ; : ! ? ( ) double quote, apostrophe and hyphen. *)
Definition is_punct (c : char) : bool :=
  existsb (N.eqb c)
    [ord "."; ord ","; ord ";"; ord ":"; ord "!"; ord "?"; ord "("; ord ")";
     0x22; ord "'"; ord "-"].

(** [re.sub] of the punctuation class by the empty string: every match is
    one character, and every one is deleted. *)
Definition remove_punct (s : str) : str :=
  filter (fun c => negb (is_punct c)) s.

(** [re.sub] of whitespace runs by a single space: matches are the maximal
    runs of whitespace, left to right; [in_run] tells that the
    previous character belongs to the run being replaced. *)
Fixpoint collapse_from (in_run : bool) (s : str) : str :=
  match s with
  | [] => []
  | c :: r =>
    if isspace c then
      if in_run then collapse_from true r else ord " " :: collapse_from true r
    else c :: collapse_from false r
  end.

Definition collapse_ws (s : str) : str := collapse_from false s.

End Re.

(** ** parser.py *)

Module Parser.
Import PyStr.
Local Open Scope N_scope.

Definition pair := (str * str)%type.

Record VocabularyParser := mkParser {
  filename : str;
  vocabulary_pairs : list pair
}.

(** [__init__] *)
Definition init (file : str) : VocabularyParser := mkParser file [].

(** What opening and reading the file gives: one of the three exceptions
    [load_vocabulary] handles, or the decoded text of the file.  Printing
    does not fail. *)
Inductive read_result :=
| FileNotFoundError
| UnicodeDecodeError
| OtherException
| Contents (text : str).

(** Text mode translates the line endings CR LF and CR to LF. *)
Fixpoint universal_newlines (s : str) : str :=
  match s with
  | [] => []
  | c :: r =>
    if c =? 0x0D then
      match r with
      | d :: r' => if d =? 0x0A then 0x0A :: universal_newlines r'
                   else 0x0A :: universal_newlines r
      | [] => [0x0A]
      end
    else c :: universal_newlines r
  end.

(** Lines of a text, each with its line feed (the last one may lack it). *)
Fixpoint keepends (s : str) : list str :=
  match s with
  | [] => []
  | c :: r =>
    if c =? 0x0A then [c] :: keepends r
    else match keepends r with
         | l :: ls => (c :: l) :: ls
         | [] => [[c]]
         end
  end.

(** [file.readlines()] *)
Definition readlines (text : str) : list str :=
  keepends (universal_newlines text).

(** What [load_vocabulary] prints. *)
Inductive message :=
| WarnEmptyTranslation (line_num : nat)
| WarnInvalidFormat (line_num : nat) (line : str)
| WarnNoSeparator (line_num : nat) (line : str)
| LoadedPairs (count : nat)
| ErrorNotFound (file : str)
| ErrorDecode (file : str)
| ErrorLoading.

(** Body of the [for] loop: the pairs so far and the output so far, after
    line [line_num]. *)
Definition load_line (acc : list pair * list message) (line_num : nat)
    (line : str) : list pair * list message :=
  let '(pairs, out) := acc in
  let line := strip line in
  if is_empty line || startswith (ord "#") line then (pairs, out)
  else if contains (ord "|") line then
    match split1 (ord "|") line with
    | [p0; p1] =>
      let french := strip p0 in
      let dutch := strip p1 in
      if negb (is_empty french) && negb (is_empty dutch)
      then (pairs ++ [(french, dutch)], out)
      else (pairs, out ++ [WarnEmptyTranslation line_num])
    | _ => (pairs, out ++ [WarnInvalidFormat line_num line])
    end
  else (pairs, out ++ [WarnNoSeparator line_num line]).

(** The loop over [enumerate(lines, line_num)]. *)
Fixpoint load_lines (acc : list pair * list message) (line_num : nat)
    (lines : list str) : list pair * list message :=
  match lines with
  | [] => acc
  | line :: rest => load_lines (load_line acc line_num line) (S line_num) rest
  end.

(** [load_vocabulary]: the returned flag, the parser afterwards and the
    output. *)
Definition load_vocabulary (r : read_result) (self : VocabularyParser)
    : bool * VocabularyParser * list message :=
  match r with
  | Contents text =>
    let lines := readlines text in
    let '(pairs, out) := load_lines ([], []) 1 lines in
    (0 <? List.length pairs, mkParser (filename self) pairs,
     out ++ [LoadedPairs (List.length pairs)])%nat
  | FileNotFoundError => (false, self, [ErrorNotFound (filename self)])
  | UnicodeDecodeError => (false, self, [ErrorDecode (filename self)])
  | OtherException => (false, self, [ErrorLoading])
  end.

(** [get_vocabulary_pairs] returns a copy of the list; lists are values
    here. *)
Definition get_vocabulary_pairs (self : VocabularyParser) : list pair :=
  vocabulary_pairs self.

Definition get_vocabulary_count (self : VocabularyParser) : nat :=
  List.length (vocabulary_pairs self).

Definition clean_text (text : str) : str := Re.collapse_ws (strip text).

Definition normalize_answer (answer : str) : str :=
  let answer := strip (lower answer) in
  let answer := Re.remove_punct answer in
  Re.collapse_ws answer.

(** The list [all_possible] that [check_answer] builds. *)
Definition all_possible (correct_answer : str) : list str :=
  let possible_answers :=
    map (fun ans => normalize_answer (strip ans))
        (split (ord ",") correct_answer) in
  flat_map (fun ans => map (fun a => normalize_answer (strip a))
                           (split (ord "/") ans))
           possible_answers.

Definition check_answer (user_answer correct_answer : str) : bool :=
  let user_normalized := normalize_answer user_answer in
  mem user_normalized (all_possible correct_answer).

End Parser.

(** ** quiz.py *)

Module Quiz.
Import PyStr.

Inductive direction := french_to_dutch | dutch_to_french.

(** The dictionaries are keyed by fixed strings; they are records here.
    Python integers are unbounded. *)
Record dir_stats := mkDir { d_correct : nat; d_total : nat }.

Record session_stats := mkStats {
  correct : nat;
  incorrect : nat;
  st_french_to_dutch : dir_stats;
  st_dutch_to_french : dir_stats
}.

(** [session_stats[direction]] and its update. *)
Definition by_direction (st : session_stats) (d : direction) : dir_stats :=
  match d with
  | french_to_dutch => st_french_to_dutch st
  | dutch_to_french => st_dutch_to_french st
  end.

Definition set_direction (st : session_stats) (d : direction) (v : dir_stats)
    : session_stats :=
  match d with
  | french_to_dutch => mkStats (correct st) (incorrect st) v (st_dutch_to_french st)
  | dutch_to_french => mkStats (correct st) (incorrect st) (st_french_to_dutch st) v
  end.

Record QuizGame := mkGame {
  parser : Parser.VocabularyParser;
  vocabulary_pairs : list Parser.pair;
  score : nat;
  total_questions : nat;
  stats : session_stats
}.

(** [__init__] *)
Definition init : QuizGame :=
  mkGame (Parser.init (u"vocabulary_data.txt")) [] 0 0
         (mkStats 0 0 (mkDir 0 0) (mkDir 0 0)).

(** What the session prints; a percentage is shown as the two integers it
    is computed from, and the closing encouragement is left out. *)
Inductive output :=
| Banner
| FromParser (m : Parser.message)
| LoadFailed
| NoPairsFound
| LoadedCount (n : nat)
| Welcome
| QuestionNumber (n : nat)
| Question (d : direction) (word : str)
| EmptyAnswer
| CorrectAnswer
| IncorrectAnswer (correct_answer : str)
| ScoreLine (score total : nat)
| StatsHeader
| NoQuestionsYet
| OverallScore (score total : nat)
| CorrectCount (n : nat)
| IncorrectCount (n : nat)
| DirectionScore (d : direction) (correct total : nat)
| Completed (total : nat)
| Interrupted
| FinalHeader
| NothingAnswered
| FinalResults (total score incorrect : nat).

(** Exceptions that can leave [ask_question]. *)
Inductive exn := KeyboardInterrupt | EOFError | IndexError.

Inductive result (A : Type) :=
| Ret (a : A)
| Raise (e : exn).
Arguments Ret {A} a.
Arguments Raise {A} e.

(** What a call of [input()] gives. *)
Inductive input_result :=
| Line (s : str)
| Interrupt
| EndOfFile.

(** Truth value of a list: [not pairs] holds for the empty list only. *)
Definition is_nil {A : Type} (l : list A) : bool :=
  match l with
  | [] => true
  | _ :: _ => false
  end.

(** [initialize] *)
Definition initialize (r : Parser.read_result) (self : QuizGame)
    : bool * QuizGame * list output :=
  let '(ok, p, msgs) := Parser.load_vocabulary r (parser self) in
  let self := mkGame p (vocabulary_pairs self) (score self)
                     (total_questions self) (stats self) in
  let out := Banner :: map FromParser msgs in
  if negb ok then (false, self, out ++ [LoadFailed])
  else
    let self := mkGame (parser self) (Parser.get_vocabulary_pairs (parser self))
                       (score self) (total_questions self) (stats self) in
    if is_nil (vocabulary_pairs self)
    then (false, self, out ++ [NoPairsFound])
    else (true, self, out ++ [LoadedCount (List.length (vocabulary_pairs self))]).

Definition display_welcome : list output := [Welcome].

(** [random.choice(seq)] with the generator's draw [k]: [None] stands for
    the IndexError on an empty sequence. *)
Definition random_choice {A : Type} (k : nat) (seq : list A) : option A :=
  nth_error seq (k mod List.length seq).

(** [generate_question]; [draw] is what the generator gives to the two
    calls of [random.choice]. *)
Definition generate_question (self : QuizGame) (draw : nat * bool)
    : option (output * str * direction) :=
  match random_choice (fst draw) (vocabulary_pairs self) with
  | None => None
  | Some (french, dutch) =>
    if snd draw
    then Some (Question french_to_dutch french, dutch, french_to_dutch)
    else Some (Question dutch_to_french dutch, french, dutch_to_french)
  end.

(** [display_stats] *)
Definition display_stats (self : QuizGame) : list output :=
  if total_questions self =? 0 then [StatsHeader; NoQuestionsYet]
  else
    let fr_to_nl := st_french_to_dutch (stats self) in
    let nl_to_fr := st_dutch_to_french (stats self) in
    [StatsHeader;
     OverallScore (score self) (total_questions self);
     CorrectCount (correct (stats self));
     IncorrectCount (incorrect (stats self))]
    ++ (if 0 <? d_total fr_to_nl
        then [DirectionScore french_to_dutch (d_correct fr_to_nl) (d_total fr_to_nl)]
        else [])
    ++ (if 0 <? d_total nl_to_fr
        then [DirectionScore dutch_to_french (d_correct nl_to_fr) (d_total nl_to_fr)]
        else []).

(** [display_final_results] *)
Definition display_final_results (self : QuizGame) : list output :=
  if total_questions self =? 0 then [FinalHeader; NothingAnswered]
  else [FinalHeader;
        FinalResults (total_questions self) (score self)
                     (incorrect (stats self))].

(** The assignments of [ask_question], one function each. *)
Definition incr_total_questions (self : QuizGame) : QuizGame :=
  mkGame (parser self) (vocabulary_pairs self) (score self)
         (total_questions self + 1) (stats self).

Definition incr_direction_total (d : direction) (self : QuizGame) : QuizGame :=
  let ds := by_direction (stats self) d in
  mkGame (parser self) (vocabulary_pairs self) (score self)
         (total_questions self)
         (set_direction (stats self) d (mkDir (d_correct ds) (d_total ds + 1))).

Definition incr_score (self : QuizGame) : QuizGame :=
  mkGame (parser self) (vocabulary_pairs self) (score self + 1)
         (total_questions self) (stats self).

Definition incr_correct (self : QuizGame) : QuizGame :=
  let st := stats self in
  mkGame (parser self) (vocabulary_pairs self) (score self)
         (total_questions self)
         (mkStats (correct st + 1) (incorrect st)
                  (st_french_to_dutch st) (st_dutch_to_french st)).

Definition incr_direction_correct (d : direction) (self : QuizGame) : QuizGame :=
  let ds := by_direction (stats self) d in
  mkGame (parser self) (vocabulary_pairs self) (score self)
         (total_questions self)
         (set_direction (stats self) d (mkDir (d_correct ds + 1) (d_total ds))).

Definition incr_incorrect (self : QuizGame) : QuizGame :=
  let st := stats self in
  mkGame (parser self) (vocabulary_pairs self) (score self)
         (total_questions self)
         (mkStats (correct st) (incorrect st + 1)
                  (st_french_to_dutch st) (st_dutch_to_french st)).

Definition quit_commands : list str := [u"quit"; u"exit"; u"q"].
Definition stats_commands : list str := [u"stats"; u"statistics"; u"s"].

(** [ask_question]: [draw] feeds [generate_question], [inp] is what
    [input()] gives. *)
Definition ask_question (self : QuizGame) (draw : nat * bool)
    (inp : input_result) : result bool * QuizGame * list output :=
  match generate_question self draw with
  | None => (Raise IndexError, self, [])
  | Some (question, correct_answer, direction) =>
    let out := [QuestionNumber (total_questions self + 1); question] in
    match inp with
    | Interrupt => (Raise KeyboardInterrupt, self, out)
    | EndOfFile => (Raise EOFError, self, out)
    | Line l =>
      let user_answer := strip l in
      if mem (lower user_answer) quit_commands then (Ret false, self, out)
      else if mem (lower user_answer) stats_commands
      then (Ret true, self, out ++ display_stats self)
      else if is_empty user_answer then (Ret true, self, out ++ [EmptyAnswer])
      else
        let self := incr_total_questions self in
        let self := incr_direction_total direction self in
        let is_correct := Parser.check_answer user_answer correct_answer in
        if is_correct then
          let self := incr_score self in
          let self := incr_correct self in
          let self := incr_direction_correct direction self in
          (Ret true, self,
           out ++ [CorrectAnswer; ScoreLine (score self) (total_questions self)])
        else
          let self := incr_incorrect self in
          (Ret true, self,
           out ++ [IncorrectAnswer correct_answer;
                   ScoreLine (score self) (total_questions self)])
    end
  end.

(** What the user does at a prompt: types a line or interrupts.  When the
    list of events is used up, standard input is at its end. *)
Inductive event :=
| Types (s : str)
| CtrlC.

Definition input_of (e : event) : input_result :=
  match e with
  | Types s => Line s
  | CtrlC => Interrupt
  end.

Definition stop_commands : list str := [u"n"; u"no"; u"quit"; u"exit"].

(** The [while True] loop of [run]; [rand] is the random generator and [n]
    the number of questions generated so far.  Each prompt takes the next
    event; at the end of the input [input()] raises EOFError. *)
Fixpoint loop (rand : nat -> nat * bool) (n : nat) (events : list event)
    (self : QuizGame) : result unit * QuizGame * list output :=
  match events with
  | [] =>
    let '(r, self, out) := ask_question self (rand n) EndOfFile in
    match r with
    | Raise e => (Raise e, self, out)
    | Ret _ => (Raise EOFError, self, out)
    end
  | e :: rest =>
    let '(r, self, out) := ask_question self (rand n) (input_of e) in
    match r with
    | Raise x => (Raise x, self, out)
    | Ret false => (Ret tt, self, out)
    | Ret true =>
      if (0 <? total_questions self) && (total_questions self mod 5 =? 0) then
        let out := out ++ [Completed (total_questions self)] in
        match rest with
        | [] => (Raise EOFError, self, out)
        | CtrlC :: _ => (Raise KeyboardInterrupt, self, out)
        | Types l :: rest' =>
          let continue_input := strip (lower l) in
          if mem continue_input stop_commands then (Ret tt, self, out)
          else
            let out := if mem continue_input stats_commands
                       then out ++ display_stats self else out in
            let '(r', self', out') := loop rand (S n) rest' self in
            (r', self', out ++ out')
        end
      else
        let '(r', self', out') := loop rand (S n) rest self in
        (r', self', out ++ out')
    end
  end.

(** [run]: the [try] catches KeyboardInterrupt only, and [finally] prints
    the final results whatever happened. *)
Definition run (r : Parser.read_result) (rand : nat -> nat * bool)
    (events : list event) (self : QuizGame)
    : result unit * QuizGame * list output :=
  let '(ok, self, out) := initialize r self in
  if negb ok then (Ret tt, self, out)
  else
    let out := out ++ display_welcome in
    let '(res, self, out') := loop rand 0 events self in
    match res with
    | Raise KeyboardInterrupt =>
      (Ret tt, self, out ++ out' ++ [Interrupted] ++ display_final_results self)
    | _ => (res, self, out ++ out' ++ display_final_results self)
    end.

(** [main] *)
Definition main (r : Parser.read_result) (rand : nat -> nat * bool)
    (events : list event) : result unit * QuizGame * list output :=
  run r rand events init.

(** Exit status of the interpreter: 0 when [main] returns, non-zero after
    an uncaught exception (1, and 130 for KeyboardInterrupt). *)
Definition exit_status (res : result unit) : N :=
  match res with
  | Ret _ => 0%N
  | Raise KeyboardInterrupt => 130%N
  | Raise _ => 1%N
  end.

End Quiz.

(** * Predicates used in the statements *)

Module Props.
Import PyStr.
Local Open Scope N_scope.

Definition blank (w : str) : Prop := Forall (fun c => isspace c = true) w.

(** A string without white space at either end. *)
Definition trimmed (m : str) : Prop := lstrip m = m /\ rstrip m = m.

Definition substr (x y : str) : Prop := exists a b, y = a ++ x ++ b.

(** [lower] leaves a stable character alone, whatever surrounds it. *)
Definition stable (c : char) : Prop := to_lower_full c = [c] /\ c <> 0x3A3.

Definition stableb (c : char) : bool :=
  match to_lower_full c with
  | [d] => (d =? c) && negb (c =? 0x3A3)
  | _ => false
  end.

Definition spaces : list char :=
  [0x09; 0x0A; 0x0B; 0x0C; 0x0D; 0x1C; 0x1D; 0x1E; 0x1F; 0x20; 0x85; 0xA0;
   0x1680; 0x2000; 0x2001; 0x2002; 0x2003; 0x2004; 0x2005; 0x2006; 0x2007;
   0x2008; 0x2009; 0x200A; 0x2028; 0x2029; 0x202F; 0x205F; 0x3000].

(** A separator: stable, and neither cased nor case-ignorable, so that the
    search around a capital sigma stops at it without finding a letter. *)
Definition separatorb (c : char) : bool :=
  stableb c && negb (is_cased c) && negb (is_case_ignorable c).

Definition separator (c : char) : Prop :=
  stable c /\ is_cased c = false /\ is_case_ignorable c = false.

(** The white space of a string that [Re.collapse_ws] leaves alone: single
    spaces only; [after_space] tells that the previous character is
    white space. *)
Fixpoint ws_ok (after_space : bool) (s : str) : bool :=
  match s with
  | [] => true
  | c :: r =>
    if isspace c then (c =? ord " ") && negb after_space && ws_ok true r
    else ws_ok false r
  end.

(** The comparison form of a piece of lower-case text: punctuation removed,
    white space collapsed, ends stripped. *)
Definition canon (x : str) : str := strip (Re.collapse_ws (Re.remove_punct x)).

Definition no_punct (z : str) : Prop := Forall (fun c => Re.is_punct c = false) z.

(** The shape of a normalized answer: lower case, no punctuation, single
    spaces. *)
Definition normal (z : str) : Prop :=
  Forall stable z /\ no_punct z /\ ws_ok false z = true.

End Props.

Import Props.

(** * The loader and the candidates in the words of the specification *)

Module Spec.
Import PyStr.
Local Open Scope N_scope.

(** Section 4.1 of the specification, line by line: a trimmed line that is
    empty or begins with [#] is a comment; any other line is split at its
    first pipe, both parts are trimmed, and it is a data line when both are
    non-empty; it is malformed otherwise, and when it has no pipe. *)
Inductive line_class :=
| Comment
| Malformed
| Data (french dutch : str).

(** The text before the first [sep], and the text after it. *)
Fixpoint before_first (sep : char) (s : str) : str :=
  match s with
  | [] => []
  | c :: r => if c =? sep then [] else c :: before_first sep r
  end.

Fixpoint after_first (sep : char) (s : str) : str :=
  match s with
  | [] => []
  | c :: r => if c =? sep then r else after_first sep r
  end.

Definition classify_line (line : str) : line_class :=
  let t := strip line in
  if is_empty t || startswith (ord "#") t then Comment
  else if negb (contains (ord "|") t) then Malformed
  else
    let french := strip (before_first (ord "|") t) in
    let dutch := strip (after_first (ord "|") t) in
    if is_empty french || is_empty dutch then Malformed
    else Data french dutch.

(** The pair of a data line. *)
Definition line_pairs (l : str) : list Parser.pair :=
  match classify_line l with
  | Data french dutch => [(french, dutch)]
  | _ => []
  end.

(** The pairs of the data lines, in the order of the lines. *)
Definition valid_pairs (lines : list str) : list Parser.pair :=
  flat_map line_pairs lines.

(** The numbers of the malformed lines, the first line having number [n]. *)
Fixpoint malformed_lines (n : nat) (lines : list str) : list nat :=
  match lines with
  | [] => []
  | l :: rest =>
    match classify_line l with
    | Malformed => n :: malformed_lines (S n) rest
    | _ => malformed_lines (S n) rest
    end
  end.

(** The line a message of the loader warns about. *)
Definition warned_line (m : Parser.message) : list nat :=
  match m with
  | Parser.WarnEmptyTranslation n => [n]
  | Parser.WarnInvalidFormat n _ => [n]
  | Parser.WarnNoSeparator n _ => [n]
  | _ => []
  end.

(** The candidates in the words of the specification (section 4.2): the
    canonical answer is split on the comma, each part on the slash, and each
    piece is normalized. *)
Definition candidates (correct_answer : str) : list str :=
  flat_map (fun part => map Parser.normalize_answer (split (ord "/") part))
           (split (ord ",") correct_answer).

(** The file of scenario 6. *)
Definition malformed_file : str :=
  u"bonjour | hallo" ++ [0x0A] ++ u"just one column" ++ [0x0A]
  ++ u"# comment" ++ [0x0A] ++ u"au revoir|tot ziens" ++ [0x0A].

End Spec.


(** * Predicates on the session *)

Module Session.
Import PyStr Quiz.

(** Counter conservation (P1) and the bound on the per-direction counts. *)
Definition conserved (g : QuizGame) : Prop :=
  correct (stats g) + incorrect (stats g) = total_questions g /\
  d_total (st_french_to_dutch (stats g)) + d_total (st_dutch_to_french (stats g))
    = total_questions g /\
  d_correct (st_french_to_dutch (stats g)) <= d_total (st_french_to_dutch (stats g)) /\
  d_correct (st_dutch_to_french (stats g)) <= d_total (st_dutch_to_french (stats g)).

(** The counters of a game, in a fixed order. *)
Definition counters (g : QuizGame) : list nat :=
  [total_questions g; score g; correct (stats g); incorrect (stats g);
   d_correct (st_french_to_dutch (stats g)); d_total (st_french_to_dutch (stats g));
   d_correct (st_dutch_to_french (stats g)); d_total (st_dutch_to_french (stats g))].

(** No counter of [g'] is below the one of [g]. *)
Definition not_decreased (g g' : QuizGame) : Prop :=
  Forall2 le (counters g) (counters g').

Definition other (d : direction) : direction :=
  match d with
  | french_to_dutch => dutch_to_french
  | dutch_to_french => french_to_dutch
  end.

(** An input that is graded: neither a command nor empty once trimmed. *)
Definition graded (l : str) : bool :=
  negb (mem (lower (strip l)) quit_commands)
  && negb (mem (lower (strip l)) stats_commands)
  && negb (is_empty (strip l)).

(** The assignments of a graded attempt, in the order of the code; [ok] is
    the verdict of the matcher. *)
Definition grade (d : direction) (ok : bool) (g : QuizGame) : QuizGame :=
  let g := incr_direction_total d (incr_total_questions g) in
  if ok then incr_direction_correct d (incr_correct (incr_score g))
  else incr_incorrect g.

(** The game after a step of [ask_question]. *)
Definition after_ask (g : QuizGame) (draw : nat * bool) (inp : input_result)
    : QuizGame :=
  snd (fst (ask_question g draw inp)).

(** The states a session goes through: the initial one, and those that
    [initialize] and [ask_question] lead to. *)
Inductive reachable : QuizGame -> Prop :=
| reach_init : reachable init
| reach_initialize g r :
    reachable g -> reachable (snd (fst (initialize r g)))
| reach_ask g draw inp :
    reachable g -> reachable (after_ask g draw inp).

(** What [main] returns or raises, and the exit status of the process. *)
Definition main_result (r : Parser.read_result) (rand : nat -> nat * bool)
    (events : list event) : result unit :=
  fst (fst (main r rand events)).

Definition main_exit (r : Parser.read_result) (rand : nat -> nat * bool)
    (events : list event) : N :=
  exit_status (main_result r rand events).

Definition initialized (r : Parser.read_result) : bool :=
  fst (fst (initialize r init)).

(** An event that ends the session at either prompt. *)
Definition stops (e : event) : bool :=
  match e with
  | CtrlC => true
  | Types l => eqb l (u"quit") || eqb l (u"exit")
  end.

(** How the loop ends: by a return, by the interrupt, or at the end of
    the input, and never at the end of the input when a stopping event is
    among the events. *)
Definition ends_well (events : list event) (res : result unit) : Prop :=
  (res = Ret tt \/ res = Raise KeyboardInterrupt \/ res = Raise EOFError) /\
  (existsb stops events = true -> res <> Raise EOFError).

(** A generator for the examples: pair [n] for question [n], the two
    directions in turn. *)
Definition turns (n : nat) : nat * bool := (n, Nat.even n).

End Session.

Import Session.

(** * Further definitions *)

Module Matching.
Import PyStr.
Local Open Scope N_scope.

(** The pieces of a canonical answer: split on the comma, then on the
    slash. *)
Definition pieces (x : str) : list str :=
  flat_map (split (ord "/")) (split (ord ",") x).

(** Number of occurrences of a character. *)
Definition count (c : char) (s : str) : nat := List.length (filter (N.eqb c) s).

(** [c] put in front of the first string of a list. *)
Definition cons_first (c : char) (ps : list str) : list str :=
  match ps with
  | p :: ps' => (c :: p) :: ps'
  | [] => [[c]]
  end.

Definition is_alt_sep (c : char) : bool := (c =? ord ",") || (c =? ord "/").

End Matching.

Import Matching.

Module Files.
Import PyStr Parser.
Local Open Scope N_scope.

Definition CR : char := 0x0D.
Definition LF : char := 0x0A.

(** A text with Unix line endings rewritten with CR LF. *)
Definition to_crlf (t : str) : str :=
  flat_map (fun c => if c =? LF then [CR; LF] else [c]) t.

(** A corpus written back as a file: one line [french | dutch] per pair. *)
Definition render_line (p : pair) : str :=
  fst p ++ u" | " ++ snd p ++ [LF].

Definition render (pairs : list pair) : str := flat_map render_line pairs.

(** A line that [load_line] skips without a message. *)
Definition is_comment (line : str) : bool :=
  is_empty (strip line) || startswith (ord "#") (strip line).

(** A warning, as opposed to the other messages of the loader. *)
Definition is_warning (m : message) : bool :=
  match m with
  | WarnEmptyTranslation _ | WarnInvalidFormat _ _ | WarnNoSeparator _ _ => true
  | _ => false
  end.

(** The shape of a side of a loaded pair. *)
Definition clean_side (x : str) : Prop :=
  x <> [] /\ strip x = x /\ ~ In LF x /\ ~ In CR x.

Definition clean_pair (p : pair) : Prop :=
  clean_side (fst p) /\ clean_side (snd p) /\
  ~ In (ord "|") (fst p) /\ startswith (ord "#") (fst p) = false.

End Files.

Import Files.

Module Transcript.
Import PyStr Quiz.

(** The two facts the displays rely on. *)
Definition consistent (g : QuizGame) : Prop :=
  conserved g /\ score g = correct (stats g).

(** A printed ratio has a positive denominator that bounds its numerator,
    and the final results add up. *)
Definition sound_output (o : output) : Prop :=
  match o with
  | ScoreLine s t => 1 <= t /\ s <= t
  | OverallScore s t => 1 <= t /\ s <= t
  | DirectionScore _ c t => 1 <= t /\ c <= t
  | FinalResults t s i => 1 <= t /\ s + i = t
  | _ => True
  end.

Definition is_final_header (o : output) : bool :=
  match o with FinalHeader => true | _ => false end.

Definition is_interrupted (o : output) : bool :=
  match o with Interrupted => true | _ => false end.

(** The output of [main]. *)
Definition main_output (r : Parser.read_result) (rand : nat -> nat * bool)
    (events : list event) : list output :=
  snd (main r rand events).

Definition main_game (r : Parser.read_result) (rand : nat -> nat * bool)
    (events : list event) : QuizGame :=
  snd (fst (main r rand events)).

End Transcript.

Import Transcript.

(** ** [test_parser] (parser.py) *)

Module SelfTest.
Import PyStr Parser.

Inductive test_output :=
| FromLoader (m : message)
| FirstPairsHeader
| PairLine (i : nat) (french dutch : str)
| TestingHeader
| CaseLine (passed : bool) (user_ans correct_ans : str) (result : bool).

Definition test_cases : list (str * str * bool) :=
  [(u"de puber", u"de puber (14-18 jaar)", true);
   (u"puber", u"de puber (14-18 jaar)", true);
   (u"De Puber", u"de puber (14-18 jaar)", true);
   (u"wrong answer", u"de puber (14-18 jaar)", false)].

(** [enumerate(l)], counting from [i]. *)
Fixpoint enumerate {A : Type} (i : nat) (l : list A) : list (nat * A) :=
  match l with
  | [] => []
  | x :: l' => (i, x) :: enumerate (S i) l'
  end.

Definition test_parser (r : read_result) : list test_output :=
  let '(ok, parser, msgs) := load_vocabulary r (init (u"vocabulary_data.txt")) in
  map FromLoader msgs ++
  if ok then
    let pairs := get_vocabulary_pairs parser in
    FirstPairsHeader
    :: map (fun '(i, (french, dutch)) => PairLine (i + 1) french dutch)
           (enumerate 0 (firstn 5 pairs))
    ++ TestingHeader
    :: map (fun '(user_ans, correct_ans, expected) =>
              let result := check_answer user_ans correct_ans in
              CaseLine (Bool.eqb result expected) user_ans correct_ans result)
           test_cases
  else [].

(** The verdicts of the test cases, and the numbered pairs shown. *)
Definition verdicts (out : list test_output) : list bool :=
  flat_map (fun o => match o with CaseLine st _ _ _ => [st] | _ => [] end) out.

Definition shown_pairs (out : list test_output) : list (nat * pair) :=
  flat_map (fun o => match o with PairLine i f d => [(i, (f, d))] | _ => [] end) out.

End SelfTest.
(** * Values computed by the interpreter

    The results of CPython 3.11 on a few strings, as a check of the
    tables and of the string functions. *)

Section Checks.
Import PyStr Parser.
Local Open Scope N_scope.

Example u_examples :
  u"a" = [0x61] /\ u"é" = [0xE9] /\ u"€" = [0x20AC] /\ u"😀" = [0x1F600].
Proof. vm_compute. repeat split; reflexivity. Qed.

Example lower_examples :
  lower (u"L'ÉCOLE, ŒUVRE: ÇA Ÿ") = u"l'école, œuvre: ça ÿ" /\
  lower (u"ΟΔΟΣ ΣΟΦΟΣ. Σ") = u"οδος σοφος. σ" /\
  lower (u"İSTANBUL ẞ") = [0x69; 0x307] ++ u"stanbul ß" /\
  lower [0x212A; 0x212B; 0x1C5; 0x2167; 0x24B6] = [0x6B; 0xE5; 0x1C6; 0x2177; 0x24D0].
Proof. vm_compute. repeat split; reflexivity. Qed.

Example normalize_answer_examples :
  normalize_answer (u"  Le  Chien" ++ [0x09] ++ u"(m.) ") = u"le chien m" /\
  normalize_answer (u"- a") = u" a" /\
  normalize_answer (u"l'" ++ [0xA0] ++ u"école" ++ [0x2003] ++ u"!") = u"l école ".
Proof. vm_compute. repeat split; reflexivity. Qed.

Example readlines_examples :
  readlines (u"a" ++ [0x0D; 0x0A] ++ u"b" ++ [0x0D] ++ u"c" ++ [0x0A] ++ u"d")
  = [u"a" ++ [0x0A]; u"b" ++ [0x0A]; u"c" ++ [0x0A]; u"d"] /\
  readlines [] = [].
Proof. vm_compute. split; reflexivity. Qed.

End Checks.

(** * Facts about Python strings *)

Section StrFacts.
Import PyStr.
Local Open Scope N_scope.

Lemma eqb_refl (s : str) : eqb s s = true.
Proof.
  induction s as [|c s IH]; simpl; [reflexivity|].
  now rewrite N.eqb_refl, IH.
Qed.

Lemma eqb_eq (s t : str) : eqb s t = true <-> s = t.
Proof.
  split; [|intros ->; apply eqb_refl].
  revert t; induction s as [|c s IH]; intros [|d t]; simpl; try easy.
  rewrite andb_true_iff, N.eqb_eq. intros [-> H]. f_equal. now apply IH.
Qed.

Lemma eqb_neq (s t : str) : eqb s t = false <-> s <> t.
Proof.
  rewrite <- eqb_eq. destruct (eqb s t); split; congruence.
Qed.

Lemma mem_In (x : str) (xs : list str) : mem x xs = true <-> In x xs.
Proof.
  unfold mem. rewrite existsb_exists. split.
  - intros (y & Hy & E). apply eqb_eq in E. now subst.
  - intros H. exists x. split; [assumption | apply eqb_refl].
Qed.

Lemma contains_In (c : char) (s : str) : contains c s = true <-> In c s.
Proof.
  unfold contains. rewrite existsb_exists. split.
  - intros (d & Hd & E). apply N.eqb_eq in E. now subst.
  - intros H. exists c. split; [assumption | apply N.eqb_refl].
Qed.

(** ** Splitting *)

Lemma split_not_nil (sep : char) (s : str) : split sep s <> [].
Proof.
  induction s as [|c s IH]; simpl; [discriminate|].
  destruct (c =? sep); [discriminate|].
  destruct (split sep s); [contradiction | discriminate].
Qed.

Lemma split_absent (sep : char) (s : str) : ~ In sep s -> split sep s = [s].
Proof.
  induction s as [|c s IH]; simpl; intros H; [reflexivity|].
  destruct (N.eqb_spec c sep) as [->|_]; [tauto|].
  rewrite IH by tauto. reflexivity.
Qed.

Lemma split_cons_other (sep c : char) (z : str) :
  c <> sep ->
  split sep (c :: z) =
  match split sep z with p :: ps => (c :: p) :: ps | [] => [[c]] end.
Proof. intros H. simpl. now destruct (N.eqb_spec c sep). Qed.

Lemma split_cons_sep (sep : char) (z : str) : split sep (sep :: z) = [] :: split sep z.
Proof. simpl. now rewrite N.eqb_refl. Qed.

(** The first piece, and what follows it. *)
Lemma split_first (sep : char) (z p : str) (ps : list str) :
  split sep z = p :: ps ->
  (z = p /\ ps = []) \/ exists rest, z = p ++ sep :: rest.
Proof.
  revert p ps. induction z as [|c z IH]; intros p ps.
  - simpl. intros E. injection E as <- <-. now left.
  - destruct (N.eqb_spec c sep) as [->|Hc].
    + rewrite split_cons_sep. intros E. injection E as <- _. right. now exists z.
    + rewrite split_cons_other by assumption.
      destruct (split sep z) as [|q qs] eqn:E'; [now destruct (split_not_nil sep z)|].
      intros E. injection E as <- <-.
      destruct (IH q qs eq_refl) as [[-> ->]|(rest & ->)]; [now left|].
      right. now exists rest.
Qed.

(** ** Stripping *)

Lemma lstrip_blank_app (w s : str) : blank w -> lstrip (w ++ s) = lstrip s.
Proof.
  induction 1 as [|c w Hc _ IH]; simpl; [reflexivity|]. now rewrite Hc.
Qed.

Lemma lstrip_decomp (s : str) : exists w, s = w ++ lstrip s /\ blank w.
Proof.
  induction s as [|c s (w & E & Hw)]; simpl.
  - exists []. split; [reflexivity | constructor].
  - destruct (isspace c) eqn:Hc.
    + exists (c :: w). split; [simpl; congruence | now constructor].
    + exists []. split; [reflexivity | constructor].
Qed.

Lemma lstrip_idem (s : str) : lstrip (lstrip s) = lstrip s.
Proof.
  induction s as [|c s IH]; simpl; [reflexivity|].
  destruct (isspace c) eqn:Hc; [assumption|]. simpl. now rewrite Hc.
Qed.

Lemma lstrip_snoc (s : str) (c : char) :
  isspace c = false -> lstrip (s ++ [c]) = lstrip s ++ [c].
Proof.
  intros Hc. induction s as [|d s IH]; simpl.
  - now rewrite Hc.
  - destruct (isspace d); [assumption | reflexivity].
Qed.

Lemma rstrip_app_blank (s w : str) : blank w -> rstrip (s ++ w) = rstrip s.
Proof.
  intros Hw. unfold rstrip. rewrite rev_app_distr, lstrip_blank_app.
  - reflexivity.
  - now apply Forall_rev.
Qed.

Lemma rstrip_decomp (s : str) : exists w, s = rstrip s ++ w /\ blank w.
Proof.
  unfold rstrip. destruct (lstrip_decomp (rev s)) as (w & E & Hw).
  exists (rev w). split; [|now apply Forall_rev].
  rewrite <- rev_app_distr, <- E. now rewrite rev_involutive.
Qed.

Lemma rstrip_idem (s : str) : rstrip (rstrip s) = rstrip s.
Proof. unfold rstrip. now rewrite rev_involutive, lstrip_idem. Qed.

Lemma rstrip_cons (c : char) (s : str) :
  isspace c = false -> rstrip (c :: s) = c :: rstrip s.
Proof.
  intros Hc. unfold rstrip. simpl rev. rewrite lstrip_snoc by assumption.
  now rewrite rev_app_distr.
Qed.

Lemma lstrip_rstrip_lstrip (s : str) :
  lstrip (rstrip (lstrip s)) = rstrip (lstrip s).
Proof.
  induction s as [|c s IH]; [reflexivity|]. simpl lstrip.
  destruct (isspace c) eqn:Hc; [assumption|].
  rewrite rstrip_cons by assumption. simpl. now rewrite Hc.
Qed.

Lemma strip_trimmed (s : str) : trimmed (strip s).
Proof.
  split; unfold strip; [apply lstrip_rstrip_lstrip | apply rstrip_idem].
Qed.

Lemma trimmed_strip (m : str) : trimmed m -> strip m = m.
Proof. intros [H1 H2]. unfold strip. now rewrite H1. Qed.

Lemma strip_idem (s : str) : strip (strip s) = strip s.
Proof. apply trimmed_strip, strip_trimmed. Qed.

Lemma strip_decomp (s : str) :
  exists w1 w2, s = w1 ++ strip s ++ w2 /\ blank w1 /\ blank w2.
Proof.
  destruct (lstrip_decomp s) as (w1 & E1 & H1).
  destruct (rstrip_decomp (lstrip s)) as (w2 & E2 & H2).
  exists w1, w2. unfold strip. now rewrite <- E2.
Qed.

Lemma lstrip_blank (w : str) : blank w -> lstrip w = [].
Proof. induction 1 as [|c w Hc _ IH]; simpl; [reflexivity | now rewrite Hc]. Qed.

Lemma lstrip_app (s t : str) :
  lstrip (s ++ t) = match lstrip s with [] => lstrip t | _ => lstrip s ++ t end.
Proof.
  induction s as [|c s IH]; simpl; [reflexivity|].
  destruct (isspace c); [assumption | reflexivity].
Qed.

Lemma strip_blank_app (w1 w2 s : str) :
  blank w1 -> blank w2 -> strip (w1 ++ s ++ w2) = strip s.
Proof.
  intros H1 H2. unfold strip.
  rewrite lstrip_blank_app by assumption. rewrite lstrip_app.
  destruct (lstrip s) as [|c l].
  - now rewrite lstrip_blank.
  - now apply rstrip_app_blank.
Qed.

(** ** Substrings *)

Lemma substr_refl (x : str) : substr x x.
Proof. exists [], []. now rewrite app_nil_r. Qed.

Lemma substr_strip (s : str) : substr (strip s) s.
Proof. destruct (strip_decomp s) as (w1 & w2 & E & _). now exists w1, w2. Qed.

Lemma substr_cons (c : char) (x y : str) : substr x y -> substr x (c :: y).
Proof. intros (a & b & ->). now exists (c :: a), b. Qed.

Lemma substr_split (sep : char) (s p : str) : In p (split sep s) -> substr p s.
Proof.
  revert p. induction s as [|c s IH]; intros p.
  - intros [<-|[]]. apply substr_refl.
  - destruct (N.eqb_spec c sep) as [->|Hc].
    + rewrite split_cons_sep. intros [<-|H]; [now exists [], (sep :: s)|].
      now apply substr_cons, IH.
    + rewrite split_cons_other by assumption.
      destruct (split sep s) as [|q qs] eqn:E; [now destruct (split_not_nil sep s)|].
      intros [<-|H]; [|apply substr_cons, IH; now right].
      destruct (split_first sep s q qs E) as [[-> _]|(rest & ->)].
      * apply substr_refl.
      * now exists [], (sep :: rest).
Qed.

Lemma substr_Forall (P : char -> Prop) (x y : str) :
  substr x y -> Forall P y -> Forall P x.
Proof.
  intros (a & b & ->) H. apply Forall_app in H as [_ H].
  now apply Forall_app in H as [H _].
Qed.

End StrFacts.

(** * Facts about lower-casing *)

Section LowerFacts.
Import PyStr.
Local Open Scope N_scope.

Lemma stableb_stable (c : char) : stableb c = true -> stable c.
Proof.
  unfold stableb, stable. destruct (to_lower_full c) as [|d [|? ?]]; try discriminate.
  rewrite andb_true_iff, negb_true_iff, N.eqb_eq, N.eqb_neq. now intros [-> H].
Qed.

(** Every image in the lower-case table is itself stable. *)
Lemma lower_pairs_images_stable :
  forallb (fun p => stableb (snd p)) lower_pairs = true.
Proof. vm_compute. reflexivity. Qed.

Lemma sigma_in_table : lookup_lower 0x3A3 = Some (0x3A3, 0x3C3).
Proof. vm_compute. reflexivity. Qed.

Lemma to_lower_full_image (c c' : char) :
  In c' (to_lower_full c) -> c' = c \/ c' = 0x69 \/ c' = 0x307
                             \/ In c' (map snd lower_pairs).
Proof.
  unfold to_lower_full. destruct (c =? 0x130).
  - simpl. intros [<-|[<-|[]]]; auto.
  - destruct (lookup_lower c) as [p|] eqn:F.
    + intros [<-|[]]. apply find_some in F as [F _].
      right; right; right. now apply in_map.
    + intros [<-|[]]. now left.
Qed.

Lemma to_lower_full_stable (c c' : char) : In c' (to_lower_full c) -> stable c'.
Proof.
  intros H. pose proof H as H'. apply to_lower_full_image in H'.
  destruct H' as [->|[->|[->|H']]].
  - (* not in the table: mapped to itself *)
    revert H. unfold stable, to_lower_full.
    destruct (N.eqb_spec c 0x130) as [->|_]; [simpl; intros [E|[E|[]]]; discriminate E|].
    destruct (lookup_lower c) as [p|] eqn:F.
    + intros [E|[]]. apply find_some in F as [F1 _].
      pose proof lower_pairs_images_stable as T. rewrite forallb_forall in T.
      apply T, stableb_stable in F1. destruct F1 as [_ F3].
      rewrite E in *. split; [reflexivity | assumption].
    + intros _. split; [reflexivity|]. intros ->.
      rewrite sigma_in_table in F. discriminate.
  - apply stableb_stable. vm_compute. reflexivity.
  - apply stableb_stable. vm_compute. reflexivity.
  - apply in_map_iff in H' as (p & <- & Hp).
    pose proof lower_pairs_images_stable as T. rewrite forallb_forall in T.
    now apply stableb_stable, T.
Qed.

Lemma lower_char_stable (before after : str) (c c' : char) :
  In c' (lower_char before c after) -> stable c'.
Proof.
  unfold lower_char. destruct (c =? 0x3A3).
  - intros [<-|[]]. apply stableb_stable.
    destruct (final_sigma before after); vm_compute; reflexivity.
  - apply to_lower_full_stable.
Qed.

Lemma lower_char_fixed (before after : str) (c : char) :
  stable c -> lower_char before c after = [c].
Proof.
  intros [H1 H2]. unfold lower_char.
  now destruct (N.eqb_spec c 0x3A3).
Qed.

Lemma lower_from_stable (before s : str) :
  Forall stable (lower_from before s).
Proof.
  revert before. induction s as [|c s IH]; intros before; simpl; [constructor|].
  apply Forall_app. split; [|apply IH].
  apply Forall_forall. intros c'. apply lower_char_stable.
Qed.

Lemma lower_from_fixed (before s : str) :
  Forall stable s -> lower_from before s = s.
Proof.
  intros H. revert before. induction H as [|c s Hc _ IH]; intros before; simpl.
  - reflexivity.
  - now rewrite lower_char_fixed, IH.
Qed.

Lemma lower_stable (s : str) : Forall stable (lower s).
Proof. apply lower_from_stable. Qed.

Lemma lower_fixed (s : str) : Forall stable s -> lower s = s.
Proof. apply lower_from_fixed. Qed.

(** ** White space and lower-casing *)

Lemma isspace_spaces (c : char) : isspace c = true -> In c spaces.
Proof.
  unfold isspace. rewrite !orb_true_iff, !andb_true_iff, !N.leb_le, !N.eqb_eq.
  intros H. unfold spaces. simpl In. lia.
Qed.

Lemma separatorb_separator (c : char) : separatorb c = true -> separator c.
Proof.
  unfold separatorb, separator.
  rewrite !andb_true_iff, !negb_true_iff. intros [[H1 H2] H3].
  auto using stableb_stable.
Qed.

Lemma spaces_separators : forallb separatorb spaces = true.
Proof. vm_compute. reflexivity. Qed.

Lemma isspace_separator (c : char) : isspace c = true -> separator c.
Proof.
  intros H. apply separatorb_separator.
  pose proof spaces_separators as T. rewrite forallb_forall in T.
  now apply T, isspace_spaces.
Qed.

End LowerFacts.

(** * Capital sigma and separators

    A separator next to a run of text cuts the context that decides between
    the two lower-case sigmas: lower-casing works on each side alone. *)

Section LowerContext.
Import PyStr.
Local Open Scope N_scope.

Lemma first_not_ignorable_app (x y : str) :
  first_not_ignorable (x ++ y) =
  match first_not_ignorable x with
  | Some c => Some c
  | None => first_not_ignorable y
  end.
Proof.
  induction x as [|c x IH]; simpl; [now destruct (first_not_ignorable y)|].
  now destruct (is_case_ignorable c).
Qed.

Lemma final_sigma_cut_before (b1 b2 after : str) (sep : char) :
  separator sep -> final_sigma (b1 ++ sep :: b2) after = final_sigma b1 after.
Proof.
  intros (_ & Hc & Hi). unfold final_sigma. rewrite first_not_ignorable_app.
  destruct (first_not_ignorable b1); [reflexivity|].
  simpl. now rewrite Hi, Hc.
Qed.

Lemma final_sigma_cut_after (before a1 a2 : str) (sep : char) :
  separator sep -> final_sigma before (a1 ++ sep :: a2) = final_sigma before a1.
Proof.
  intros (_ & Hc & Hi). unfold final_sigma. rewrite first_not_ignorable_app.
  destruct (first_not_ignorable before); [|reflexivity].
  destruct (first_not_ignorable a1); [reflexivity|].
  simpl. now rewrite Hi, Hc.
Qed.

Lemma lower_from_cut_before (b1 b2 s : str) (sep : char) :
  separator sep -> lower_from (b1 ++ sep :: b2) s = lower_from b1 s.
Proof.
  intros Hsep. revert b1. induction s as [|c s IH]; intros b1; simpl; [reflexivity|].
  rewrite app_comm_cons, IH. f_equal.
  unfold lower_char. now rewrite final_sigma_cut_before.
Qed.

Lemma lower_from_after_separator (before s : str) (sep : char) :
  separator sep -> lower_from (sep :: before) s = lower_from [] s.
Proof. intros H. exact (lower_from_cut_before [] before s sep H). Qed.

Lemma lower_from_cut (before x y : str) (sep : char) :
  separator sep ->
  lower_from before (x ++ sep :: y) = lower_from before x ++ sep :: lower_from [] y.
Proof.
  intros Hsep. revert before. induction x as [|c x IH]; intros before; simpl.
  - rewrite lower_char_fixed by apply Hsep.
    simpl. f_equal. now apply lower_from_after_separator.
  - rewrite IH, <- app_assoc. f_equal.
    unfold lower_char. now rewrite final_sigma_cut_after.
Qed.

Lemma lower_cut (x y : str) (sep : char) :
  separator sep -> lower (x ++ sep :: y) = lower x ++ sep :: lower y.
Proof. apply lower_from_cut. Qed.

Lemma blank_separators (w : str) : blank w -> Forall separator w.
Proof. apply Forall_impl. intros c. apply isspace_separator. Qed.

Lemma lower_separators (w : str) : Forall separator w -> lower w = w.
Proof.
  intros H. apply lower_fixed. revert H. apply Forall_impl. now intros c [H _].
Qed.

Lemma lower_separators_app (w s : str) :
  Forall separator w -> lower (w ++ s) = w ++ lower s.
Proof.
  induction 1 as [|c w Hc _ IH]; [reflexivity|].
  change ((c :: w) ++ s) with ([] ++ c :: (w ++ s)).
  rewrite lower_cut by assumption. simpl. now rewrite IH.
Qed.

Lemma lower_app_separators (s w : str) :
  Forall separator w -> lower (s ++ w) = lower s ++ w.
Proof.
  intros H. destruct H as [|c w Hc Hw]; [now rewrite !app_nil_r|].
  rewrite lower_cut by assumption.
  now rewrite (lower_separators w).
Qed.

Lemma lower_padded (w1 m w2 : str) :
  blank w1 -> blank w2 -> lower (w1 ++ m ++ w2) = w1 ++ lower m ++ w2.
Proof.
  intros H1 H2.
  rewrite lower_separators_app by now apply blank_separators.
  now rewrite lower_app_separators by now apply blank_separators.
Qed.

(** Lower-casing sees the same text whether it is stripped before or
    after. *)
Lemma strip_lower_strip (s : str) : strip (lower (strip s)) = strip (lower s).
Proof.
  destruct (strip_decomp s) as (w1 & w2 & E & H1 & H2).
  rewrite E at 2. rewrite lower_padded by assumption.
  now rewrite strip_blank_app.
Qed.

End LowerContext.

(** * Facts about normalization *)

Section NormalizeFacts.
Import PyStr Re Parser.
Local Open Scope N_scope.

Lemma ws_ok_weaken (s : str) : ws_ok true s = true -> ws_ok false s = true.
Proof.
  destruct s as [|c s]; simpl; [reflexivity|].
  destruct (isspace c); [|easy]. now rewrite andb_false_r.
Qed.

Lemma ws_ok_any (b : bool) (s : str) : ws_ok b s = true -> ws_ok false s = true.
Proof. destruct b; [apply ws_ok_weaken | easy]. Qed.

Lemma ws_ok_app_l (b : bool) (x y : str) :
  ws_ok b (x ++ y) = true -> ws_ok b x = true.
Proof.
  revert b. induction x as [|c x IH]; intros b; simpl; [reflexivity|].
  destruct (isspace c).
  - rewrite !andb_true_iff. intros [H1 H2]. split; [assumption | now apply IH].
  - apply IH.
Qed.

Lemma ws_ok_app_r (b : bool) (x y : str) :
  ws_ok b (x ++ y) = true -> ws_ok false y = true.
Proof.
  revert b. induction x as [|c x IH]; intros b; simpl; [apply ws_ok_any|].
  destruct (isspace c).
  - rewrite !andb_true_iff. intros [_ H]. now apply IH in H.
  - apply IH.
Qed.

Lemma ws_ok_substr (x y : str) :
  substr x y -> ws_ok false y = true -> ws_ok false x = true.
Proof.
  intros (a & b & ->) H. apply ws_ok_app_r in H. now apply ws_ok_app_l in H.
Qed.

Lemma collapse_from_ws_ok (b : bool) (z : str) : ws_ok b (collapse_from b z) = true.
Proof.
  revert b. induction z as [|c z IH]; intros b; simpl; [reflexivity|].
  destruct (isspace c) eqn:Hc.
  - destruct b; [apply IH|]. simpl. apply IH.
  - simpl. rewrite Hc. apply IH.
Qed.

Lemma collapse_from_fixed (b : bool) (s : str) :
  ws_ok b s = true -> collapse_from b s = s.
Proof.
  revert b. induction s as [|c s IH]; intros b; simpl; [reflexivity|].
  destruct (isspace c).
  - rewrite !andb_true_iff, negb_true_iff, N.eqb_eq. intros [[-> ->] H].
    now rewrite IH.
  - intros H. now rewrite IH.
Qed.

Lemma collapse_from_Forall (P : char -> Prop) (b : bool) (z : str) :
  P (ord " ") -> Forall P z -> Forall P (collapse_from b z).
Proof.
  intros Hsp H. revert b. induction H as [|c z Hc _ IH]; intros b; simpl.
  - constructor.
  - destruct (isspace c); [destruct b|]; auto.
Qed.

Lemma remove_punct_Forall (P : char -> Prop) (z : str) :
  Forall P z -> Forall P (remove_punct z).
Proof.
  intros H. apply Forall_forall. intros c Hc.
  apply filter_In in Hc as [Hc _]. revert c Hc. now apply Forall_forall.
Qed.

Lemma remove_punct_no_punct (z : str) : no_punct (remove_punct z).
Proof.
  apply Forall_forall. intros c Hc.
  apply filter_In in Hc as [_ Hc]. now apply negb_true_iff.
Qed.

Lemma remove_punct_fixed (z : str) : no_punct z -> remove_punct z = z.
Proof.
  induction 1 as [|c z Hc _ IH]; simpl; [reflexivity|].
  now rewrite Hc, IH.
Qed.

Lemma space_stable : stable (ord " ").
Proof. apply stableb_stable. vm_compute. reflexivity. Qed.

Lemma normal_substr (x y : str) : substr x y -> normal y -> normal x.
Proof.
  intros Hs (H1 & H2 & H3). repeat split.
  - now apply (substr_Forall _ x y).
  - now apply (substr_Forall _ x y).
  - now apply (ws_ok_substr x y).
Qed.

(** Every normalized answer has the normal shape. *)
Lemma normalize_answer_normal (y : str) : normal (normalize_answer y).
Proof.
  unfold normalize_answer, collapse_ws. repeat split.
  - apply collapse_from_Forall; [apply space_stable|].
    apply remove_punct_Forall.
    apply (substr_Forall _ _ (lower y)); [apply substr_strip | apply lower_stable].
  - apply collapse_from_Forall; [reflexivity | apply remove_punct_no_punct].
  - apply collapse_from_ws_ok.
Qed.

(** On a string of normal shape, normalization only strips. *)
Lemma normalize_answer_of_normal (z : str) :
  normal z -> normalize_answer z = strip z.
Proof.
  intros Hz. destruct Hz as (H1 & H2 & H3).
  unfold normalize_answer, collapse_ws.
  rewrite lower_fixed by assumption.
  rewrite remove_punct_fixed by exact (substr_Forall _ _ z (substr_strip z) H2).
  apply collapse_from_fixed. exact (ws_ok_substr _ z (substr_strip z) H3).
Qed.

Lemma normalize_answer_fixed (z : str) :
  normal z -> trimmed z -> normalize_answer z = z.
Proof.
  intros Hz Ht. rewrite normalize_answer_of_normal by assumption.
  now apply trimmed_strip.
Qed.

Lemma normalize_answer_strip (s : str) :
  normalize_answer (strip s) = normalize_answer s.
Proof. unfold normalize_answer. now rewrite strip_lower_strip. Qed.

(** Each element of [all_possible] is the stripped form of a piece of a
    normalized answer. *)
Lemma all_possible_shape (a c : str) :
  In c (all_possible a) -> normal c /\ trimmed c.
Proof.
  unfold all_possible. rewrite in_flat_map. intros (q & Hq & Hc).
  apply in_map_iff in Hq as (part & <- & _).
  apply in_map_iff in Hc as (p & <- & Hp).
  apply substr_split in Hp.
  assert (Hn : normal (strip p)).
  { apply (normal_substr _ p); [apply substr_strip|].
    apply (normal_substr _ _ Hp), normalize_answer_normal. }
  rewrite normalize_answer_of_normal, strip_idem by assumption.
  split; [assumption | apply strip_trimmed].
Qed.

Lemma all_possible_fixed (a c : str) :
  In c (all_possible a) -> normalize_answer c = c.
Proof.
  intros H. apply all_possible_shape in H as [H1 H2].
  now apply normalize_answer_fixed.
Qed.

End NormalizeFacts.

(** * A canonical answer without alternatives *)

Section SingleCandidate.
Import PyStr Re Parser.
Local Open Scope N_scope.

Lemma slash_not_lowered :
  forallb (fun p => negb (snd p =? ord "/")) lower_pairs = true.
Proof. vm_compute. reflexivity. Qed.

Lemma lower_char_slash (before after : str) (c : char) :
  In (ord "/") (lower_char before c after) -> c = ord "/".
Proof.
  unfold lower_char. destruct (c =? 0x3A3).
  - destruct (final_sigma before after); intros [E|[]]; discriminate E.
  - intros H. apply to_lower_full_image in H as [H|[H|[H|H]]];
      [now symmetry | discriminate H | discriminate H |].
    apply in_map_iff in H as (p & E & Hp).
    pose proof slash_not_lowered as T. rewrite forallb_forall in T.
    apply T in Hp. apply negb_true_iff, N.eqb_neq in Hp. contradiction.
Qed.

Lemma lower_from_slash (before s : str) :
  In (ord "/") (lower_from before s) -> In (ord "/") s.
Proof.
  revert before. induction s as [|c s IH]; intros before; simpl; [easy|].
  rewrite in_app_iff. intros [H|H].
  - left. now apply lower_char_slash in H.
  - right. now apply IH in H.
Qed.

Lemma substr_In (c : char) (x y : str) : substr x y -> In c x -> In c y.
Proof. intros (a & b & ->) H. rewrite !in_app_iff. auto. Qed.

Lemma collapse_from_In (c : char) (b : bool) (z : str) :
  In c (collapse_from b z) -> c = ord " " \/ In c z.
Proof.
  revert b. induction z as [|d z IH]; intros b; simpl; [easy|].
  destruct (isspace d); [destruct b|]; simpl; intros H.
  - apply IH in H. tauto.
  - destruct H as [<-|H]; [now left | apply IH in H; tauto].
  - destruct H as [<-|H]; [auto | apply IH in H; tauto].
Qed.

Lemma normalize_answer_slash (s : str) :
  In (ord "/") (normalize_answer s) -> In (ord "/") s.
Proof.
  unfold normalize_answer, collapse_ws. intros H.
  apply collapse_from_In in H as [H|H]; [discriminate H|].
  apply filter_In in H as [H _].
  apply (substr_In _ _ _ (substr_strip _)) in H.
  now apply lower_from_slash in H.
Qed.

(** Without a comma and a slash there is one candidate: the normalized
    answer, stripped. *)
Lemma all_possible_single (s : str) :
  contains (ord ",") s = false -> contains (ord "/") s = false ->
  all_possible s = [strip (normalize_answer s)].
Proof.
  intros Hc Hs.
  assert (Hc' : ~ In (ord ",") s) by (rewrite <- contains_In; congruence).
  assert (Hs' : ~ In (ord "/") s) by (rewrite <- contains_In; congruence).
  unfold all_possible. rewrite split_absent by assumption. simpl.
  rewrite app_nil_r, normalize_answer_strip.
  rewrite split_absent by (intros H; now apply normalize_answer_slash in H).
  simpl. f_equal.
  rewrite normalize_answer_of_normal, strip_idem; [reflexivity|].
  apply (normal_substr _ _ (substr_strip _)), normalize_answer_normal.
Qed.

(** Such an answer matches itself exactly when its normalized form has no
    white space at its ends. *)
Lemma check_answer_self_iff (s : str) :
  contains (ord ",") s = false -> contains (ord "/") s = false ->
  check_answer s s = true <-> strip (normalize_answer s) = normalize_answer s.
Proof.
  intros Hc Hs. unfold check_answer.
  rewrite all_possible_single by assumption. simpl. rewrite orb_false_r, eqb_eq.
  split; congruence.
Qed.

End SingleCandidate.

(** * The loader, line by line *)

Section LoaderFacts.
Import PyStr Parser Spec.
Local Open Scope N_scope.

Lemma split1_first (sep : char) (t : str) :
  contains sep t = true ->
  split1 sep t = [before_first sep t; after_first sep t].
Proof.
  induction t as [|c t IH]; simpl; [discriminate|].
  rewrite (N.eqb_sym sep c). destruct (c =? sep); simpl; [reflexivity|].
  intros H. now rewrite (IH H).
Qed.

(** The first part holds no separator: the split is at the first one. *)
Lemma before_first_clean (sep : char) (t : str) : ~ In sep (before_first sep t).
Proof.
  induction t as [|c t IH]; simpl; [easy|].
  destruct (N.eqb_spec c sep); simpl; [easy|]. intros [E|H]; auto.
Qed.

Lemma before_after_first (sep : char) (t : str) :
  contains sep t = true -> t = before_first sep t ++ sep :: after_first sep t.
Proof.
  induction t as [|c t IH]; simpl; [discriminate|].
  rewrite (N.eqb_sym sep c). destruct (N.eqb_spec c sep) as [->|_]; simpl.
  - reflexivity.
  - intros H. now rewrite <- (IH H).
Qed.

(** What one line adds to the pairs and to the output. *)
Lemma load_line_spec (pairs : list pair) (out : list message) (n : nat) (l : str) :
  exists msgs,
    load_line (pairs, out) n l = (pairs ++ line_pairs l, out ++ msgs) /\
    flat_map warned_line msgs =
      match classify_line l with Malformed => [n] | _ => [] end.
Proof.
  unfold load_line, line_pairs, classify_line.
  destruct (is_empty (strip l) || startswith (ord "#") (strip l)).
  - exists []. now rewrite !app_nil_r.
  - destruct (contains (ord "|") (strip l)) eqn:Hc; simpl negb; cbv iota.
    + rewrite split1_first by assumption.
      destruct (is_empty (strip (before_first (ord "|") (strip l))));
        destruct (is_empty (strip (after_first (ord "|") (strip l)))); simpl;
        first [ exists []; rewrite !app_nil_r; split; reflexivity
              | rewrite (app_nil_r pairs); eexists; split; reflexivity ].
    + rewrite (app_nil_r pairs). eexists. split; reflexivity.
Qed.

Lemma load_lines_spec (lines : list str) :
  forall pairs out n, exists msgs,
    load_lines (pairs, out) n lines = (pairs ++ valid_pairs lines, out ++ msgs) /\
    flat_map warned_line msgs = malformed_lines n lines.
Proof.
  induction lines as [|l lines IH]; intros pairs out n;
    unfold valid_pairs; cbn [load_lines flat_map malformed_lines].
  - exists []. now rewrite !app_nil_r.
  - destruct (load_line_spec pairs out n l) as (m1 & E1 & W1).
    rewrite E1.
    destruct (IH (pairs ++ line_pairs l) (out ++ m1) (S n)) as (m2 & E2 & W2).
    exists (m1 ++ m2). rewrite E2, <- !app_assoc. split; [reflexivity|].
    rewrite flat_map_app, W1, W2. now destruct (classify_line l).
Qed.

Lemma before_first_app (sep : char) (f d : str) :
  ~ In sep f -> before_first sep (f ++ sep :: d) = f.
Proof.
  induction f as [|c f IH]; simpl; intros H.
  - now rewrite N.eqb_refl.
  - destruct (N.eqb_spec c sep) as [->|_]; [tauto|]. rewrite IH; tauto.
Qed.

Lemma after_first_app (sep : char) (f d : str) :
  ~ In sep f -> after_first sep (f ++ sep :: d) = d.
Proof.
  induction f as [|c f IH]; simpl; intros H.
  - now rewrite N.eqb_refl.
  - destruct (N.eqb_spec c sep) as [->|_]; [tauto|]. rewrite IH; tauto.
Qed.

Lemma load_line_comment (acc : list pair * list message) (n : nat) (line : str) :
  is_empty (strip line) || startswith (ord "#") (strip line) = true ->
  load_line acc n line = acc.
Proof. intros H. destruct acc as [pairs out]. unfold load_line. now rewrite H. Qed.

Lemma load_line_data (pairs : list pair) (out : list message) (n : nat)
    (line f d : str) :
  startswith (ord "#") (strip line) = false ->
  strip line = f ++ ord "|" :: d -> ~ In (ord "|") f ->
  load_line (pairs, out) n line =
    if is_empty (strip f) || is_empty (strip d)
    then (pairs, out ++ [WarnEmptyTranslation n])
    else (pairs ++ [(strip f, strip d)], out).
Proof.
  intros Hh E Hf. unfold load_line. rewrite Hh, E.
  assert (Hc : contains (ord "|") (f ++ ord "|" :: d) = true).
  { apply contains_In, in_app_iff. right. now left. }
  rewrite Hc, split1_first, before_first_app, after_first_app by assumption.
  replace (is_empty (f ++ ord "|" :: d)) with false by now destruct f.
  simpl. now destruct (is_empty (strip f)), (is_empty (strip d)).
Qed.

Lemma load_line_no_pipe (pairs : list pair) (out : list message) (n : nat)
    (line : str) :
  is_empty (strip line) || startswith (ord "#") (strip line) = false ->
  contains (ord "|") (strip line) = false ->
  load_line (pairs, out) n line = (pairs, out ++ [WarnNoSeparator n (strip line)]).
Proof. intros H1 H2. unfold load_line. now rewrite H1, H2. Qed.

Lemma load_vocabulary_contents (file text : str) :
  exists msgs,
    load_vocabulary (Contents text) (init file) =
      ((0 <? List.length (valid_pairs (readlines text)))%nat,
       mkParser file (valid_pairs (readlines text)),
       msgs ++ [LoadedPairs (List.length (valid_pairs (readlines text)))]) /\
    flat_map warned_line msgs = malformed_lines 1 (readlines text).
Proof.
  unfold load_vocabulary.
  destruct (load_lines_spec (readlines text) [] [] 1%nat) as (msgs & E & W).
  rewrite E. simpl. now exists msgs.
Qed.

End LoaderFacts.

(** * The session, step by step *)

Section SessionFacts.
Import PyStr Quiz.

Lemma ask_question_graded (g : QuizGame) (draw : nat * bool) (l : str)
    (q : output) (answer : str) (d : direction) :
  generate_question g draw = Some (q, answer, d) -> graded l = true ->
  fst (fst (ask_question g draw (Line l))) = Ret true /\
  after_ask g draw (Line l) = grade d (Parser.check_answer (strip l) answer) g.
Proof.
  intros Hq Hg. unfold after_ask, ask_question, graded in *. rewrite Hq.
  apply andb_true_iff in Hg as [Hg H3]. apply andb_true_iff in Hg as [H1 H2].
  apply negb_true_iff in H1, H2, H3. rewrite H1, H2, H3.
  unfold grade. now destruct (Parser.check_answer (strip l) answer).
Qed.

Lemma ask_question_not_graded (g : QuizGame) (draw : nat * bool) (inp : input_result) :
  match inp with Line l => graded l = false | _ => True end ->
  after_ask g draw inp = g.
Proof.
  unfold after_ask, ask_question, graded.
  destruct (generate_question g draw) as [[[q answer] d]|]; [|reflexivity].
  destruct inp as [l| |]; try reflexivity.
  destruct (mem (lower (strip l)) quit_commands); [reflexivity|].
  destruct (mem (lower (strip l)) stats_commands); [reflexivity|].
  destruct (is_empty (strip l)); [reflexivity | discriminate].
Qed.

Lemma ask_question_step (g : QuizGame) (draw : nat * bool) (inp : input_result) :
  after_ask g draw inp = g \/
  exists d ok, after_ask g draw inp = grade d ok g.
Proof.
  destruct inp as [l| |]; try (left; now apply ask_question_not_graded).
  destruct (graded l) eqn:Hg; [|left; now apply ask_question_not_graded].
  destruct (generate_question g draw) as [[[q answer] d]|] eqn:Hq.
  - right. exists d, (Parser.check_answer (strip l) answer).
    now apply (ask_question_graded g draw l q answer d).
  - left. unfold after_ask, ask_question. now rewrite Hq.
Qed.

Lemma grade_conserved (d : direction) (ok : bool) (g : QuizGame) :
  conserved g -> conserved (grade d ok g).
Proof.
  unfold conserved. destruct g as [p v sc t [c i [fc ft] [dc dt]]].
  destruct d, ok; simpl; lia.
Qed.

Lemma grade_not_decreased (d : direction) (ok : bool) (g : QuizGame) :
  not_decreased g (grade d ok g).
Proof.
  unfold not_decreased, counters. destruct g as [p v sc t [c i [fc ft] [dc dt]]].
  destruct d, ok; simpl; repeat constructor; lia.
Qed.

Lemma not_decreased_refl (g : QuizGame) : not_decreased g g.
Proof. unfold not_decreased, counters. repeat constructor. Qed.

Lemma grade_score (d : direction) (ok : bool) (g : QuizGame) :
  score g = correct (stats g) -> score (grade d ok g) = correct (stats (grade d ok g)).
Proof.
  destruct g as [p v sc t [c i [fc ft] [dc dt]]].
  destruct d, ok; simpl; lia.
Qed.

Lemma grade_vocabulary (d : direction) (ok : bool) (g : QuizGame) :
  vocabulary_pairs (grade d ok g) = vocabulary_pairs g.
Proof. now destruct d, ok. Qed.

Lemma initialize_counters (r : Parser.read_result) (g : QuizGame) :
  let g' := snd (fst (initialize r g)) in
  score g' = score g /\ total_questions g' = total_questions g /\ stats g' = stats g.
Proof.
  unfold initialize.
  destruct (Parser.load_vocabulary r (parser g)) as [[ok p] msgs]. simpl.
  destruct ok; simpl; [|easy].
  now destruct (is_nil (Parser.get_vocabulary_pairs p)).
Qed.

Lemma reachable_conserved (g : QuizGame) : reachable g -> conserved g.
Proof.
  induction 1 as [|g r _ IH|g draw inp _ IH].
  - unfold conserved. simpl. lia.
  - destruct (initialize_counters r g) as (_ & E2 & E3).
    unfold conserved in *. now rewrite E2, E3.
  - destruct (ask_question_step g draw inp) as [->|(d & ok & ->)];
      [assumption | now apply grade_conserved].
Qed.

Lemma reachable_score (g : QuizGame) : reachable g -> score g = correct (stats g).
Proof.
  induction 1 as [|g r _ IH|g draw inp _ IH].
  - reflexivity.
  - destruct (initialize_counters r g) as (E1 & _ & E3). now rewrite E1, E3.
  - destruct (ask_question_step g draw inp) as [->|(d & ok & ->)];
      [assumption | now apply grade_score].
Qed.

(** ** The loop *)

Lemma random_choice_some {A : Type} (k : nat) (seq : list A) :
  seq <> [] -> exists x, random_choice k seq = Some x.
Proof.
  intros H. unfold random_choice.
  destruct (nth_error seq (k mod List.length seq)) as [x|] eqn:E; [now exists x|].
  apply nth_error_None in E.
  assert (List.length seq <> 0) by (destruct seq; simpl; congruence).
  pose proof (Nat.mod_upper_bound k (List.length seq)). lia.
Qed.

Lemma generate_question_some (g : QuizGame) (draw : nat * bool) :
  vocabulary_pairs g <> [] ->
  exists q answer d, generate_question g draw = Some (q, answer, d).
Proof.
  intros H. unfold generate_question.
  destruct (random_choice_some (fst draw) _ H) as ([french dutch] & ->).
  destruct (snd draw); eauto.
Qed.

Lemma after_ask_vocabulary (g : QuizGame) (draw : nat * bool) (inp : input_result) :
  vocabulary_pairs (after_ask g draw inp) = vocabulary_pairs g.
Proof.
  destruct (ask_question_step g draw inp) as [->|(d & ok & ->)];
    [reflexivity | apply grade_vocabulary].
Qed.

Lemma stops_quits (l : str) :
  stops (Types l) = true -> mem (lower (strip l)) quit_commands = true.
Proof.
  simpl. rewrite orb_true_iff, !eqb_eq. intros [->| ->]; vm_compute; reflexivity.
Qed.

Lemma stops_declines (l : str) :
  stops (Types l) = true -> mem (strip (lower l)) stop_commands = true.
Proof.
  simpl. rewrite orb_true_iff, !eqb_eq. intros [->| ->]; vm_compute; reflexivity.
Qed.

(** With a non-empty corpus a typed line is always answered by a flag, and
    the flag is [False] for the stopping lines. *)
Lemma ask_question_line (g : QuizGame) (draw : nat * bool) (l : str) :
  vocabulary_pairs g <> [] ->
  exists b out,
    ask_question g draw (Line l) = (Ret b, after_ask g draw (Line l), out) /\
    (stops (Types l) = true -> b = false).
Proof.
  intros H. destruct (generate_question_some g draw H) as (q & answer & d & Hq).
  unfold after_ask, ask_question. rewrite Hq.
  destruct (mem (lower (strip l)) quit_commands) eqn:Hquit.
  - now exists false, [QuestionNumber (total_questions g + 1); q].
  - assert (Hs : stops (Types l) = true -> true = false).
    { intros Hs. apply stops_quits in Hs. congruence. }
    destruct (mem (lower (strip l)) stats_commands); [eauto|].
    destruct (is_empty (strip l)); [eauto|].
    destruct (Parser.check_answer (strip l) answer); eauto.
Qed.

Lemma ask_question_interrupt (g : QuizGame) (draw : nat * bool) :
  vocabulary_pairs g <> [] ->
  exists out, ask_question g draw Interrupt = (Raise KeyboardInterrupt, g, out).
Proof.
  intros H. destruct (generate_question_some g draw H) as (q & answer & d & Hq).
  unfold ask_question. rewrite Hq. eauto.
Qed.

Lemma ask_question_eof (g : QuizGame) (draw : nat * bool) :
  vocabulary_pairs g <> [] ->
  exists out, ask_question g draw EndOfFile = (Raise EOFError, g, out).
Proof.
  intros H. destruct (generate_question_some g draw H) as (q & answer & d & Hq).
  unfold ask_question. rewrite Hq. eauto.
Qed.

Lemma loop_ends_well (rand : nat -> nat * bool) (bound : nat) :
  forall events n g,
    List.length events <= bound -> vocabulary_pairs g <> [] ->
    ends_well events (fst (fst (loop rand n events g))).
Proof.
  unfold ends_well.
  induction bound as [|bound IH]; intros events n g Hlen Hv.
  - destruct events; [|simpl in Hlen; lia]. simpl.
    destruct (ask_question_eof g (rand n) Hv) as (out & ->). simpl.
    split; [auto | discriminate].
  - destruct events as [|e rest].
    + simpl. destruct (ask_question_eof g (rand n) Hv) as (out & ->). simpl.
      split; [auto | discriminate].
    + simpl in Hlen. cbn [loop]. destruct e as [l|]; cbn [input_of].
      2:{ destruct (ask_question_interrupt g (rand n) Hv) as (out & ->). simpl.
          split; [auto | discriminate]. }
      destruct (ask_question_line g (rand n) l Hv) as (b & out & -> & Hb).
      destruct b; [|simpl; split; [auto | discriminate]].
      assert (Hl : stops (Types l) = false)
        by (destruct (stops (Types l)); [now specialize (Hb eq_refl) | reflexivity]).
      set (g' := after_ask g (rand n) (Line l)).
      assert (Hv' : vocabulary_pairs g' <> [])
        by (unfold g'; now rewrite after_ask_vocabulary).
      cbn [existsb]. rewrite Hl. cbn [orb].
      destruct ((0 <? total_questions g') && (total_questions g' mod 5 =? 0)).
      * destruct rest as [|[l'|] rest']; cbn [existsb].
        -- simpl. split; [auto | discriminate].
        -- destruct (mem (strip (lower l')) stop_commands) eqn:Hstop.
           ++ simpl. split; [auto | discriminate].
           ++ assert (Hl' : stops (Types l') = false).
              { destruct (stops (Types l')) eqn:E; [|reflexivity].
                apply stops_declines in E. congruence. }
              rewrite Hl'. cbn [orb].
              specialize (IH rest' (S n) g').
              destruct (loop rand (S n) rest' g') as [[r' g''] out'].
              simpl. apply IH; [simpl in Hlen; lia | assumption].
        -- simpl. split; [auto | discriminate].
      * specialize (IH rest (S n) g').
        destruct (loop rand (S n) rest g') as [[r' g''] out'].
        simpl. apply IH; [lia | assumption].
Qed.

Lemma loop_reachable (rand : nat -> nat * bool) (bound : nat) :
  forall events n g,
    List.length events <= bound -> reachable g ->
    reachable (snd (fst (loop rand n events g))).
Proof.
  induction bound as [|bound IH]; intros events n g Hlen Hg.
  - destruct events; [|simpl in Hlen; lia]. cbn [loop].
    pose proof (reach_ask g (rand n) EndOfFile Hg) as R. unfold after_ask in R.
    destruct (ask_question g (rand n) EndOfFile) as [[r g'] out].
    now destruct r.
  - destruct events as [|e rest]; cbn [loop].
    + pose proof (reach_ask g (rand n) EndOfFile Hg) as R. unfold after_ask in R.
      destruct (ask_question g (rand n) EndOfFile) as [[r g'] out].
      now destruct r.
    + pose proof (reach_ask g (rand n) (input_of e) Hg) as R. unfold after_ask in R.
      destruct (ask_question g (rand n) (input_of e)) as [[r g'] out].
      simpl in R, Hlen. destruct r as [[|]|x]; try assumption.
      destruct ((0 <? total_questions g') && (total_questions g' mod 5 =? 0)).
      * destruct rest as [|[l'|] rest']; try assumption.
        destruct (mem (strip (lower l')) stop_commands); [assumption|].
        specialize (IH rest' (S n) g').
        destruct (loop rand (S n) rest' g') as [[r' g''] out'].
        apply IH; [simpl in Hlen; lia | assumption].
      * specialize (IH rest (S n) g').
        destruct (loop rand (S n) rest g') as [[r' g''] out'].
        apply IH; [lia | assumption].
Qed.

Lemma initialize_vocabulary (r : Parser.read_result) (g : QuizGame) :
  fst (fst (initialize r g)) = true ->
  vocabulary_pairs (snd (fst (initialize r g))) <> [].
Proof.
  unfold initialize.
  destruct (Parser.load_vocabulary r (parser g)) as [[ok p] msgs].
  destruct ok; simpl; [|discriminate].
  destruct (Parser.get_vocabulary_pairs p); simpl; [discriminate|]. 
  intros _. discriminate.
Qed.

Lemma main_reachable (r : Parser.read_result) (rand : nat -> nat * bool)
    (events : list event) : reachable (snd (fst (main r rand events))).
Proof.
  unfold main, run.
  pose proof (reach_initialize init r reach_init) as R.
  destruct (initialize r init) as [[ok g] out]. simpl in R.
  destruct ok; simpl; [|assumption].
  pose proof (loop_reachable rand _ events 0 g (le_n _) R) as R'.
  destruct (loop rand 0 events g) as [[res g'] out'].
  simpl in R'. now destruct res as [?|[| |]].
Qed.

Lemma main_ends_well (r : Parser.read_result) (rand : nat -> nat * bool)
    (events : list event) :
  (initialized r = false -> main_result r rand events = Ret tt) /\
  (main_result r rand events = Ret tt \/ main_result r rand events = Raise EOFError) /\
  (existsb stops events = true -> main_result r rand events = Ret tt).
Proof.
  unfold main_result, initialized, main, run.
  pose proof (initialize_vocabulary r init) as V.
  destruct (initialize r init) as [[ok g] out]. simpl in V.
  destruct ok; simpl; [|auto].
  pose proof (loop_ends_well rand _ events 0 g (le_n _) (V eq_refl)) as [E1 E2].
  destruct (loop rand 0 events g) as [[res g'] out']. simpl in E1, E2.
  split; [discriminate|].
  destruct E1 as [-> | [-> | ->]]; simpl; auto.
  split; [auto|]. intros H. now apply E2 in H.
Qed.

End SessionFacts.

(** * The candidates of the code and of the specification

    The code normalizes each part before it splits it on the slash, and
    normalizes the pieces again; the specification splits first.  The two
    lists agree up to the white space at the ends of a candidate. *)

Section Pieces.
Import PyStr Re Parser.
Local Open Scope N_scope.

Variable sep : char.
Hypothesis sep_separator : separator sep.
Hypothesis sep_not_space : isspace sep = false.
Hypothesis sep_not_punct : is_punct sep = false.
Hypothesis sep_not_lowered :
  forall before after c, In sep (lower_char before c after) -> c = sep.

Lemma split_app_clean (o z : str) :
  ~ In sep o ->
  split sep (o ++ z) =
  match split sep z with p :: ps => (o ++ p) :: ps | [] => [] end.
Proof using.
  intros H. induction o as [|c o IH]; simpl app.
  - now destruct (split sep z).
  - rewrite split_cons_other by (intros ->; apply H; now left).
    rewrite IH by (intros H'; apply H; now right).
    destruct (split sep z) as [|q qs] eqn:E; [now destruct (split_not_nil sep z)|].
    reflexivity.
Qed.

Lemma split_remove_punct (z : str) :
  split sep (remove_punct z) = map remove_punct (split sep z).
Proof using sep_not_punct.
  induction z as [|c z IH]; [reflexivity|].
  destruct (N.eqb_spec c sep) as [->|Hc].
  - unfold remove_punct at 1. simpl filter. rewrite sep_not_punct. simpl negb. cbv iota.
    rewrite !split_cons_sep. simpl map. f_equal. exact IH.
  - rewrite (split_cons_other sep c z Hc).
    destruct (split sep z) as [|q qs] eqn:E; [now destruct (split_not_nil sep z)|].
    unfold remove_punct at 1. simpl filter. fold (remove_punct z).
    simpl map in *. unfold remove_punct at 2. simpl filter. fold (remove_punct q).
    destruct (is_punct c); simpl negb; cbv iota.
    + exact IH.
    + rewrite (split_cons_other sep c _ Hc), IH. reflexivity.
Qed.

Lemma split_collapse_from (z : str) :
  forall b,
    split sep (collapse_from b z) =
    match split sep z with
    | p :: ps => collapse_from b p :: map collapse_ws ps
    | [] => []
    end.
Proof using sep_not_space.
  assert (Hsp : ord " " <> sep).
  { intros E. pose proof sep_not_space as H. rewrite <- E in H. discriminate H. }
  induction z as [|c z IH]; intros b; [reflexivity|].
  destruct (N.eqb_spec c sep) as [->|Hc].
  - rewrite split_cons_sep. simpl collapse_from. rewrite sep_not_space.
    rewrite split_cons_sep, (IH false).
    destruct (split sep z) as [|q qs] eqn:E; [now destruct (split_not_nil sep z)|].
    reflexivity.
  - rewrite (split_cons_other sep c z Hc).
    destruct (split sep z) as [|q qs] eqn:E; [now destruct (split_not_nil sep z)|].
    simpl collapse_from. destruct (isspace c); [destruct b|].
    + apply IH.
    + rewrite (split_cons_other sep _ _ Hsp), (IH true). reflexivity.
    + rewrite (split_cons_other sep _ _ Hc), (IH false). reflexivity.
Qed.

Lemma split_collapse_ws (z : str) :
  split sep (collapse_ws z) = map collapse_ws (split sep z).
Proof using sep_not_space.
  unfold collapse_ws at 1. rewrite split_collapse_from.
  now destruct (split sep z).
Qed.

Lemma lower_char_first_piece (before z p : str) (ps : list str) (c : char) :
  split sep z = p :: ps -> lower_char before c z = lower_char before c p.
Proof using sep_separator.
  intros E. destruct (split_first sep z p ps E) as [[-> _]|(rest & ->)]; [reflexivity|].
  unfold lower_char. now rewrite final_sigma_cut_after.
Qed.

Lemma split_lower_from (z : str) :
  forall before,
    split sep (lower_from before z) =
    match split sep z with
    | p :: ps => lower_from before p :: map lower ps
    | [] => []
    end.
Proof using sep_separator sep_not_lowered.
  induction z as [|c z IH]; intros before; [reflexivity|].
  destruct (N.eqb_spec c sep) as [->|Hc].
  - rewrite split_cons_sep. simpl lower_from.
    rewrite lower_char_fixed by apply sep_separator. simpl app.
    rewrite (lower_from_after_separator before z sep sep_separator).
    rewrite split_cons_sep, (IH []).
    destruct (split sep z) as [|q qs] eqn:E; [now destruct (split_not_nil sep z)|].
    reflexivity.
  - rewrite (split_cons_other sep c z Hc).
    destruct (split sep z) as [|q qs] eqn:E; [now destruct (split_not_nil sep z)|].
    simpl lower_from.
    rewrite split_app_clean by (intros H; now apply sep_not_lowered in H).
    rewrite (IH (c :: before)), (lower_char_first_piece before z q qs c E).
    reflexivity.
Qed.

Lemma split_lower (z : str) : split sep (lower z) = map lower (split sep z).
Proof using sep_separator sep_not_lowered.
  unfold lower at 1. rewrite split_lower_from. now destruct (split sep z).
Qed.

(** White space around the text changes the first and the last piece only,
    and only by white space at their outer ends. *)
Lemma split_blank_prefix {B : Type} (f : str -> B) (w t : str) :
  blank w -> (forall v x, blank v -> f (v ++ x) = f x) ->
  map f (split sep (w ++ t)) = map f (split sep t).
Proof using sep_not_space.
  intros Hw Hf. induction Hw as [|c w Hc Hw IH]; [reflexivity|].
  simpl app.
  rewrite split_cons_other
    by (intros E; rewrite E, sep_not_space in Hc; discriminate Hc).
  destruct (split sep (w ++ t)) as [|q qs] eqn:E;
    [now destruct (split_not_nil sep (w ++ t))|].
  rewrite <- IH. simpl. f_equal.
  apply (Hf [c] q). now repeat constructor.
Qed.

Lemma split_blank_suffix {B : Type} (w t : str) :
  blank w ->
  forall f : str -> B,
    (forall x, f (x ++ w) = f x) ->
    map f (split sep (t ++ w)) = map f (split sep t).
Proof using sep_not_space.
  intros Hw. induction t as [|c t IH]; intros f Hf.
  - simpl app. rewrite split_absent.
    + simpl. f_equal. apply (Hf []).
    + intros H. unfold blank in Hw. rewrite Forall_forall in Hw.
      apply Hw in H. rewrite sep_not_space in H. discriminate H.
  - simpl app. destruct (N.eqb_spec c sep) as [->|Hc].
    + rewrite !split_cons_sep. simpl. f_equal. now apply IH.
    + rewrite !split_cons_other by assumption.
      pose proof (IH f Hf) as T.
      pose proof (IH (fun x => f (c :: x)) (fun x => Hf (c :: x))) as H.
      destruct (split sep (t ++ w)) as [|q qs] eqn:E;
        [now destruct (split_not_nil sep (t ++ w))|].
      destruct (split sep t) as [|q' qs'] eqn:E';
        [now destruct (split_not_nil sep t)|].
      simpl in *. injection T as _ T. injection H as H _. now rewrite T, H.
Qed.

End Pieces.

Section Candidates.
Import PyStr Re Parser Spec.
Local Open Scope N_scope.

Lemma spaces_not_punct : forallb (fun c => negb (is_punct c)) spaces = true.
Proof. vm_compute. reflexivity. Qed.

Lemma blank_no_punct (w : str) : blank w -> no_punct w.
Proof.
  apply Forall_impl. intros c Hc. apply isspace_spaces in Hc.
  pose proof spaces_not_punct as T. rewrite forallb_forall in T.
  now apply negb_true_iff, T.
Qed.

Lemma remove_punct_app (x y : str) :
  remove_punct (x ++ y) = remove_punct x ++ remove_punct y.
Proof. apply filter_app. Qed.

Lemma remove_punct_padded (w1 x w2 : str) :
  blank w1 -> blank w2 ->
  remove_punct (w1 ++ x ++ w2) = w1 ++ remove_punct x ++ w2.
Proof.
  intros H1 H2. rewrite !remove_punct_app.
  rewrite (remove_punct_fixed w1) by now apply blank_no_punct.
  now rewrite (remove_punct_fixed w2) by now apply blank_no_punct.
Qed.

(** Collapsing with or without a white space before differs by one space
    at the front. *)
Lemma collapse_from_core (b : bool) (y : str) :
  exists v, blank v /\ collapse_from b y = v ++ collapse_from true y.
Proof.
  destruct y as [|c y]; [exists []; split; [constructor | reflexivity]|].
  simpl. destruct (isspace c) eqn:Hc; [destruct b|].
  - exists []. split; [constructor | reflexivity].
  - exists [ord " "]. split; [now repeat constructor | reflexivity].
  - exists []. split; [constructor | reflexivity].
Qed.

Lemma collapse_blank_prefix (w y : str) :
  blank w -> collapse_from true (w ++ y) = collapse_from true y.
Proof. induction 1 as [|c w Hc _ IH]; simpl; [reflexivity | now rewrite Hc]. Qed.

Lemma collapse_blank (b : bool) (w : str) : blank w -> blank (collapse_from b w).
Proof.
  intros Hw. destruct (collapse_from_core b w) as (v & Hv & ->).
  rewrite <- (app_nil_r w), collapse_blank_prefix, app_nil_r by assumption.
  exact Hv.
Qed.

Lemma collapse_blank_suffix (w y : str) :
  blank w ->
  forall b, exists v, blank v /\ collapse_from b (y ++ w) = collapse_from b y ++ v.
Proof.
  intros Hw. induction y as [|c y IH]; intros b.
  - exists (collapse_from b w). split; [now apply collapse_blank | reflexivity].
  - simpl. destruct (isspace c); [destruct b|].
    + apply IH.
    + destruct (IH true) as (v & Hv & ->). now exists v.
    + destruct (IH false) as (v & Hv & ->). now exists v.
Qed.

Lemma strip_collapse_padded (w1 y w2 : str) :
  blank w1 -> blank w2 ->
  strip (collapse_ws (w1 ++ y ++ w2)) = strip (collapse_from true y).
Proof.
  intros H1 H2. unfold collapse_ws.
  destruct (collapse_from_core false (w1 ++ y ++ w2)) as (v & Hv & ->).
  rewrite collapse_blank_prefix by assumption.
  destruct (collapse_blank_suffix w2 y H2 true) as (v' & Hv' & ->).
  now apply strip_blank_app.
Qed.

Lemma canon_padded (w1 x w2 : str) :
  blank w1 -> blank w2 -> canon (w1 ++ x ++ w2) = canon x.
Proof.
  intros H1 H2. unfold canon. rewrite remove_punct_padded by assumption.
  rewrite strip_collapse_padded by assumption.
  rewrite <- (strip_collapse_padded [] (remove_punct x) []) by constructor.
  now rewrite app_nil_r.
Qed.

Lemma canon_strip (x : str) : canon (strip x) = canon x.
Proof.
  destruct (strip_decomp x) as (w1 & w2 & E & H1 & H2).
  rewrite E at 2. now rewrite canon_padded.
Qed.

(** A normalized answer, stripped, is the comparison form of the
    lower-cased text. *)
Lemma strip_normalize_answer (x : str) :
  strip (normalize_answer x) = canon (lower x).
Proof. unfold normalize_answer. fold (canon (strip (lower x))). apply canon_strip. Qed.

Lemma slash_separator : separator (ord "/").
Proof. apply separatorb_separator. vm_compute. reflexivity. Qed.

(** Splitting a normalized part on the slash, or normalizing the pieces of
    the part: the same once stripped. *)
Lemma split_normalize_answer (part : str) :
  map strip (split (ord "/") (normalize_answer part)) =
  map (fun x => strip (normalize_answer x)) (split (ord "/") part).
Proof.
  unfold normalize_answer at 1. unfold collapse_ws.
  rewrite (map_ext _ _ strip_normalize_answer).
  rewrite <- (map_map lower canon).
  rewrite <- (split_lower (ord "/") slash_separator lower_char_slash).
  destruct (strip_decomp (lower part)) as (w1 & w2 & E & H1 & H2).
  rewrite E at 2.
  rewrite (split_blank_prefix (ord "/") eq_refl canon w1 _ H1)
    by (intros v x Hv; rewrite <- (app_nil_r x) at 1;
        apply canon_padded; [assumption | constructor]).
  rewrite (split_blank_suffix (ord "/") eq_refl w2 _ H2 canon)
    by (intros x; apply (canon_padded [] x w2); [constructor | assumption]).
  fold (collapse_ws (remove_punct (strip (lower part)))).
  rewrite (split_collapse_ws (ord "/") eq_refl).
  rewrite (split_remove_punct (ord "/") eq_refl).
  now rewrite !map_map.
Qed.

Lemma flat_map_map {A B C : Type} (f : B -> list C) (g : A -> B) (l : list A) :
  flat_map f (map g l) = flat_map (fun x => f (g x)) l.
Proof. induction l as [|x l IH]; simpl; [reflexivity | now rewrite IH]. Qed.

Lemma map_flat_map {A B C : Type} (f : B -> C) (g : A -> list B) (l : list A) :
  map f (flat_map g l) = flat_map (fun x => map f (g x)) l.
Proof.
  induction l as [|x l IH]; simpl; [reflexivity | now rewrite map_app, IH].
Qed.

(** The list of the code is the list of the specification, stripped. *)
Lemma all_possible_candidates (a : str) :
  all_possible a = map strip (candidates a).
Proof.
  unfold all_possible, candidates. rewrite flat_map_map, map_flat_map.
  apply flat_map_ext. intros part.
  rewrite normalize_answer_strip, map_map, <- split_normalize_answer.
  rewrite <- (map_map strip normalize_answer).
  rewrite map_map. apply map_ext_in. intros p Hp.
  apply substr_split in Hp.
  rewrite normalize_answer_of_normal, strip_idem; [reflexivity|].
  apply (normal_substr _ p); [apply substr_strip|].
  apply (normal_substr _ _ Hp), normalize_answer_normal.
Qed.

End Candidates.

(** * The answer matcher *)

Section Matcher.
Import PyStr Parser.
Local Open Scope N_scope.

(** C1 (as amended).  For every string [s] that contains neither a comma nor
    a slash, [check_answer (normalize_answer s) s] is true, and
    [check_answer s s] is true when the normalized form of [s] has no white
    space at its ends. *)
Theorem check_answer_self (s : str) :
  contains (ord ",") s = false -> contains (ord "/") s = false ->
  check_answer (normalize_answer s) s = true /\
  (strip (normalize_answer s) = normalize_answer s -> check_answer s s = true).
Proof.
  intros Hc Hs. unfold check_answer.
  rewrite all_possible_single by assumption. simpl. rewrite !orb_false_r.
  split.
  - apply eqb_eq, normalize_answer_of_normal, normalize_answer_normal.
  - intros E. apply eqb_eq. now symmetry.
Qed.

Lemma check_answer_self_witness :
  check_answer (normalize_answer (u"la puberté")) (u"la puberté") = true /\
  check_answer (u"la puberté") (u"la puberté") = true.
Proof.
  destruct (check_answer_self (u"la puberté")) as [H1 H2]; [reflexivity ..|].
  split; [exact H1 | apply H2; reflexivity].
Defined.

(** C1 as stated fails: a canonical answer that lists alternatives is split
    into its candidates, and does not match itself; nor does one whose
    normalized form keeps a space at an end. *)
Lemma check_answer_self_counterexample :
  check_answer (u"de hond, het hondje") (u"de hond, het hondje") = false /\
  check_answer (normalize_answer (u"de hond, het hondje"))
               (u"de hond, het hondje") = false /\
  check_answer (u"zien/kijken") (u"zien/kijken") = false /\
  check_answer (normalize_answer (u"zien/kijken")) (u"zien/kijken") = false /\
  check_answer (u"- a") (u"- a") = false.
Proof. vm_compute. repeat split; reflexivity. Qed.

(** C2 (as amended).  The canonical answer "de puber (14-18 jaar)" has the
    single candidate "de puber 1418 jaar"; [check_answer] accepts that
    candidate and the canonical answer itself, and rejects
    "de puber 14 18 jaar", "de puber" and "puber". *)
Theorem puber_candidates :
  all_possible (u"de puber (14-18 jaar)") = [u"de puber 1418 jaar"] /\
  check_answer (u"de puber 1418 jaar") (u"de puber (14-18 jaar)") = true /\
  check_answer (u"de puber (14-18 jaar)") (u"de puber (14-18 jaar)") = true /\
  check_answer (u"de puber 14 18 jaar") (u"de puber (14-18 jaar)") = false /\
  check_answer (u"de puber") (u"de puber (14-18 jaar)") = false /\
  check_answer (u"puber") (u"de puber (14-18 jaar)") = false.
Proof. vm_compute. repeat split; reflexivity. Qed.

(** C2 as stated fails: removing the hyphen joins the digits, so the answer
    with a space between them is another string. *)
Lemma puber_counterexample :
  normalize_answer (u"de puber 14 18 jaar") = u"de puber 14 18 jaar" /\
  check_answer (u"de puber 14 18 jaar") (u"de puber (14-18 jaar)") = false.
Proof. vm_compute. split; reflexivity. Qed.

(** C3 (as amended).  With the canonical answer "l'école", [check_answer]
    accepts "l'École" and "lécole" and rejects "l ecole" and "lecole";
    "École" and "école" match each other, and "ecole" matches neither of
    them, in either role. *)
Theorem ecole_matching :
  check_answer (u"l'École") (u"l'école") = true /\
  check_answer (u"lécole") (u"l'école") = true /\
  check_answer (u"l ecole") (u"l'école") = false /\
  check_answer (u"lecole") (u"l'école") = false /\
  check_answer (u"École") (u"école") = true /\
  check_answer (u"école") (u"École") = true /\
  check_answer (u"ecole") (u"école") = false /\
  check_answer (u"ecole") (u"École") = false /\
  check_answer (u"école") (u"ecole") = false /\
  check_answer (u"École") (u"ecole") = false.
Proof. vm_compute. repeat split; reflexivity. Qed.

(** C3 as stated fails: the answers without the accent are rejected, with
    or without the space. *)
Lemma ecole_counterexample :
  all_possible (u"l'école") = [u"lécole"] /\
  check_answer (u"l ecole") (u"l'école") = false /\
  check_answer (u"lecole") (u"l'école") = false.
Proof. vm_compute. repeat split; reflexivity. Qed.

(** C5.  Every candidate of a canonical answer is accepted for that
    answer: the elements of the list that [check_answer] builds, and the
    candidates as the specification expands them (split on the comma, then on
    the slash, each piece normalized), the former being the latter
    stripped. *)
Theorem check_answer_candidates (a : str) :
  all_possible a = map strip (Spec.candidates a) /\
  (forall c, In c (all_possible a) -> check_answer c a = true) /\
  (forall c, In c (Spec.candidates a) -> check_answer c a = true).
Proof.
  split; [apply all_possible_candidates|]. split.
  - intros c H. unfold check_answer.
    rewrite (all_possible_fixed a c H). now apply mem_In.
  - intros c H. unfold check_answer. apply mem_In.
    rewrite all_possible_candidates.
    assert (E : normalize_answer c = strip c).
    { apply normalize_answer_of_normal.
      unfold Spec.candidates in H. apply in_flat_map in H as (part & _ & H).
      apply in_map_iff in H as (piece & <- & _). apply normalize_answer_normal. }
    rewrite E. now apply in_map.
Qed.

Lemma check_answer_candidates_witness :
  check_answer (u"het hondje") (u"de hond, het hondje") = true /\
  check_answer (u" a") (u"- a / b") = true.
Proof.
  destruct (check_answer_candidates (u"de hond, het hondje")) as (_ & H & _).
  destruct (check_answer_candidates (u"- a / b")) as (_ & _ & H').
  split.
  - apply H. vm_compute. right. left. reflexivity.
  - apply H'. vm_compute. left. reflexivity.
Defined.

End Matcher.

(** * The corpus loader *)

Section Loader.
Import PyStr Parser Spec.
Local Open Scope N_scope.

(** C7.  [load_vocabulary] skips the lines that are empty once trimmed and
    those that start with [#]; it splits any other line at its first pipe,
    later pipes staying in the Dutch side, trims both sides and appends the
    pair exactly when both are non-empty, warning otherwise and when there
    is no pipe; the pairs come in the order of the lines; and on the file
    of scenario 6 it returns the two pairs and one warning, for line 2. *)
Theorem load_vocabulary_lines :
  (forall acc n line,
     is_empty (strip line) || startswith (ord "#") (strip line) = true ->
     load_line acc n line = acc) /\
  (forall pairs out n line f d,
     startswith (ord "#") (strip line) = false ->
     strip line = f ++ ord "|" :: d -> ~ In (ord "|") f ->
     load_line (pairs, out) n line =
       if is_empty (strip f) || is_empty (strip d)
       then (pairs, out ++ [WarnEmptyTranslation n])
       else (pairs ++ [(strip f, strip d)], out)) /\
  (forall pairs out n line,
     is_empty (strip line) || startswith (ord "#") (strip line) = false ->
     contains (ord "|") (strip line) = false ->
     load_line (pairs, out) n line =
       (pairs, out ++ [WarnNoSeparator n (strip line)])) /\
  (forall file text,
     let '(ok, p, out) := load_vocabulary (Contents text) (init file) in
     get_vocabulary_pairs p = valid_pairs (readlines text) /\
     flat_map warned_line out = malformed_lines 1 (readlines text)) /\
  load_vocabulary (Contents malformed_file) (init (u"vocabulary_data.txt")) =
    (true,
     mkParser (u"vocabulary_data.txt")
              [(u"bonjour", u"hallo"); (u"au revoir", u"tot ziens")],
     [WarnNoSeparator 2 (u"just one column"); LoadedPairs 2]).
Proof.
  split; [exact load_line_comment|].
  split; [exact load_line_data|].
  split; [exact load_line_no_pipe|].
  split; [|vm_compute; reflexivity].
  intros file text.
  destruct (load_vocabulary_contents file text) as (msgs & -> & W).
  split; [reflexivity|].
  rewrite flat_map_app, W. simpl. apply app_nil_r.
Qed.

Lemma load_vocabulary_lines_witness :
  load_line ([], []) 3 (u"# comment") = ([], []) /\
  load_line ([], []) 1 (u"le chien | de hond | het hondje") =
    ([(u"le chien", u"de hond | het hondje")], []) /\
  load_line ([], []) 2 (u"just one column") =
    ([], [WarnNoSeparator 2 (u"just one column")]).
Proof.
  destruct load_vocabulary_lines as (Hc & Hd & Hn & _).
  split; [apply Hc; reflexivity|].
  split; [|apply (Hn [] [] 2%nat (u"just one column")); reflexivity].
  apply (Hd [] [] 1%nat (u"le chien | de hond | het hondje")
            (u"le chien ") (u" de hond | het hondje")).
  - reflexivity.
  - reflexivity.
  - vm_compute. intuition discriminate.
Defined.

(** C8.  On a freshly built parser, [load_vocabulary] reports success
    exactly when the file could be read and decoded and holds at least one
    valid pair; whenever it reports failure the parser exposes no pair, and
    after a success it exposes at least one. *)
Theorem load_vocabulary_success (file : str) (r : read_result) :
  let '(ok, p, _) := load_vocabulary r (init file) in
  (ok = true <->
   exists text, r = Contents text /\ valid_pairs (readlines text) <> []) /\
  (ok = false -> get_vocabulary_pairs p = []) /\
  (ok = true -> (1 <= get_vocabulary_count p)%nat).
Proof.
  destruct r as [| | |text].
  1-3: simpl; split; [split; [discriminate | intros (t & E & _); discriminate E]|];
       split; [reflexivity | discriminate].
  destruct (load_vocabulary_contents file text) as (msgs & -> & _).
  unfold get_vocabulary_pairs, get_vocabulary_count. simpl vocabulary_pairs.
  destruct (valid_pairs (readlines text)) as [|q qs] eqn:V; simpl.
  - split; [|split; [reflexivity | discriminate]].
    split; [discriminate|]. intros (t & E & H). injection E as E.
    subst t. contradiction.
  - split; [|split; [discriminate | intros _; lia]].
    split; [|reflexivity]. intros _. exists text. split; [reflexivity|].
    rewrite V. discriminate.
Qed.

(** A failed read leaves the parser as it was: the pairs of an earlier load
    stay. *)
Lemma load_vocabulary_failure_keeps (self : VocabularyParser) :
  load_vocabulary FileNotFoundError self = (false, self, [ErrorNotFound (filename self)]) /\
  load_vocabulary UnicodeDecodeError self = (false, self, [ErrorDecode (filename self)]) /\
  load_vocabulary OtherException self = (false, self, [ErrorLoading]).
Proof. repeat split. Qed.

End Loader.

(** * The session driver *)

Section Driver.
Import PyStr Quiz.

(** C4 (as amended).  [main] returns, so that the exit status is 0, when
    initialization fails, and whenever the user types quit or exit or
    interrupts at a prompt; the status is non-zero only after a successful
    initialization, when the input ends at a prompt and EOFError escapes. *)
Theorem main_exit_status (r : Parser.read_result) (rand : nat -> nat * bool)
    (events : list event) :
  (initialized r = false -> main_exit r rand events = 0%N) /\
  (existsb stops events = true -> main_exit r rand events = 0%N) /\
  (main_exit r rand events <> 0%N ->
   initialized r = true /\ main_result r rand events = Raise EOFError).
Proof.
  unfold main_exit.
  destruct (main_ends_well r rand events) as (H1 & H2 & H3).
  split; [intros H; now rewrite (H1 H)|].
  split; [intros H; now rewrite (H3 H)|].
  intros H. destruct (initialized r).
  - split; [reflexivity|]. destruct H2 as [E|E]; [|assumption].
    rewrite E in H. now contradiction H.
  - rewrite (H1 eq_refl) in H. now contradiction H.
Qed.

Lemma main_exit_status_witness :
  main_exit Parser.FileNotFoundError turns [Types (u"hallo")] = 0%N /\
  main_exit (Parser.Contents Spec.malformed_file) turns
            [Types (u"hallo"); CtrlC] = 0%N /\
  main_exit (Parser.Contents Spec.malformed_file) turns
            [Types (u"hallo"); Types (u"stats"); Types (u"quit")] = 0%N.
Proof.
  split; [|split].
  - destruct (main_exit_status Parser.FileNotFoundError turns [Types (u"hallo")])
      as (H & _).
    apply H. reflexivity.
  - destruct (main_exit_status (Parser.Contents Spec.malformed_file) turns
                [Types (u"hallo"); CtrlC]) as (_ & H & _).
    apply H. reflexivity.
  - destruct (main_exit_status (Parser.Contents Spec.malformed_file) turns
                [Types (u"hallo"); Types (u"stats"); Types (u"quit")])
      as (_ & H & _).
    apply H. reflexivity.
Defined.

(** C4 as stated fails: initialization fails on a missing file, an
    undecodable file and a file without a valid pair, and the exit status is 0
    each time. *)
Lemma main_exit_status_counterexample :
  initialized Parser.FileNotFoundError = false /\
  main_exit Parser.FileNotFoundError turns [] = 0%N /\
  initialized Parser.UnicodeDecodeError = false /\
  main_exit Parser.UnicodeDecodeError turns [] = 0%N /\
  initialized (Parser.Contents (u"# no pairs")) = false /\
  main_exit (Parser.Contents (u"# no pairs")) turns [] = 0%N.
Proof. vm_compute. repeat split; reflexivity. Qed.

(** C6.  All counters start at zero; in every reachable state of the
    session correct + incorrect = total, the two per-direction totals add up
    to total, and each per-direction correct count is at most its total; no
    step of [ask_question] decreases a counter; and the state [main] ends
    with is such a state. *)
Theorem counters_conserved :
  counters init = [0; 0; 0; 0; 0; 0; 0; 0] /\
  (forall g, reachable g -> conserved g) /\
  (forall g draw inp, not_decreased g (after_ask g draw inp)) /\
  (forall r rand events, conserved (snd (fst (main r rand events)))).
Proof.
  split; [reflexivity|].
  split; [exact reachable_conserved|].
  split.
  - intros g draw inp.
    destruct (ask_question_step g draw inp) as [->|(d & ok & ->)];
      [apply not_decreased_refl | apply grade_not_decreased].
  - intros r rand events. apply reachable_conserved, main_reachable.
Qed.

Lemma counters_conserved_witness :
  conserved
    (after_ask (snd (fst (initialize (Parser.Contents Spec.malformed_file) init)))
               (turns 0) (Line (u"hallo"))).
Proof.
  destruct counters_conserved as (_ & H & _).
  apply H. apply reach_ask, reach_initialize, reach_init.
Defined.

(** C9.  An input that is a quit command, a stats command or empty once
    trimmed, an interrupt and the end of the input leave the whole game
    unchanged, and so does a question that cannot be generated; a graded
    attempt adds one to the total, to the total of the direction asked and,
    by the verdict of the matcher, either to score, correct and the correct
    count of that direction, or to incorrect, and changes nothing else. *)
Theorem ask_question_frame :
  (forall g draw inp,
     match inp with Line l => graded l = false | _ => True end ->
     after_ask g draw inp = g) /\
  (forall g draw inp, generate_question g draw = None -> after_ask g draw inp = g) /\
  (forall g draw l q answer d,
     generate_question g draw = Some (q, answer, d) -> graded l = true ->
     let g' := after_ask g draw (Line l) in
     let ok := Parser.check_answer (strip l) answer in
     let n b := if b : bool then 1 else 0 in
     total_questions g' = total_questions g + 1 /\
     d_total (by_direction (stats g') d) = d_total (by_direction (stats g) d) + 1 /\
     correct (stats g') = correct (stats g) + n ok /\
     incorrect (stats g') = incorrect (stats g) + n (negb ok) /\
     score g' = score g + n ok /\
     d_correct (by_direction (stats g') d)
       = d_correct (by_direction (stats g) d) + n ok /\
     by_direction (stats g') (other d) = by_direction (stats g) (other d) /\
     vocabulary_pairs g' = vocabulary_pairs g /\ parser g' = parser g).
Proof.
  split; [exact ask_question_not_graded|].
  split; [intros g draw inp Hq; unfold after_ask, ask_question; now rewrite Hq|].
  intros g draw l q answer d Hq Hg.
  destruct (ask_question_graded g draw l q answer d Hq Hg) as [_ E].
  cbv zeta. rewrite E.
  destruct g as [p v sc t [c i [fc ft] [dc dt]]].
  destruct d, (Parser.check_answer (strip l) answer); simpl;
    repeat split; lia.
Qed.

Lemma ask_question_frame_witness :
  after_ask init (turns 0) (Line (u" STATS ")) = init /\
  total_questions
    (after_ask (snd (fst (initialize (Parser.Contents Spec.malformed_file) init)))
               (turns 0) (Line (u"hallo"))) = 1.
Proof.
  destruct ask_question_frame as (H1 & _ & H2).
  split; [apply (H1 init (turns 0) (Line (u" STATS "))); reflexivity|].
  apply (H2 (snd (fst (initialize (Parser.Contents Spec.malformed_file) init)))
            (turns 0) (u"hallo") (Question french_to_dutch (u"bonjour"))
            (u"hallo") french_to_dutch); reflexivity.
Defined.

(** C10.  In every reachable state of the session, and so in the state
    [main] ends with, [score] equals the correct count of the session
    statistics; the score line and the statistics block show that same
    number. *)
Theorem score_is_correct (g : QuizGame) :
  reachable g ->
  score g = correct (stats g) /\
  (forall s t c, In (OverallScore s t) (display_stats g) ->
                 In (CorrectCount c) (display_stats g) -> s = c).
Proof.
  intros Hg. pose proof (reachable_score g Hg) as E. split; [assumption|].
  intros s t c. unfold display_stats.
  destruct (total_questions g =? 0); [simpl; intuition discriminate|].
  rewrite !in_app_iff.
  destruct (0 <? d_total (st_french_to_dutch (stats g)));
    destruct (0 <? d_total (st_dutch_to_french (stats g))); simpl;
    intuition (try discriminate; congruence).
Qed.

Lemma score_is_correct_witness :
  score (snd (fst (main (Parser.Contents Spec.malformed_file) turns
                        [Types (u"hallo"); Types (u"x"); Types (u"q")])))
  = correct (stats (snd (fst (main (Parser.Contents Spec.malformed_file) turns
                        [Types (u"hallo"); Types (u"x"); Types (u"q")])))).
Proof.
  apply score_is_correct, main_reachable.
Defined.

End Driver.

(** * The pieces of a canonical answer *)

Section PiecesFacts.
Import PyStr Re Parser Spec.
Local Open Scope N_scope.

Lemma pieces_cons (c : char) (x : str) :
  pieces (c :: x) =
  if is_alt_sep c then [] :: pieces x else cons_first c (pieces x).
Proof.
  unfold pieces, is_alt_sep.
  destruct (N.eqb_spec c (ord ",")) as [->|Hc];
    [rewrite split_cons_sep; reflexivity|].
  rewrite (split_cons_other _ c x Hc).
  destruct (split (ord ",") x) as [|p ps] eqn:E;
    [now destruct (split_not_nil (ord ",") x)|].
  destruct (N.eqb_spec c (ord "/")) as [->|Hs]; cbn [flat_map orb].
  - rewrite split_cons_sep. reflexivity.
  - rewrite (split_cons_other _ c p Hs).
    destruct (split (ord "/") p) as [|q qs] eqn:E';
      [now destruct (split_not_nil (ord "/") p)|].
    reflexivity.
Qed.

Lemma pieces_not_nil (x : str) : pieces x <> [].
Proof.
  destruct x as [|c x]; [discriminate|]. rewrite pieces_cons.
  destruct (is_alt_sep c); [discriminate|].
  now destruct (pieces x).
Qed.

Lemma cons_first_app (c : char) (l1 l2 : list str) :
  l1 <> [] -> cons_first c (l1 ++ l2) = cons_first c l1 ++ l2.
Proof. now destruct l1. Qed.

Lemma pieces_app_sep (sep : char) (a b : str) :
  is_alt_sep sep = true -> pieces (a ++ sep :: b) = pieces a ++ pieces b.
Proof.
  intros Hsep. induction a as [|c a IH]; simpl app.
  - rewrite pieces_cons, Hsep. reflexivity.
  - rewrite !pieces_cons, IH. destruct (is_alt_sep c); [reflexivity|].
    apply cons_first_app, pieces_not_nil.
Qed.

Lemma length_cons_first (c : char) (l : list str) :
  l <> [] -> List.length (cons_first c l) = List.length l.
Proof. now destruct l. Qed.

Lemma count_cons (c d : char) (s : str) :
  count c (d :: s) = ((if N.eqb d c then 1 else 0) + count c s)%nat.
Proof.
  unfold count. cbn [filter]. rewrite (N.eqb_sym c d).
  now destruct (d =? c).
Qed.

Lemma length_pieces (a : str) :
  List.length (pieces a) = S (count (ord ",") a + count (ord "/") a).
Proof.
  induction a as [|c a IH]; [reflexivity|].
  rewrite pieces_cons, !count_cons. unfold is_alt_sep.
  destruct (N.eqb_spec c (ord ",")) as [->|Hc].
  - cbn [orb List.length]. rewrite IH. reflexivity.
  - destruct (N.eqb_spec c (ord "/")) as [->|Hs]; cbn [orb List.length].
    + rewrite IH. lia.
    + rewrite length_cons_first by apply pieces_not_nil. exact IH.
Qed.

Lemma candidates_pieces (a : str) :
  candidates a = map normalize_answer (pieces a).
Proof. unfold candidates, pieces. now rewrite map_flat_map. Qed.

(** The list of the code, piece by piece. *)
Lemma all_possible_pieces (a : str) :
  all_possible a = map (fun p => strip (normalize_answer p)) (pieces a).
Proof. now rewrite all_possible_candidates, candidates_pieces, map_map. Qed.

Lemma all_possible_app_sep (sep : char) (a b : str) :
  is_alt_sep sep = true ->
  all_possible (a ++ sep :: b) = all_possible a ++ all_possible b.
Proof.
  intros H. now rewrite !all_possible_pieces, pieces_app_sep, map_app.
Qed.

(** ** Case and outer white space *)

Lemma lower_idem (s : str) : lower (lower s) = lower s.
Proof. apply lower_fixed, lower_stable. Qed.

Lemma normalize_answer_lower (s : str) :
  normalize_answer (lower s) = normalize_answer s.
Proof. unfold normalize_answer. now rewrite lower_idem. Qed.

Lemma normalize_answer_padded (w1 s w2 : str) :
  blank w1 -> blank w2 ->
  normalize_answer (w1 ++ s ++ w2) = normalize_answer s.
Proof.
  intros H1 H2. unfold normalize_answer.
  now rewrite lower_padded, strip_blank_app.
Qed.

Lemma comma_not_lowered :
  forallb (fun p => negb (snd p =? ord ",")) lower_pairs = true.
Proof. vm_compute. reflexivity. Qed.

Lemma lower_char_comma (before after : str) (c : char) :
  In (ord ",") (lower_char before c after) -> c = ord ",".
Proof.
  unfold lower_char. destruct (c =? 0x3A3).
  - destruct (final_sigma before after); intros [E|[]]; discriminate E.
  - intros H. apply to_lower_full_image in H as [H|[H|[H|H]]];
      [now symmetry | discriminate H | discriminate H |].
    apply in_map_iff in H as (p & E & Hp).
    pose proof comma_not_lowered as T. rewrite forallb_forall in T.
    apply T in Hp. apply negb_true_iff, N.eqb_neq in Hp. contradiction.
Qed.

Lemma comma_separator : separator (ord ",").
Proof. apply separatorb_separator. vm_compute. reflexivity. Qed.

Lemma flat_map_ext_map {A B : Type} (f : A -> list B) (g : B -> B) (h : A -> A)
    (l : list A) :
  (forall x, f (h x) = map g (f x)) ->
  flat_map f (map h l) = map g (flat_map f l).
Proof.
  intros H. induction l as [|x l IH]; simpl; [reflexivity|].
  now rewrite map_app, H, IH.
Qed.

Lemma pieces_lower (a : str) : pieces (lower a) = map lower (pieces a).
Proof.
  unfold pieces.
  rewrite (split_lower (ord ",") comma_separator lower_char_comma).
  apply flat_map_ext_map. intros x.
  apply (split_lower (ord "/") slash_separator lower_char_slash).
Qed.

Lemma all_possible_lower (a : str) : all_possible (lower a) = all_possible a.
Proof.
  rewrite !all_possible_pieces, pieces_lower, map_map.
  apply map_ext. intros p. now rewrite normalize_answer_lower.
Qed.

Lemma blank_not_alt_sep (c : char) : isspace c = true -> is_alt_sep c = false.
Proof.
  intros H. unfold is_alt_sep.
  destruct (N.eqb_spec c (ord ",")) as [->|_]; [discriminate H|].
  destruct (N.eqb_spec c (ord "/")) as [->|_]; [discriminate H | reflexivity].
Qed.

Lemma pieces_blank_prefix {B : Type} (f : str -> B) (w t : str) :
  blank w -> (forall v x, blank v -> f (v ++ x) = f x) ->
  map f (pieces (w ++ t)) = map f (pieces t).
Proof.
  intros Hw Hf. induction Hw as [|c w Hc Hw IH]; [reflexivity|].
  simpl app. rewrite pieces_cons, (blank_not_alt_sep c Hc), <- IH.
  destruct (pieces (w ++ t)) as [|q qs] eqn:E;
    [now destruct (pieces_not_nil (w ++ t))|].
  simpl. f_equal. apply (Hf [c] q). now repeat constructor.
Qed.

Lemma pieces_blank (w : str) : blank w -> pieces w = [w].
Proof.
  induction 1 as [|c w Hc _ IH]; [reflexivity|].
  now rewrite pieces_cons, (blank_not_alt_sep c Hc), IH.
Qed.

Lemma pieces_blank_suffix {B : Type} (w t : str) :
  blank w ->
  forall f : str -> B,
    (forall x, f (x ++ w) = f x) ->
    map f (pieces (t ++ w)) = map f (pieces t).
Proof.
  intros Hw. induction t as [|c t IH]; intros f Hf.
  - simpl app. rewrite pieces_blank by assumption. simpl. f_equal. apply (Hf []).
  - simpl app. rewrite !pieces_cons. destruct (is_alt_sep c).
    + simpl. f_equal. now apply IH.
    + pose proof (IH f Hf) as T.
      pose proof (IH (fun x => f (c :: x)) (fun x => Hf (c :: x))) as H.
      destruct (pieces (t ++ w)) as [|q qs] eqn:E;
        [now destruct (pieces_not_nil (t ++ w))|].
      destruct (pieces t) as [|q' qs'] eqn:E'; [now destruct (pieces_not_nil t)|].
      simpl in *. injection T as _ T. injection H as H _. now rewrite T, H.
Qed.

Lemma all_possible_strip (a : str) : all_possible (strip a) = all_possible a.
Proof.
  rewrite !all_possible_pieces.
  destruct (strip_decomp a) as (w1 & w2 & E & H1 & H2).
  rewrite E at 2.
  rewrite (pieces_blank_prefix _ w1 _ H1).
  - rewrite (pieces_blank_suffix w2 _ H2); [reflexivity|].
    intros x. f_equal. apply (normalize_answer_padded [] x w2); [constructor | assumption].
  - intros v x Hv. f_equal. rewrite <- (app_nil_r x) at 1.
    apply normalize_answer_padded; [assumption | constructor].
Qed.

End PiecesFacts.

(** * Lines of a file *)

Section LinesFacts.
Import PyStr Parser Spec.
Local Open Scope N_scope.

Lemma str_ind2 (P : str -> Prop) :
  P [] -> (forall c, P [c]) ->
  (forall c d r, P r -> P (d :: r) -> P (c :: d :: r)) ->
  forall s, P s.
Proof.
  intros H0 H1 H2 s.
  assert (H : P s /\ forall c, P (c :: s)); [|apply H].
  induction s as [|d s [IH1 IH2]]; split; auto.
Qed.

Lemma un_cons_other (c : char) (r : str) :
  c <> CR -> universal_newlines (c :: r) = c :: universal_newlines r.
Proof. intros H. simpl. now destruct (N.eqb_spec c 0x0D). Qed.

Lemma un_cr_lf (r : str) :
  universal_newlines (CR :: LF :: r) = LF :: universal_newlines r.
Proof. reflexivity. Qed.

Lemma un_cr_other (d : char) (r : str) :
  d <> LF -> universal_newlines (CR :: d :: r) = LF :: universal_newlines (d :: r).
Proof.
  intros H. cbn [universal_newlines]. change (CR =? 0x0D) with true. cbv iota.
  now destruct (N.eqb_spec d 0x0A).
Qed.

(** The three cases of a step of [universal_newlines]. *)
Lemma un_cases (P : str -> str -> Prop) :
  P [] [] -> P [CR] [LF] ->
  (forall c r, c <> CR -> P (c :: r) (c :: universal_newlines r)) ->
  (forall r, P (CR :: LF :: r) (LF :: universal_newlines r)) ->
  (forall d r, d <> LF -> P (CR :: d :: r) (LF :: universal_newlines (d :: r))) ->
  forall t, P t (universal_newlines t).
Proof.
  intros H0 H1 H2 H3 H4 [|c r]; [exact H0|].
  destruct (N.eqb_spec c CR) as [->|Hc]; [|rewrite un_cons_other by assumption; auto].
  destruct r as [|d r]; [exact H1|].
  destruct (N.eqb_spec d LF) as [->|Hd]; [rewrite un_cr_lf; auto|].
  rewrite un_cr_other by assumption. auto.
Qed.

Lemma un_no_cr (t : str) : ~ In CR (universal_newlines t).
Proof.
  induction t as [| c | c d r IH1 IH2] using str_ind2.
  - easy.
  - simpl. destruct (N.eqb_spec c 0x0D) as [->|Hc]; simpl; intros [E|[]];
      [discriminate E | exact (Hc E)].
  - destruct (N.eqb_spec c CR) as [->|Hc].
    + destruct (N.eqb_spec d LF) as [->|Hd].
      * rewrite un_cr_lf. intros [E|H]; [discriminate E | contradiction].
      * rewrite un_cr_other by assumption. intros [E|H]; [discriminate E | contradiction].
    + rewrite un_cons_other by assumption. intros [E|H]; [congruence | contradiction].
Qed.

Lemma un_fixed (t : str) : ~ In CR t -> universal_newlines t = t.
Proof.
  induction t as [|c t IH]; intros H; [reflexivity|].
  rewrite un_cons_other by (intros ->; apply H; now left).
  rewrite IH; [reflexivity|]. intros H'. apply H. now right.
Qed.

Lemma un_idem (t : str) :
  universal_newlines (universal_newlines t) = universal_newlines t.
Proof. apply un_fixed, un_no_cr. Qed.

Lemma un_to_crlf (t : str) : ~ In CR t -> universal_newlines (to_crlf t) = t.
Proof.
  induction t as [|c t IH]; intros H; [reflexivity|].
  assert (Hc : c <> CR) by (intros ->; apply H; now left).
  assert (Ht : ~ In CR t) by (intros H'; apply H; now right).
  unfold to_crlf. cbn [flat_map]. fold (to_crlf t).
  destruct (N.eqb_spec c LF) as [->|Hl].
  - cbn [app]. rewrite un_cr_lf, IH by assumption. reflexivity.
  - cbn [app]. rewrite un_cons_other, IH by assumption. reflexivity.
Qed.

Lemma un_app_lf (x y : str) :
  universal_newlines (x ++ LF :: y) =
  universal_newlines (x ++ [LF]) ++ universal_newlines y.
Proof.
  induction x as [| c | c d r IH1 IH2] using str_ind2.
  - reflexivity.
  - destruct (N.eqb_spec c CR) as [->|Hc]; [reflexivity|].
    cbn [app]. rewrite !(un_cons_other c) by assumption. reflexivity.
  - destruct (N.eqb_spec c CR) as [->|Hc].
    + destruct (N.eqb_spec d LF) as [->|Hd]; cbn [app].
      * rewrite !un_cr_lf, IH1. reflexivity.
      * rewrite !(un_cr_other d) by assumption.
        change (d :: r ++ LF :: y) with ((d :: r) ++ LF :: y).
        rewrite IH2. reflexivity.
    + cbn [app]. rewrite !(un_cons_other c) by assumption.
      change (d :: r ++ LF :: y) with ((d :: r) ++ LF :: y).
      rewrite IH2. reflexivity.
Qed.

Lemma un_ends_lf (x : str) :
  exists z, universal_newlines (x ++ [LF]) = z ++ [LF].
Proof.
  induction x as [| c | c d r IH1 IH2] using str_ind2.
  - now exists [].
  - destruct (N.eqb_spec c CR) as [->|Hc]; [now exists []|].
    cbn [app]. rewrite un_cons_other by assumption. now exists [c].
  - destruct IH1 as (z1 & E1). destruct IH2 as (z2 & E2).
    destruct (N.eqb_spec c CR) as [->|Hc].
    + destruct (N.eqb_spec d LF) as [->|Hd]; cbn [app].
      * rewrite un_cr_lf, E1. now exists (LF :: z1).
      * rewrite un_cr_other by assumption.
        change (d :: r ++ [LF]) with ((d :: r) ++ [LF]). rewrite E2.
        now exists (LF :: z2).
    + cbn [app]. rewrite un_cons_other by assumption.
      change (d :: r ++ [LF]) with ((d :: r) ++ [LF]). rewrite E2.
      now exists (c :: z2).
Qed.

(** ** [keepends] *)

Lemma keepends_cons_lf (r : str) : keepends (LF :: r) = [LF] :: keepends r.
Proof. reflexivity. Qed.

Lemma keepends_cons_other (c : char) (r : str) :
  c <> LF ->
  keepends (c :: r) =
  match keepends r with l :: ls => (c :: l) :: ls | [] => [[c]] end.
Proof. intros H. simpl. now destruct (N.eqb_spec c 0x0A). Qed.

Lemma keepends_line (x y : str) :
  ~ In LF x -> keepends (x ++ LF :: y) = (x ++ [LF]) :: keepends y.
Proof.
  induction x as [|c x IH]; intros H; [reflexivity|].
  cbn [app]. rewrite keepends_cons_other by (intros ->; apply H; now left).
  rewrite IH by (intros H'; apply H; now right). reflexivity.
Qed.

Lemma keepends_app_lf (x y : str) :
  keepends (x ++ LF :: y) = keepends (x ++ [LF]) ++ keepends y.
Proof.
  induction x as [|c x IH]; [reflexivity|].
  cbn [app]. destruct (N.eqb_spec c LF) as [->|Hc].
  - rewrite !keepends_cons_lf, IH. reflexivity.
  - rewrite !keepends_cons_other, IH by assumption.
    destruct (keepends (x ++ [LF])) as [|l ls] eqn:E; [|reflexivity].
    exfalso. clear -E. induction x as [|d x IHx]; [discriminate E|].
    cbn [app] in E. destruct (N.eqb_spec d LF) as [->|Hd].
    + rewrite keepends_cons_lf in E. discriminate E.
    + rewrite keepends_cons_other in E by assumption.
      destruct (keepends (x ++ [LF])); [auto | discriminate E].
Qed.

Lemma readlines_app_lf (x y : str) :
  readlines ((x ++ [LF]) ++ y) = readlines (x ++ [LF]) ++ readlines y.
Proof.
  unfold readlines. rewrite <- app_assoc. cbn [app].
  rewrite un_app_lf. destruct (un_ends_lf x) as (z & ->).
  rewrite <- app_assoc. cbn [app]. apply keepends_app_lf.
Qed.

(** A line of [keepends]: not empty, without a line feed before its end. *)
Lemma keepends_shape (t l : str) :
  In l (keepends t) ->
  exists x, ~ In LF x /\ (l = x ++ [LF] \/ (l = x /\ x <> [])).
Proof.
  revert l. induction t as [|c t IH]; intros l; [easy|].
  destruct (N.eqb_spec c LF) as [->|Hc].
  - rewrite keepends_cons_lf. intros [<-|H]; [|now apply IH].
    exists []. split; [easy | now left].
  - rewrite keepends_cons_other by assumption.
    destruct (keepends t) as [|l0 ls] eqn:E.
    + intros [<-|[]]. exists [c]. split; [|right; easy].
      intros [E'|[]]. congruence.
    + intros [<-|H]; [|apply IH; now right].
      destruct (IH l0 (or_introl eq_refl)) as (x & Hx & [->|[-> _]]).
      * exists (c :: x). split; [|now left].
        intros [E'|H']; [congruence | contradiction].
      * exists (c :: x). split; [|right; easy].
        intros [E'|H']; [congruence | contradiction].
Qed.

Lemma keepends_In (t l : str) (c : char) :
  In l (keepends t) -> In c l -> In c t.
Proof.
  revert l. induction t as [|d t IH]; intros l; [easy|].
  destruct (N.eqb_spec d LF) as [->|Hd].
  - rewrite keepends_cons_lf. intros [<-|H] Hc.
    + destruct Hc as [<-|[]]. now left.
    + right. now apply (IH l).
  - rewrite keepends_cons_other by assumption.
    destruct (keepends t) as [|l0 ls] eqn:E.
    + intros [<-|[]] [<-|[]]. now left.
    + intros [<-|H] Hc.
      * destruct Hc as [<-|Hc]; [now left|]. right. apply (IH l0); [now left | assumption].
      * right. apply (IH l); [now right | assumption].
Qed.

(** The stripped form of a line read from a file holds no line break. *)
Lemma readlines_strip_clean (text l : str) :
  In l (readlines text) -> ~ In LF (strip l) /\ ~ In CR (strip l).
Proof.
  unfold readlines. intros H. split.
  - destruct (keepends_shape _ _ H) as (x & Hx & [->|[-> _]]).
    + rewrite <- (app_nil_l (x ++ [LF])), (strip_blank_app [] [LF] x);
        [|constructor | now repeat constructor].
      intros H'. apply Hx. exact (substr_In _ _ _ (substr_strip x) H').
    + intros H'. apply Hx. exact (substr_In _ _ _ (substr_strip x) H').
  - intros H'. apply (substr_In _ _ _ (substr_strip l)) in H'.
    apply (keepends_In _ _ _ H) in H'. now apply un_no_cr in H'.
Qed.

End LinesFacts.

(** * The shape of a loaded pair, and writing a corpus back *)

Section CorpusFacts.
Import PyStr Parser Spec.
Local Open Scope N_scope.

Lemma rstrip_snoc (y : str) (c : char) :
  isspace c = false -> rstrip (y ++ [c]) = y ++ [c].
Proof.
  intros Hc. unfold rstrip. rewrite rev_app_distr. simpl. rewrite Hc.
  simpl. now rewrite rev_involutive.
Qed.

Lemma lstrip_fixed_head (m : str) :
  lstrip m = m -> match m with [] => True | c :: _ => isspace c = false end.
Proof.
  destruct m as [|c r]; [easy|]. simpl. destruct (isspace c) eqn:Hc; [|easy].
  intros E. destruct (lstrip_decomp r) as (w & Er & _).
  assert (L : (List.length (lstrip r) <= List.length r)%nat).
  { rewrite Er at 2. rewrite length_app. lia. }
  rewrite E in L. simpl in L. lia.
Qed.

Lemma trimmed_last (m : str) :
  trimmed m -> m <> [] -> exists y c, m = y ++ [c] /\ isspace c = false.
Proof.
  intros [_ H] Hm. unfold rstrip in H.
  assert (H' : lstrip (rev m) = rev m) by (rewrite <- H at 2; now rewrite rev_involutive).
  apply lstrip_fixed_head in H'.
  destruct (rev m) as [|c r] eqn:E.
  - apply (f_equal (@rev char)) in E. rewrite rev_involutive in E. contradiction.
  - exists (rev r), c. split; [|assumption].
    apply (f_equal (@rev char)) in E. now rewrite rev_involutive in E.
Qed.

Lemma trimmed_app (f m d : str) :
  trimmed f -> f <> [] -> trimmed d -> d <> [] -> trimmed (f ++ m ++ d).
Proof.
  intros Hf Hf0 Hd Hd0. split.
  - destruct Hf as [Hf _]. apply lstrip_fixed_head in Hf.
    destruct f as [|c f]; [contradiction|]. simpl. now rewrite Hf.
  - destruct (trimmed_last d Hd Hd0) as (y & c & -> & Hc).
    rewrite !app_assoc. now apply rstrip_snoc.
Qed.

Lemma strip_blank_prefix (w s : str) : blank w -> strip (w ++ s) = strip s.
Proof.
  intros H. rewrite <- (app_nil_r s) at 1.
  apply strip_blank_app; [assumption | constructor].
Qed.

Lemma strip_blank_suffix (s w : str) : blank w -> strip (s ++ w) = strip s.
Proof. intros H. apply (strip_blank_app [] w s); [constructor | assumption]. Qed.

Lemma strip_fixed_trimmed (x : str) : strip x = x -> trimmed x.
Proof. intros E. rewrite <- E. apply strip_trimmed. Qed.

Lemma strip_head (c : char) (r : str) :
  isspace c = false -> exists r', strip (c :: r) = c :: r'.
Proof.
  intros Hc. unfold strip. simpl. rewrite Hc, rstrip_cons by assumption.
  now exists (rstrip r).
Qed.

(** What a data line gives is a clean pair, when the line itself holds no
    line break once stripped. *)
Lemma line_pairs_clean (l : str) (p : pair) :
  ~ In LF (strip l) -> ~ In CR (strip l) ->
  In p (line_pairs l) -> clean_pair p.
Proof.
  intros Hlf Hcr. unfold line_pairs, classify_line.
  destruct (is_empty (strip l) || startswith (ord "#") (strip l)) eqn:Hskip; [easy|].
  destruct (contains (ord "|") (strip l)) eqn:Hpipe; [|easy]. simpl negb. cbv iota.
  set (t := strip l) in *.
  destruct (is_empty (strip (before_first (ord "|") t))) eqn:Hf; [easy|].
  destruct (is_empty (strip (after_first (ord "|") t))) eqn:Hd; [easy|].
  cbn [orb]. intros [<-|[]].
  pose proof (before_after_first _ _ Hpipe) as Et.
  assert (Sf : substr (strip (before_first (ord "|") t)) t).
  { destruct (substr_strip (before_first (ord "|") t)) as (a & b & E).
    exists a, (b ++ ord "|" :: after_first (ord "|") t).
    rewrite Et at 1. rewrite E at 1. now rewrite <- !app_assoc. }
  assert (Sd : substr (strip (after_first (ord "|") t)) t).
  { destruct (substr_strip (after_first (ord "|") t)) as (a & b & E).
    exists (before_first (ord "|") t ++ ord "|" :: a), b.
    rewrite Et at 1. rewrite E at 1. rewrite <- !app_assoc. reflexivity. }
  unfold clean_pair, clean_side. cbn [fst snd].
  repeat split.
  - intros E. now rewrite E in Hf.
  - apply strip_idem.
  - intros H. exact (Hlf (substr_In _ _ _ Sf H)).
  - intros H. exact (Hcr (substr_In _ _ _ Sf H)).
  - intros E. now rewrite E in Hd.
  - apply strip_idem.
  - intros H. exact (Hlf (substr_In _ _ _ Sd H)).
  - intros H. exact (Hcr (substr_In _ _ _ Sd H)).
  - intros H. apply (substr_In _ _ _ (substr_strip _)) in H.
    now apply before_first_clean in H.
  - apply orb_false_iff in Hskip as [He Hh].
    pose proof (strip_trimmed l) as [Ht _]. fold t in Ht.
    apply lstrip_fixed_head in Ht.
    destruct t as [|c r]; [discriminate He|].
    cbn [before_first] in *. cbn [startswith] in Hh.
    destruct (N.eqb_spec c (ord "|")) as [->|Hc]; [discriminate Hf|].
    destruct (strip_head c (before_first (ord "|") r) Ht) as (r' & ->).
    exact Hh.
Qed.

Lemma valid_pairs_clean (text : str) :
  Forall clean_pair (valid_pairs (readlines text)).
Proof.
  apply Forall_forall. intros p Hp. unfold valid_pairs in Hp.
  apply in_flat_map in Hp as (l & Hl & Hp).
  destruct (readlines_strip_clean text l Hl) as [H1 H2].
  exact (line_pairs_clean l p H1 H2 Hp).
Qed.

Lemma strip_render_line (p : pair) :
  clean_pair p -> strip (render_line p) = fst p ++ u" | " ++ snd p.
Proof.
  intros ((Hf0 & Hf & _) & (Hd0 & Hd & _) & _). unfold render_line.
  replace (fst p ++ u" | " ++ snd p ++ [LF])
    with ((fst p ++ u" | " ++ snd p) ++ [LF])
    by now rewrite <- !app_assoc.
  rewrite strip_blank_suffix by now repeat constructor.
  apply trimmed_strip, trimmed_app; auto using strip_fixed_trimmed.
Qed.

Lemma render_line_loads (pairs : list pair) (out : list message) (n : nat) (p : pair) :
  clean_pair p -> load_line (pairs, out) n (render_line p) = (pairs ++ [p], out).
Proof.
  intros Hp. pose proof (strip_render_line p Hp) as E.
  destruct Hp as ((Hf0 & Hf & _) & (Hd0 & Hd & _) & Hpipe & Hhash).
  destruct p as [f d]. cbn [fst snd] in *.
  rewrite (load_line_data pairs out n _ (f ++ u" ") (u" " ++ d)).
  - rewrite (strip_blank_suffix f (u" ")), (strip_blank_prefix (u" ") d)
      by now repeat constructor.
    rewrite Hf, Hd. destruct f; [contradiction|]. destruct d; [contradiction|].
    reflexivity.
  - rewrite E. destruct f; [contradiction | exact Hhash].
  - rewrite E, <- app_assoc. reflexivity.
  - rewrite in_app_iff. intros [H|[H|[]]]; [contradiction | discriminate H].
Qed.

Lemma render_body_In (c : char) (p : pair) :
  In c (fst p ++ u" | " ++ snd p) ->
  In c (fst p) \/ c = ord " " \/ c = ord "|" \/ In c (snd p).
Proof.
  rewrite !in_app_iff. intros [H|[H|H]]; auto.
  change (u" | ") with [ord " "; ord "|"; ord " "] in H.
  destruct H as [H|[H|[H|[]]]]; auto.
Qed.

Lemma render_line_body (p : pair) :
  render_line p = (fst p ++ u" | " ++ snd p) ++ [LF].
Proof. unfold render_line. now rewrite <- !app_assoc. Qed.

Lemma render_no_cr (pairs : list pair) :
  Forall clean_pair pairs -> ~ In CR (render pairs).
Proof.
  induction 1 as [|p ps Hp _ IH]; [easy|].
  destruct Hp as ((_ & _ & _ & Hf) & (_ & _ & _ & Hd) & _).
  unfold render. cbn [flat_map]. fold (render ps).
  rewrite render_line_body. intros H.
  apply in_app_or in H as [H|H]; [|contradiction].
  apply in_app_or in H as [H|[H|[]]]; [|discriminate H].
  apply render_body_In in H as [H|[H|[H|H]]];
    [contradiction | discriminate H | discriminate H | contradiction].
Qed.

Lemma readlines_render (pairs : list pair) :
  Forall clean_pair pairs -> readlines (render pairs) = map render_line pairs.
Proof.
  intros H. unfold readlines. rewrite un_fixed by now apply render_no_cr.
  induction H as [|p ps Hp _ IH]; [reflexivity|].
  unfold render. cbn [flat_map map]. fold (render ps).
  destruct Hp as ((_ & _ & Hf & _) & (_ & _ & Hd & _) & _).
  rewrite render_line_body, <- app_assoc. cbn [app].
  rewrite keepends_line, IH; [reflexivity|].
  intros H. apply render_body_In in H as [H|[H|[H|H]]];
    [contradiction | discriminate H | discriminate H | contradiction].
Qed.

Lemma load_lines_render (ps : list pair) :
  Forall clean_pair ps ->
  forall pairs out n,
    load_lines (pairs, out) n (map render_line ps) = (pairs ++ ps, out).
Proof.
  induction 1 as [|p ps Hp _ IH]; intros pairs out n; cbn [map load_lines].
  - now rewrite app_nil_r.
  - rewrite render_line_loads by assumption. rewrite IH, <- app_assoc. reflexivity.
Qed.

(** ** Every line is counted once *)

Lemma load_lines_count (lines : list str) :
  forall pairs out n,
    let '(pairs', out') := load_lines (pairs, out) n lines in
    (List.length pairs' + List.length (filter is_warning out')
     = List.length pairs + List.length (filter is_warning out)
       + List.length (filter (fun l => negb (is_comment l)) lines))%nat.
Proof.
  induction lines as [|l lines IH]; intros pairs out n; cbn [load_lines filter].
  - simpl. lia.
  - assert (H : exists pairs1 out1,
      load_line (pairs, out) n l = (pairs1, out1) /\
      (List.length pairs1 + List.length (filter is_warning out1)
       = List.length pairs + List.length (filter is_warning out)
         + (if is_comment l then 0 else 1))%nat).
    { unfold load_line, is_comment.
      destruct (is_empty (strip l) || startswith (ord "#") (strip l)).
      - exists pairs, out. split; [reflexivity | lia].
      - destruct (contains (ord "|") (strip l)) eqn:Hc.
        + rewrite split1_first by assumption.
          destruct (negb (is_empty (strip (before_first (ord "|") (strip l))))
                    && negb (is_empty (strip (after_first (ord "|") (strip l))))).
          * eexists _, _. split; [reflexivity|]. rewrite length_app. simpl. lia.
          * eexists _, _. split; [reflexivity|].
            rewrite filter_app, length_app. simpl. lia.
        + eexists _, _. split; [reflexivity|].
          rewrite filter_app, length_app. simpl. lia. }
    destruct H as (pairs1 & out1 & -> & E).
    specialize (IH pairs1 out1 (S n)).
    destruct (load_lines (pairs1, out1) (S n) lines) as [pairs' out'].
    destruct (is_comment l); simpl; lia.
Qed.

End CorpusFacts.

(** * [clean_text] *)

Section CleanText.
Import PyStr Re Parser.
Local Open Scope N_scope.

Lemma collapse_from_snoc (b : bool) (y : str) (c : char) :
  isspace c = false -> collapse_from b (y ++ [c]) = collapse_from b y ++ [c].
Proof.
  intros Hc. revert b. induction y as [|d y IH]; intros b; simpl.
  - now rewrite Hc.
  - destruct (isspace d); [destruct b|]; now rewrite IH.
Qed.

Lemma collapse_ws_trimmed (m : str) : trimmed m -> trimmed (collapse_ws m).
Proof.
  intros Hm. destruct m as [|c0 r0] eqn:Em; [split; reflexivity|].
  rewrite <- Em in *. assert (Hm0 : m <> []) by (rewrite Em; discriminate).
  split.
  - destruct Hm as [H _]. apply lstrip_fixed_head in H. rewrite Em in *.
    unfold collapse_ws. simpl. rewrite H. simpl. now rewrite H.
  - destruct (trimmed_last m Hm Hm0) as (y & c & -> & Hc).
    unfold collapse_ws. rewrite collapse_from_snoc by assumption.
    now apply rstrip_snoc.
Qed.

Lemma collapse_ws_idem (z : str) : collapse_ws (collapse_ws z) = collapse_ws z.
Proof. apply collapse_from_fixed, collapse_from_ws_ok. Qed.

(** Stripping and collapsing in either order. *)
Lemma clean_text_canon (z : str) : clean_text z = strip (collapse_ws z).
Proof.
  unfold clean_text.
  destruct (strip_decomp z) as (w1 & w2 & E & H1 & H2).
  rewrite E at 2. rewrite strip_collapse_padded by assumption.
  rewrite <- (strip_collapse_padded [] (strip z) []) by constructor.
  rewrite app_nil_r. cbn [app].
  symmetry. apply trimmed_strip, collapse_ws_trimmed, strip_trimmed.
Qed.

End CleanText.

(** * What the session prints *)

Section TranscriptFacts.
Import PyStr Quiz.

Lemma consistent_init : consistent init.
Proof. split; [unfold conserved; simpl; lia | reflexivity]. Qed.

Lemma consistent_grade (d : direction) (ok : bool) (g : QuizGame) :
  consistent g -> consistent (grade d ok g).
Proof. intros [H1 H2]. split; [now apply grade_conserved | now apply grade_score]. Qed.

Lemma consistent_after_ask (g : QuizGame) (draw : nat * bool) (inp : input_result) :
  consistent g -> consistent (after_ask g draw inp).
Proof.
  intros H. destruct (ask_question_step g draw inp) as [->|(d & ok & ->)];
    [assumption | now apply consistent_grade].
Qed.

Lemma consistent_initialize (r : Parser.read_result) (g : QuizGame) :
  consistent g -> consistent (snd (fst (initialize r g))).
Proof.
  intros [H1 H2]. destruct (initialize_counters r g) as (E1 & E2 & E3).
  split; [unfold conserved in *; now rewrite E2, E3 | now rewrite E1, E3].
Qed.

Lemma display_stats_sound (g : QuizGame) :
  consistent g -> Forall sound_output (display_stats g).
Proof.
  intros [(H1 & H2 & H3 & H4) H5]. unfold display_stats.
  destruct (Nat.eqb_spec (total_questions g) 0) as [E|E];
    [repeat constructor|].
  apply Forall_app. split; [|apply Forall_app; split].
  - repeat constructor; simpl; lia.
  - destruct (Nat.ltb_spec 0 (d_total (st_french_to_dutch (stats g))));
      repeat constructor; simpl; lia.
  - destruct (Nat.ltb_spec 0 (d_total (st_dutch_to_french (stats g))));
      repeat constructor; simpl; lia.
Qed.

Lemma display_final_results_sound (g : QuizGame) :
  consistent g -> Forall sound_output (display_final_results g).
Proof.
  intros [(H1 & H2 & H3 & H4) H5]. unfold display_final_results.
  destruct (Nat.eqb_spec (total_questions g) 0) as [E|E];
    repeat constructor; simpl; lia.
Qed.

Lemma grade_total (d : direction) (ok : bool) (g : QuizGame) :
  total_questions (grade d ok g) = total_questions g + 1.
Proof. now destruct d, ok. Qed.

Lemma ask_question_sound (g : QuizGame) (draw : nat * bool) (inp : input_result) :
  consistent g -> Forall sound_output (snd (ask_question g draw inp)).
Proof.
  intros Hg. unfold ask_question.
  destruct (generate_question g draw) as [[[q answer] d]|] eqn:Hq; [|constructor].
  assert (Q : sound_output q).
  { unfold generate_question in Hq.
    destruct (random_choice (fst draw) (vocabulary_pairs g)) as [[f du]|]; [|discriminate].
    destruct (snd draw); injection Hq as <- _ _; exact I. }
  destruct inp as [l| |]; cbn [snd]; try (repeat constructor; assumption).
  destruct (mem (lower (strip l)) quit_commands); cbn [snd];
    [repeat constructor; assumption|].
  destruct (mem (lower (strip l)) stats_commands); cbn [snd].
  { apply Forall_app. split; [repeat constructor; assumption|].
    now apply display_stats_sound. }
  destruct (is_empty (strip l)); cbn [snd]; [repeat constructor; assumption|].
  pose proof (consistent_grade d (Parser.check_answer (strip l) answer) g Hg)
    as [(H1 & _) H5].
  pose proof (grade_total d (Parser.check_answer (strip l) answer) g) as Ht.
  unfold grade in *.
  destruct (Parser.check_answer (strip l) answer); cbn [snd];
    (apply Forall_app; split; [repeat constructor; assumption|]);
    repeat constructor; cbn [sound_output]; lia.
Qed.

(** A property of the output that the pieces of the loop have holds of the
    output of the loop, along an invariant of the game. *)
Lemma loop_output (Inv : QuizGame -> Prop) (P : output -> Prop)
    (rand : nat -> nat * bool) :
  (forall g draw inp, Inv g -> Inv (after_ask g draw inp)) ->
  (forall g draw inp, Inv g -> Forall P (snd (ask_question g draw inp))) ->
  (forall g, Inv g -> Forall P (display_stats g)) ->
  (forall t, P (Completed t)) ->
  forall bound events n g,
    List.length events <= bound -> Inv g ->
    Inv (snd (fst (loop rand n events g))) /\
    Forall P (snd (loop rand n events g)).
Proof.
  intros Hstep Hask Hstats Hdone.
  induction bound as [|bound IH]; intros events n g Hlen Hg.
  - destruct events; [|simpl in Hlen; lia]. cbn [loop].
    pose proof (Hstep g (rand n) EndOfFile Hg) as S1.
    pose proof (Hask g (rand n) EndOfFile Hg) as S2. unfold after_ask in S1.
    destruct (ask_question g (rand n) EndOfFile) as [[r g'] out].
    now destruct r.
  - destruct events as [|e rest]; cbn [loop].
    + pose proof (Hstep g (rand n) EndOfFile Hg) as S1.
      pose proof (Hask g (rand n) EndOfFile Hg) as S2. unfold after_ask in S1.
      destruct (ask_question g (rand n) EndOfFile) as [[r g'] out].
      now destruct r.
    + pose proof (Hstep g (rand n) (input_of e) Hg) as S1.
      pose proof (Hask g (rand n) (input_of e) Hg) as S2. unfold after_ask in S1.
      destruct (ask_question g (rand n) (input_of e)) as [[r g'] out].
      cbn [fst snd] in S1, S2. simpl in Hlen.
      destruct r as [[|]|x]; try (split; assumption).
      assert (S3 : Forall P (out ++ [Completed (total_questions g')])).
      { apply Forall_app. split; [assumption | now repeat constructor]. }
      destruct ((0 <? total_questions g') && (total_questions g' mod 5 =? 0)).
      * destruct rest as [|[l'|] rest']; try (split; assumption).
        destruct (mem (strip (lower l')) stop_commands); [split; assumption|].
        destruct (IH rest' (S n) g') as [I1 I2]; [simpl in Hlen; lia | assumption |].
        destruct (loop rand (S n) rest' g') as [[r' g''] out'].
        cbn [fst snd] in *. split; [assumption|].
        apply Forall_app. split; [|assumption].
        destruct (mem (strip (lower l')) stats_commands); [|assumption].
        apply Forall_app. split; [assumption | now apply Hstats].
      * destruct (IH rest (S n) g') as [I1 I2]; [lia | assumption |].
        destruct (loop rand (S n) rest g') as [[r' g''] out'].
        cbn [fst snd] in *. split; [assumption|].
        apply Forall_app. now split.
Qed.

Lemma initialize_output (P : output -> Prop) (r : Parser.read_result) (g : QuizGame) :
  P Banner -> (forall m, P (FromParser m)) -> P LoadFailed -> P NoPairsFound ->
  (forall n, P (LoadedCount n)) ->
  Forall P (snd (initialize r g)).
Proof.
  intros H1 H2 H3 H4 H5. unfold initialize.
  destruct (Parser.load_vocabulary r (parser g)) as [[ok p] msgs].
  assert (Hm : Forall P (Banner :: map FromParser msgs)).
  { constructor; [assumption|]. apply Forall_forall. intros o Ho.
    apply in_map_iff in Ho as (m & <- & _). apply H2. }
  destruct ok; cbn [negb]; cbv iota.
  - destruct (is_nil _); cbn [snd]; apply Forall_app; split;
      try assumption; now repeat constructor.
  - cbn [snd]. apply Forall_app. split; [assumption | now repeat constructor].
Qed.

(** [main] as [initialize], the loop and the final results. *)
Lemma main_output_parts (P : output -> Prop) (Inv : QuizGame -> Prop)
    (r : Parser.read_result) (rand : nat -> nat * bool) (events : list event) :
  Inv init ->
  (forall g, Inv g -> Inv (snd (fst (initialize r g)))) ->
  (forall g draw inp, Inv g -> Inv (after_ask g draw inp)) ->
  Forall P (snd (initialize r init)) ->
  (forall g draw inp, Inv g -> Forall P (snd (ask_question g draw inp))) ->
  (forall g, Inv g -> Forall P (display_stats g)) ->
  (forall g, Inv g -> Forall P (display_final_results g)) ->
  (forall t, P (Completed t)) -> P Welcome -> P Interrupted ->
  Forall P (main_output r rand events).
Proof.
  intros I0 I1 I2 P1 P2 P3 P4 P5 P6 P7. unfold main_output, main, run.
  specialize (I1 init I0).
  destruct (initialize r init) as [[ok g] out]. cbn [fst snd] in *.
  destruct ok; cbn [negb]; cbv iota; [|assumption].
  destruct (loop_output Inv P rand I2 P2 P3 P5 _ events 0 g (le_n _) I1) as [J1 J2].
  destruct (loop rand 0 events g) as [[res g'] out']. cbn [fst snd] in *.
  assert (F : Forall P (display_final_results g')) by now apply P4.
  assert (W : Forall P (out ++ display_welcome)).
  { apply Forall_app. split; [assumption | now repeat constructor]. }
  destruct res as [?|[| |]]; cbn [snd];
    repeat (apply Forall_app; split); try assumption; now repeat constructor.
Qed.

End TranscriptFacts.

Section SessionMore.
Import PyStr Quiz.

Lemma display_stats_no_final (g : QuizGame) :
  Forall (fun o => is_final_header o = false) (display_stats g).
Proof.
  unfold display_stats. destruct (total_questions g =? 0); [now repeat constructor|].
  destruct (0 <? d_total (st_french_to_dutch (stats g)));
    destruct (0 <? d_total (st_dutch_to_french (stats g)));
    now repeat constructor.
Qed.

Lemma ask_question_no_final (g : QuizGame) (draw : nat * bool) (inp : input_result) :
  Forall (fun o => is_final_header o = false) (snd (ask_question g draw inp)).
Proof.
  unfold ask_question.
  destruct (generate_question g draw) as [[[q answer] d]|] eqn:Hq; [|constructor].
  assert (Q : is_final_header q = false).
  { unfold generate_question in Hq.
    destruct (random_choice (fst draw) (vocabulary_pairs g)) as [[f du]|]; [|discriminate].
    destruct (snd draw); injection Hq as <- _ _; reflexivity. }
  destruct inp as [l| |]; cbn [snd]; try (now repeat constructor).
  destruct (mem (lower (strip l)) quit_commands); cbn [snd];
    [now repeat constructor|].
  destruct (mem (lower (strip l)) stats_commands); cbn [snd].
  { apply Forall_app. split; [now repeat constructor | apply display_stats_no_final]. }
  destruct (is_empty (strip l)); cbn [snd]; [now repeat constructor|].
  destruct (Parser.check_answer (strip l) answer); cbn [snd];
    now repeat constructor.
Qed.

Lemma filter_none {A : Type} (f : A -> bool) (l : list A) :
  Forall (fun x => f x = false) l -> filter f l = [].
Proof. induction 1 as [|x l Hx _ IH]; simpl; [reflexivity | now rewrite Hx]. Qed.

Lemma display_final_results_header (g : QuizGame) :
  filter is_final_header (display_final_results g) = [FinalHeader].
Proof. unfold display_final_results. now destruct (total_questions g =? 0). Qed.

(** The output of [main]: what comes before the final results holds no
    final header, and the final results are those of the last game. *)
Lemma main_output_split (r : Parser.read_result) (rand : nat -> nat * bool)
    (events : list event) :
  exists pre,
    Forall (fun o => is_final_header o = false) pre /\
    main_output r rand events =
      pre ++ (if initialized r
              then display_final_results (main_game r rand events) else []).
Proof.
  unfold main_output, main_game, initialized, main, run.
  pose proof (initialize_output (fun o => is_final_header o = false) r init
                eq_refl (fun _ => eq_refl) eq_refl eq_refl (fun _ => eq_refl)) as Hi.
  destruct (initialize r init) as [[ok g] out]. cbn [fst snd] in *.
  destruct ok; cbn [negb]; cbv iota.
  2:{ exists out. split; [assumption | now rewrite app_nil_r]. }
  destruct (loop_output (fun _ => True) (fun o => is_final_header o = false) rand
              (fun _ _ _ _ => I)
              (fun g draw inp _ => ask_question_no_final g draw inp)
              (fun g _ => display_stats_no_final g)
              (fun _ => eq_refl) _ events 0 g (le_n _) I) as [_ Hl].
  destruct (loop rand 0 events g) as [[res g'] out']. cbn [fst snd] in *.
  assert (W : Forall (fun o => is_final_header o = false) (out ++ display_welcome)).
  { apply Forall_app. split; [assumption | now repeat constructor]. }
  destruct res as [?|[| |]]; cbn [fst snd].
  2:{ exists ((out ++ display_welcome) ++ out' ++ [Interrupted]). split.
      - repeat (apply Forall_app; split); try assumption; now repeat constructor.
      - now rewrite <- !app_assoc. }
  all: exists ((out ++ display_welcome) ++ out'); split;
    [apply Forall_app; now split | now rewrite <- !app_assoc].
Qed.

Lemma after_ask_total (g : QuizGame) (draw : nat * bool) (inp : input_result) :
  total_questions (after_ask g draw inp) <= total_questions g + 1.
Proof.
  destruct (ask_question_step g draw inp) as [->|(d & ok & ->)];
    [lia | rewrite grade_total; lia].
Qed.

Lemma loop_total (rand : nat -> nat * bool) (bound : nat) :
  forall events n g,
    List.length events <= bound ->
    total_questions (snd (fst (loop rand n events g)))
    <= total_questions g + List.length events.
Proof.
  induction bound as [|bound IH]; intros events n g Hlen.
  - destruct events; [|simpl in Hlen; lia]. cbn [loop].
    pose proof (ask_question_not_graded g (rand n) EndOfFile I) as E.
    unfold after_ask in E.
    destruct (ask_question g (rand n) EndOfFile) as [[r g'] out].
    cbn [fst snd] in *. subst g'. destruct r; simpl; lia.
  - destruct events as [|e rest]; cbn [loop].
    + pose proof (ask_question_not_graded g (rand n) EndOfFile I) as E.
      unfold after_ask in E.
      destruct (ask_question g (rand n) EndOfFile) as [[r g'] out].
      cbn [fst snd] in *. subst g'. destruct r; simpl; lia.
    + pose proof (after_ask_total g (rand n) (input_of e)) as T.
      unfold after_ask in T.
      destruct (ask_question g (rand n) (input_of e)) as [[r g'] out].
      cbn [fst snd] in T. simpl in Hlen. cbn [List.length].
      destruct r as [[|]|x]; cbn [fst snd]; try lia.
      destruct ((0 <? total_questions g') && (total_questions g' mod 5 =? 0)).
      * destruct rest as [|[l'|] rest']; cbn [fst snd List.length]; try lia.
        destruct (mem (strip (lower l')) stop_commands); cbn [fst snd]; [lia|].
        specialize (IH rest' (S n) g').
        destruct (loop rand (S n) rest' g') as [[r' g''] out'].
        cbn [fst snd] in *. simpl in Hlen.
        assert (total_questions g'' <= total_questions g' + List.length rest') by (apply IH; lia).
        lia.
      * specialize (IH rest (S n) g').
        destruct (loop rand (S n) rest g') as [[r' g''] out'].
        cbn [fst snd] in *.
        assert (total_questions g'' <= total_questions g' + List.length rest) by (apply IH; lia).
        lia.
Qed.

Lemma load_vocabulary_ok_pairs (r : Parser.read_result) (p : Parser.VocabularyParser) :
  fst (fst (Parser.load_vocabulary r p)) = true ->
  Parser.vocabulary_pairs (snd (fst (Parser.load_vocabulary r p))) <> [].
Proof.
  destruct r as [| | |text]; try discriminate. unfold Parser.load_vocabulary.
  destruct (Parser.load_lines ([], []) 1 (Parser.readlines text)) as [pairs out].
  cbn [fst snd Parser.vocabulary_pairs]. now destruct pairs.
Qed.

End SessionMore.

Section LoaderMore.
Import PyStr Parser Spec.

Lemma load_vocabulary_any (text : str) (self : VocabularyParser) :
  exists msgs,
    load_vocabulary (Contents text) self =
      (0 <? List.length (valid_pairs (readlines text)),
       mkParser (filename self) (valid_pairs (readlines text)),
       msgs ++ [LoadedPairs (List.length (valid_pairs (readlines text)))]) /\
    flat_map warned_line msgs = malformed_lines 1 (readlines text).
Proof.
  unfold load_vocabulary.
  destruct (load_lines_spec (readlines text) [] [] 1) as (msgs & E & W).
  rewrite E. simpl. now exists msgs.
Qed.

Lemma all_possible_nil : all_possible [] = [[]].
Proof. vm_compute. reflexivity. Qed.

End LoaderMore.

Section SelfTestFacts.
Import PyStr Parser SelfTest.

Lemma verdicts_app (a b : list test_output) : verdicts (a ++ b) = verdicts a ++ verdicts b.
Proof. apply flat_map_app. Qed.

Lemma shown_pairs_app (a b : list test_output) :
  shown_pairs (a ++ b) = shown_pairs a ++ shown_pairs b.
Proof. apply flat_map_app. Qed.

Lemma verdicts_loader (msgs : list message) : verdicts (map FromLoader msgs) = [].
Proof. induction msgs; [reflexivity | assumption]. Qed.

Lemma shown_pairs_loader (msgs : list message) : shown_pairs (map FromLoader msgs) = [].
Proof. induction msgs; [reflexivity | assumption]. Qed.

Lemma verdicts_pair_lines (l : list (nat * pair)) :
  verdicts (map (fun '(i, (french, dutch)) => PairLine (i + 1) french dutch) l) = [].
Proof. induction l as [|[i [f d]] l IH]; [reflexivity | assumption]. Qed.

Lemma shown_pairs_pair_lines (i : nat) (l : list pair) :
  shown_pairs (map (fun '(i, (french, dutch)) => PairLine (i + 1) french dutch)
                   (enumerate i l))
  = enumerate (i + 1) l.
Proof.
  revert i. induction l as [|[f d] l IH]; intros i; [reflexivity|].
  cbn [enumerate map]. unfold shown_pairs in *. cbn [flat_map app].
  f_equal. exact (IH (S i)).
Qed.

End SelfTestFacts.

(** * Further properties of the matcher *)

Section MatcherMore.
Import PyStr Re Parser.
Local Open Scope N_scope.

(** X1.  A normalized answer is left unchanged by lower-casing, by the
    removal of punctuation and by the collapse of white space; normalizing
    it again only strips it, and a third pass changes nothing more. *)
Theorem normalize_answer_again (s : str) :
  lower (normalize_answer s) = normalize_answer s /\
  remove_punct (normalize_answer s) = normalize_answer s /\
  collapse_ws (normalize_answer s) = normalize_answer s /\
  normalize_answer (normalize_answer s) = strip (normalize_answer s) /\
  normalize_answer (normalize_answer (normalize_answer s))
    = normalize_answer (normalize_answer s).
Proof.
  pose proof (normalize_answer_normal s) as Hn.
  pose proof (normalize_answer_of_normal _ Hn) as E.
  destruct Hn as (H1 & H2 & H3).
  split; [now apply lower_fixed|].
  split; [now apply remove_punct_fixed|].
  split; [now apply collapse_from_fixed|].
  split; [exact E|].
  rewrite E, normalize_answer_strip. exact E.
Qed.

(** X2.  The verdict of [check_answer] does not depend on the case of either
    argument, nor on white space around either of them. *)
Theorem check_answer_insensitive (user_answer correct_answer : str) :
  check_answer (lower user_answer) correct_answer
    = check_answer user_answer correct_answer /\
  check_answer user_answer (lower correct_answer)
    = check_answer user_answer correct_answer /\
  check_answer (strip user_answer) correct_answer
    = check_answer user_answer correct_answer /\
  check_answer user_answer (strip correct_answer)
    = check_answer user_answer correct_answer /\
  (forall w1 w2, blank w1 -> blank w2 ->
     check_answer (w1 ++ user_answer ++ w2) correct_answer
     = check_answer user_answer correct_answer).
Proof.
  unfold check_answer.
  rewrite normalize_answer_lower, all_possible_lower, normalize_answer_strip,
    all_possible_strip.
  repeat split. intros w1 w2 H1 H2. now rewrite normalize_answer_padded.
Qed.

(** X3.  Alternatives are judged one by one: an answer is accepted for two
    canonical answers joined by a comma or by a slash exactly when it is
    accepted for one of them. *)
Theorem check_answer_alternatives (user_answer a b : str) :
  check_answer user_answer (a ++ ord "," :: b)
    = check_answer user_answer a || check_answer user_answer b /\
  check_answer user_answer (a ++ ord "/" :: b)
    = check_answer user_answer a || check_answer user_answer b.
Proof.
  unfold check_answer, mem.
  rewrite !all_possible_app_sep by reflexivity.
  now rewrite existsb_app.
Qed.

(** X4.  The candidate list has one entry per alternative: one more than
    the number of commas and slashes of the canonical answer. *)
Theorem all_possible_length (correct_answer : str) :
  List.length (all_possible correct_answer)
  = S (count (ord ",") correct_answer + count (ord "/") correct_answer).
Proof. now rewrite all_possible_pieces, length_map, length_pieces. Qed.

(** X5.  The two normalization passes of [check_answer] amount to one: each
    candidate is [clean_text] of a piece of the canonical answer, lower-cased
    and without its punctuation. *)
Theorem all_possible_clean_text (correct_answer : str) :
  all_possible correct_answer
  = map (fun piece => clean_text (remove_punct (lower piece)))
        (pieces correct_answer).
Proof.
  rewrite all_possible_pieces. apply map_ext. intros p.
  now rewrite strip_normalize_answer, clean_text_canon.
Qed.

(** X6.  An answer that normalizes to the empty string (punctuation only,
    say) is accepted whenever the canonical answer starts or ends with a
    comma or a slash. *)
Theorem check_answer_empty_alternative (user_answer a : str) :
  normalize_answer user_answer = [] ->
  check_answer user_answer (a ++ [ord ","]) = true /\
  check_answer user_answer (a ++ [ord "/"]) = true /\
  check_answer user_answer (ord "," :: a) = true /\
  check_answer user_answer (ord "/" :: a) = true.
Proof.
  intros E. unfold check_answer. rewrite E.
  assert (Hs : forall sep, is_alt_sep sep = true ->
            In [] (all_possible (a ++ [sep])) /\ In [] (all_possible (sep :: a))).
  { intros sep Hsep. split.
    - rewrite (all_possible_app_sep sep a [] Hsep), all_possible_nil.
      apply in_or_app. right. now left.
    - change (sep :: a) with ([] ++ sep :: a).
      rewrite (all_possible_app_sep sep [] a Hsep), all_possible_nil. now left. }
  repeat split; apply mem_In, Hs; reflexivity.
Qed.

Lemma check_answer_empty_alternative_witness :
  check_answer (u"?!") (u"de hond" ++ [ord ","]) = true.
Proof.
  destruct (check_answer_empty_alternative (u"?!") (u"de hond")) as (H & _);
    [reflexivity | exact H].
Defined.

(** X7.  [clean_text] gives a string without white space at its ends and
    with single spaces inside, which it leaves unchanged; it ignores white
    space around its argument, and stripping before collapsing gives what
    collapsing before stripping gives. *)
Theorem clean_text_idempotent (text : str) :
  clean_text (clean_text text) = clean_text text /\
  strip (clean_text text) = clean_text text /\
  collapse_ws (clean_text text) = clean_text text /\
  clean_text (strip text) = clean_text text /\
  clean_text text = strip (collapse_ws text).
Proof.
  assert (S : strip (clean_text text) = clean_text text).
  { apply trimmed_strip, collapse_ws_trimmed, strip_trimmed. }
  assert (C : collapse_ws (clean_text text) = clean_text text)
    by apply collapse_ws_idem.
  split; [unfold clean_text at 1; now rewrite S, C|].
  split; [exact S|]. split; [exact C|].
  split; [unfold clean_text; now rewrite strip_idem | apply clean_text_canon].
Qed.

End MatcherMore.

(** * Further properties of the loader *)

Section LoaderMore.
Import PyStr Parser Spec.
Local Open Scope N_scope.

(** X8.  Whatever the file, both sides of every loaded pair are non-empty,
    without white space at their ends and without a line break, and the
    French side holds no pipe and does not start with [#]. *)
Theorem loaded_pairs_clean (text : str) (self : VocabularyParser) :
  Forall clean_pair
    (get_vocabulary_pairs (snd (fst (load_vocabulary (Contents text) self)))).
Proof.
  destruct (load_vocabulary_any text self) as (msgs & -> & _).
  apply valid_pairs_clean.
Qed.

(** X9.  Writing the loaded pairs back, one line [french | dutch] each, and
    loading that file gives the same pairs in the same order, without a
    warning. *)
Theorem load_vocabulary_round_trip (text file : str) (self : VocabularyParser) :
  let pairs := get_vocabulary_pairs (snd (fst (load_vocabulary (Contents text) self))) in
  load_vocabulary (Contents (render pairs)) (init file)
  = ((0 <? List.length pairs)%nat, mkParser file pairs,
     [LoadedPairs (List.length pairs)]).
Proof.
  pose proof (loaded_pairs_shape := valid_pairs_clean text).
  destruct (load_vocabulary_any text self) as (msgs & -> & _).
  cbn [fst snd get_vocabulary_pairs vocabulary_pairs]. cbv zeta.
  unfold load_vocabulary.
  rewrite readlines_render, load_lines_render by assumption.
  reflexivity.
Qed.

(** X10.  Every line of the file is accounted for once: the number of pairs
    plus the number of warnings is the number of lines that are neither
    empty once stripped nor comments; the flag tells whether there is a
    pair, and the last message gives their number. *)
Theorem load_vocabulary_accounts (text : str) (self : VocabularyParser) :
  let '(ok, p, out) := load_vocabulary (Contents text) self in
  (get_vocabulary_count p + List.length (filter is_warning out)
   = List.length (filter (fun l => negb (is_comment l)) (readlines text)))%nat /\
  ok = (0 <? get_vocabulary_count p)%nat /\
  last out ErrorLoading = LoadedPairs (get_vocabulary_count p).
Proof.
  unfold load_vocabulary.
  pose proof (load_lines_count (readlines text) [] [] 1%nat) as H.
  destruct (load_lines ([], []) 1 (readlines text)) as [pairs out].
  unfold get_vocabulary_count. cbn [vocabulary_pairs].
  split; [|split; [reflexivity | apply last_last]].
  rewrite filter_app, length_app. simpl in *. lia.
Qed.

(** X11.  A file written with CR LF line endings loads as the same file
    with LF line endings. *)
Theorem load_vocabulary_crlf (text : str) (self : VocabularyParser) :
  contains CR text = false ->
  load_vocabulary (Contents (to_crlf text)) self
  = load_vocabulary (Contents text) self.
Proof.
  intros H. assert (H' : ~ In CR text) by (rewrite <- contains_In; congruence).
  unfold load_vocabulary, readlines.
  now rewrite un_to_crlf, un_fixed.
Qed.

Lemma load_vocabulary_crlf_witness :
  load_vocabulary (Contents (to_crlf malformed_file)) (init (u"v.txt"))
  = load_vocabulary (Contents malformed_file) (init (u"v.txt")).
Proof. apply load_vocabulary_crlf. reflexivity. Defined.

(** X12.  Appending a file to one that ends with a line feed appends its
    pairs. *)
Theorem load_vocabulary_append (t1 t2 : str) (self : VocabularyParser) :
  get_vocabulary_pairs
    (snd (fst (load_vocabulary (Contents ((t1 ++ [LF]) ++ t2)) self)))
  = get_vocabulary_pairs (snd (fst (load_vocabulary (Contents (t1 ++ [LF])) self)))
    ++ get_vocabulary_pairs (snd (fst (load_vocabulary (Contents t2) self))).
Proof.
  destruct (load_vocabulary_any ((t1 ++ [LF]) ++ t2) self) as (m & -> & _).
  destruct (load_vocabulary_any (t1 ++ [LF]) self) as (m1 & -> & _).
  destruct (load_vocabulary_any t2 self) as (m2 & -> & _).
  cbn [fst snd get_vocabulary_pairs vocabulary_pairs].
  rewrite readlines_app_lf. unfold valid_pairs. apply flat_map_app.
Qed.

End LoaderMore.

(** * Further properties of the session *)

Section DriverMore.
Import PyStr Quiz.

(** X13.  [initialize] succeeds exactly when [load_vocabulary] does; its
    second check never fires; it leaves the counters alone; after a success
    the game holds the parser's pairs, of which there is at least one, and
    after a failure the pairs it had. *)
Theorem initialize_result (r : Parser.read_result) (g : QuizGame) :
  let '(ok, g', out) := initialize r g in
  ok = fst (fst (Parser.load_vocabulary r (parser g))) /\
  ~ In NoPairsFound out /\
  counters g' = counters g /\
  (ok = true ->
   vocabulary_pairs g' = Parser.get_vocabulary_pairs (parser g') /\
   vocabulary_pairs g' <> []) /\
  (ok = false -> vocabulary_pairs g' = vocabulary_pairs g).
Proof.
  unfold initialize.
  pose proof (load_vocabulary_ok_pairs r (parser g)) as Hp.
  destruct (Parser.load_vocabulary r (parser g)) as [[ok p] msgs].
  cbn [fst snd] in Hp.
  assert (Hm : ~ In NoPairsFound (Banner :: map FromParser msgs)).
  { intros [E|H]; [discriminate E|].
    apply in_map_iff in H as (m & E & _). discriminate E. }
  destruct ok; cbn [negb]; cbv iota.
  - specialize (Hp eq_refl). unfold Parser.get_vocabulary_pairs. cbn [parser vocabulary_pairs].
    destruct (Parser.vocabulary_pairs p) as [|q qs] eqn:E; [contradiction|].
    cbn [is_nil]. split; [reflexivity|].
    split; [intros H; apply in_app_or in H as [H|[H|[]]]; [auto | discriminate H]|].
    split; [reflexivity|]. split; [|discriminate].
    intros _. simpl. rewrite E. split; [reflexivity | discriminate].
  - split; [reflexivity|].
    split; [intros H; apply in_app_or in H as [H|[H|[]]]; [auto | discriminate H]|].
    split; [reflexivity|]. split; [discriminate | reflexivity].
Qed.

(** X14.  A question can be generated exactly when the corpus is not empty;
    it shows one side of a pair of the corpus and expects the other side,
    French to Dutch or Dutch to French as the second draw says. *)
Theorem generate_question_pair (g : QuizGame) (draw : nat * bool) :
  match generate_question g draw with
  | None => vocabulary_pairs g = []
  | Some (question, answer, d) =>
    exists french dutch,
      In (french, dutch) (vocabulary_pairs g) /\
      if snd draw
      then d = french_to_dutch /\ question = Question french_to_dutch french
           /\ answer = dutch
      else d = dutch_to_french /\ question = Question dutch_to_french dutch
           /\ answer = french
  end.
Proof.
  unfold generate_question, random_choice.
  destruct (nth_error (vocabulary_pairs g)
              (fst draw mod List.length (vocabulary_pairs g))) as [[f d]|] eqn:E.
  - apply nth_error_In in E. destruct (snd draw) eqn:B; exists f, d; rewrite ?B; auto.
  - apply nth_error_None in E. destruct (vocabulary_pairs g) as [|q qs]; [reflexivity|].
    pose proof (Nat.mod_upper_bound (fst draw) (List.length (q :: qs))) as H.
    simpl in *. lia.
Qed.

(** X15.  Whatever the file, the generator and the user do, every ratio the
    session prints has a denominator of at least one and a numerator that
    does not exceed it, and the final results add up: no percentage divides
    by zero or exceeds 100. *)
Theorem main_output_sound (r : Parser.read_result) (rand : nat -> nat * bool)
    (events : list event) :
  Forall sound_output (main_output r rand events).
Proof.
  apply (main_output_parts sound_output consistent).
  - apply consistent_init.
  - intros g. apply consistent_initialize.
  - intros g draw inp. apply consistent_after_ask.
  - now apply initialize_output.
  - intros g draw inp. apply ask_question_sound.
  - apply display_stats_sound.
  - apply display_final_results_sound.
  - intros t. exact I.
  - exact I.
  - exact I.
Qed.

(** X16.  The final results are printed once, as the last thing, with the
    numbers of the game as it ends, when initialization succeeded, and not
    at all when it failed. *)
Theorem main_final_results_once (r : Parser.read_result) (rand : nat -> nat * bool)
    (events : list event) :
  filter is_final_header (main_output r rand events)
    = (if initialized r then [FinalHeader] else []) /\
  exists before,
    main_output r rand events
    = before ++ (if initialized r
                 then display_final_results (main_game r rand events) else []).
Proof.
  destruct (main_output_split r rand events) as (pre & Hpre & E).
  split; [|now exists pre].
  rewrite E, filter_app, (filter_none _ _ Hpre).
  destruct (initialized r); [apply display_final_results_header | reflexivity].
Qed.

(** X17.  A session grades at most one answer per line typed: the total of
    the game [main] ends with is at most the number of events, and its score
    is at most that total. *)
Theorem main_total_bounded (r : Parser.read_result) (rand : nat -> nat * bool)
    (events : list event) :
  total_questions (main_game r rand events) <= List.length events /\
  score (main_game r rand events) <= total_questions (main_game r rand events).
Proof.
  split.
  - unfold main_game, main, run.
    destruct (initialize_counters r init) as (_ & E & _).
    destruct (initialize r init) as [[ok g] out]. cbn [fst snd] in E.
    destruct ok; cbn [negb]; cbv iota; [|cbn [fst snd]; rewrite E; simpl; lia].
    pose proof (loop_total rand _ events 0 g (le_n _)) as T.
    destruct (loop rand 0 events g) as [[res g'] out']. cbn [fst snd] in T.
    rewrite E in T. simpl in T.
    destruct res as [?|[| |]]; cbn [fst snd]; lia.
  - pose proof (main_reachable r rand events) as R.
    pose proof (reachable_conserved _ R) as (H & _).
    pose proof (reachable_score _ R) as S. unfold main_game. lia.
Qed.

(** X19.  While the total is a positive multiple of five, the continue
    prompt comes back after an input that is not graded (a stats command or
    an empty line): the line typed next answers that prompt, and a negative
    answer ends the session with the game unchanged. *)
Theorem continue_prompt_again (rand : nat -> nat * bool) (n : nat)
    (l answer : str) (rest : list event) (g : QuizGame) :
  is_nil (vocabulary_pairs g) = false ->
  (0 <? total_questions g) && (total_questions g mod 5 =? 0) = true ->
  graded l = false -> mem (lower (strip l)) quit_commands = false ->
  mem (strip (lower answer)) stop_commands = true ->
  exists out,
    loop rand n (Types l :: Types answer :: rest) g = (Ret tt, g, out) /\
    In (Completed (total_questions g)) out.
Proof.
  intros Hv Ht Hg Hq Hstop.
  assert (Hv' : vocabulary_pairs g <> []) by (intros E; now rewrite E in Hv).
  destruct (generate_question_some g (rand n) Hv') as (q & a & d & Hgen).
  cbn [loop input_of]. unfold ask_question. rewrite Hgen, Hq.
  unfold graded in Hg. rewrite Hq in Hg. cbn [negb andb] in Hg.
  destruct (mem (lower (strip l)) stats_commands).
  - rewrite Ht, Hstop. eexists. split; [reflexivity|].
    apply in_or_app. right. now left.
  - cbn [negb andb] in Hg. apply negb_false_iff in Hg. rewrite Hg, Ht, Hstop.
    eexists. split; [reflexivity|]. apply in_or_app. right. now left.
Qed.

Lemma continue_prompt_again_witness :
  exists out,
    loop turns 7 [Types (u"stats"); Types (u"n"); Types (u"hallo")]
         (mkGame (Parser.init (u"v.txt")) [(u"bonjour", u"hallo")] 3 5
                 (mkStats 3 2 (mkDir 3 5) (mkDir 0 0)))
    = (Ret tt,
       mkGame (Parser.init (u"v.txt")) [(u"bonjour", u"hallo")] 3 5
              (mkStats 3 2 (mkDir 3 5) (mkDir 0 0)), out) /\
    In (Completed 5) out.
Proof.
  apply (continue_prompt_again turns 7 (u"stats") (u"n") [Types (u"hallo")]
           (mkGame (Parser.init (u"v.txt")) [(u"bonjour", u"hallo")] 3 5
                   (mkStats 3 2 (mkDir 3 5) (mkDir 0 0))));
    reflexivity.
Defined.

End DriverMore.

(** * The self-test of the parser *)

Section SelfTestMore.
Import PyStr Parser SelfTest.

(** X18.  [test_parser] prints nothing but the loader's messages when the
    load fails; when it succeeds it shows the first five pairs at most,
    numbered from one, and its four test cases give the same verdicts
    whatever the file: the first three fail, the last one passes. *)
Theorem test_parser_verdicts (r : read_result) :
  let '(ok, p, msgs) := load_vocabulary r (init (u"vocabulary_data.txt")) in
  verdicts (test_parser r) = (if ok then [false; false; false; true] else []) /\
  shown_pairs (test_parser r)
    = (if ok then enumerate 1 (firstn 5 (get_vocabulary_pairs p)) else []) /\
  (ok = false -> test_parser r = map FromLoader msgs).
Proof.
  unfold test_parser.
  destruct (load_vocabulary r (init (u"vocabulary_data.txt"))) as [[ok p] msgs].
  rewrite verdicts_app, shown_pairs_app, verdicts_loader, shown_pairs_loader.
  destruct ok; cbn [app].
  - split; [|split; [|discriminate]].
    + change (FirstPairsHeader :: ?x ++ TestingHeader :: ?y)
        with ([FirstPairsHeader] ++ x ++ [TestingHeader] ++ y).
      rewrite !verdicts_app, verdicts_pair_lines. vm_compute. reflexivity.
    + change (FirstPairsHeader :: ?x ++ TestingHeader :: ?y)
        with ([FirstPairsHeader] ++ x ++ [TestingHeader] ++ y).
      rewrite !shown_pairs_app, shown_pairs_pair_lines.
      cbn. now rewrite app_nil_r.
  - split; [reflexivity|]. split; [reflexivity|]. intros _. apply app_nil_r.
Qed.

End SelfTestMore.
